(** * recovery: FAT32 / NTFS / signature-carving engines

    A shallow embedding of the three recovery engines of the Go
    repository (internal/disk, internal/carver, internal/fat32,
    internal/ntfs) together with the properties of the engines that the
    specification states.

    Conventions of the embedding.
    - Go's [int] is taken to be 64 bits wide.  Fixed-width integers are
      values of [Z]; every operation whose operands come from the input
      and may leave the range is wrapped explicitly ([wrap64s], [wrapu32],
      [wrapu64]).  Loop counters bounded by a slice length are left
      unwrapped.
    - A byte is a [Byte.byte]; [b2z] gives its value in 0..255.
    - A run-time panic (index out of range, division by zero) is an
      explicit [Panic] result.
    - Loops whose trip count depends on the input take a [fuel] argument
      and return [None] when it runs out; the theorems show how much fuel
      always suffices. *)

From Stdlib Require Import String Ascii.
From Stdlib Require Strings.Byte.
From Stdlib Require DecimalString.
From Stdlib Require Import ZArith List Lia Bool Sorted.
Import ListNotations.
Open Scope Z_scope.

(* ------------------------------------------------------------------ *)
(** ** Machine integers and bytes *)

Abbreviation byte := Byte.byte.

Definition b2z (b : byte) : Z := Z.of_N (Byte.to_N b).

Definition z2b (z : Z) : byte :=
  match Byte.of_N (Z.to_N (z mod 256)) with
  | Some b => b
  | None => Byte.x00
  end.

Definition wrapu32 (z : Z) : Z := z mod 2 ^ 32.
Definition wrapu64 (z : Z) : Z := z mod 2 ^ 64.

(** Two's-complement reading of the low 64 bits. *)
Definition wrap64s (z : Z) : Z :=
  let u := z mod 2 ^ 64 in
  if u <? 2 ^ 63 then u else u - 2 ^ 64.

Definition len {A} (l : list A) : Z := Z.of_nat (length l).

(** [l[i:j]] for in-range indices. *)
Definition slice {A} (l : list A) (i j : Z) : list A :=
  firstn (Z.to_nat (j - i)) (skipn (Z.to_nat i) l).

(** [l[i]]; the callers guard the index. *)
Definition at_ (l : list byte) (i : Z) : byte :=
  nth (Z.to_nat i) l Byte.x00.

(** [a, a+1, ..., a+n-1]. *)
Definition zseq (a : Z) (n : nat) : list Z :=
  map (fun k => a + Z.of_nat k) (seq 0 n).

(** [bytes.Equal]. *)
Fixpoint bytes_equal (a b : list byte) : bool :=
  match a, b with
  | [], [] => true
  | x :: a', y :: b' => Byte.eqb x y && bytes_equal a' b'
  | _, _ => false
  end.

(** [s] starts with [sep]. *)
Fixpoint has_prefix (s sep : list byte) : bool :=
  match sep, s with
  | [], _ => true
  | y :: sep', x :: s' => Byte.eqb x y && has_prefix s' sep'
  | _ :: _, [] => false
  end.

(** [bytes.Index]: position of the first instance of [sep] in [s], or -1. *)
Fixpoint bytes_Index_from (s sep : list byte) (pos : Z) : Z :=
  if has_prefix s sep then pos
  else match s with
       | [] => -1
       | _ :: s' => bytes_Index_from s' sep (pos + 1)
       end.

Definition bytes_Index (s sep : list byte) : Z := bytes_Index_from s sep 0.

(** [binary.LittleEndian.Uint16 / Uint32 / Uint64] on [b[off:]]; the
    callers guard the length. *)
Definition le16 (b : list byte) (off : Z) : Z :=
  Z.lor (b2z (at_ b off)) (Z.shiftl (b2z (at_ b (off + 1))) 8).

Definition le32 (b : list byte) (off : Z) : Z :=
  Z.lor (Z.lor (Z.lor (b2z (at_ b off))
                      (Z.shiftl (b2z (at_ b (off + 1))) 8))
               (Z.shiftl (b2z (at_ b (off + 2))) 16))
        (Z.shiftl (b2z (at_ b (off + 3))) 24).

Definition le64 (b : list byte) (off : Z) : Z :=
  Z.lor (le32 b off) (Z.shiftl (le32 b (off + 4)) 32).

(** A result that may be a Go panic. *)
Inductive outcome (A : Type) : Type :=
| Done (a : A)
| Panic.
Arguments Done {A} a.
Arguments Panic {A}.

(* ------------------------------------------------------------------ *)
(** ** internal/disk: the block source *)

Module Disk.

(** The error values the engines distinguish: [io.EOF] and any other. *)
Inductive error := EOF | IOError.

(** [Reader]: [ReadAt len off] is a call [ReadAt(buf, off)] with
    [len(buf) = len]; it returns the bytes placed at the front of [buf]
    (their number is Go's [n]) and the error. *)
Record Reader := {
  Size : Z;
  ReadAt : Z -> Z -> list byte * option error
}.

(** What Go's [io.ReaderAt] promises about [n]. *)
Definition reader_ok (r : Reader) : Prop :=
  forall l off, 0 <= l -> len (fst (ReadAt r l off)) <= l.

(** The effect of a read on the caller's buffer: the first [n] bytes are
    overwritten, the rest keeps its content. *)
Definition fill (buf data : list byte) : list byte :=
  data ++ skipn (length data) buf.

(** [make([]byte, n)]. *)
Definition zeros (n : Z) : list byte := repeat Byte.x00 (Z.to_nat n).

(** An image file: [os.File] of [f_size] bytes with content [f_byte]. *)
Record image := {
  f_size : Z;
  f_byte : Z -> byte
}.

Definition bytes_at (f : Z -> byte) (off : Z) (n : nat) : list byte :=
  map f (zseq off n).

(** [os.File.ReadAt]: a negative offset is an error; a read that reaches
    the end of the file returns what is left together with [io.EOF]; an
    empty buffer reads nothing and reports no error. *)
Definition file_ReadAt (im : image) (l off : Z) : list byte * option error :=
  if off <? 0 then ([], Some IOError)
  else if l <=? 0 then ([], None)
  else if f_size im <=? off then ([], Some EOF)
  else if f_size im - off <? l
       then (bytes_at (f_byte im) off (Z.to_nat (f_size im - off)), Some EOF)
       else (bytes_at (f_byte im) off (Z.to_nat l), None).

(** [Open] on an image file. *)
Definition Open (im : image) : Reader :=
  {| Size := f_size im; ReadAt := file_ReadAt im |}.

End Disk.

(* ------------------------------------------------------------------ *)
(** ** internal/carver: the signature carver *)

Module Carver.
Import Disk.

(** A byte string given by the values of its bytes. *)
Definition hex (l : list Z) : list byte := map z2b l.

Record FileSignature := {
  Name : string;
  Extension : string;
  Header : list byte;
  Footer : list byte;     (* nil when the signature has no footer *)
  MaxSize : Z             (* int64; 0 = use the default *)
}.

Definition sig (name ext : string) (header footer : list Z) (max : Z)
  : FileSignature :=
  {| Name := name; Extension := ext; Header := hex header;
     Footer := hex footer; MaxSize := max |}.

Definition MiB : Z := 1024 * 1024.
Definition GiB : Z := 1024 * 1024 * 1024.

(** The table [Signatures]. *)
Definition Signatures : list FileSignature := [
  sig "JPEG" ".jpg" [0xFF; 0xD8; 0xFF] [0xFF; 0xD9] (50 * MiB);
  sig "PNG" ".png" [0x89; 0x50; 0x4E; 0x47; 0x0D; 0x0A; 0x1A; 0x0A]
      [0x49; 0x45; 0x4E; 0x44; 0xAE; 0x42; 0x60; 0x82] (50 * MiB);
  sig "GIF" ".gif" [0x47; 0x49; 0x46; 0x38] [0x00; 0x3B] (20 * MiB);
  sig "BMP" ".bmp" [0x42; 0x4D] [] (50 * MiB);
  sig "WEBP" ".webp" [0x52; 0x49; 0x46; 0x46] [] (50 * MiB);
  sig "TIFF" ".tiff" [0x49; 0x49; 0x2A; 0x00] [] (100 * MiB);
  sig "TIFF-BE" ".tiff" [0x4D; 0x4D; 0x00; 0x2A] [] (100 * MiB);
  sig "MP4" ".mp4" [0x00; 0x00; 0x00] [] (4 * GiB);
  sig "AVI" ".avi" [0x52; 0x49; 0x46; 0x46] [] (4 * GiB);
  sig "MKV" ".mkv" [0x1A; 0x45; 0xDF; 0xA3] [] (4 * GiB);
  sig "MOV" ".mov" [0x00; 0x00; 0x00; 0x14; 0x66; 0x74; 0x79; 0x70] []
      (4 * GiB);
  sig "WMV" ".wmv" [0x30; 0x26; 0xB2; 0x75; 0x8E; 0x66; 0xCF; 0x11] []
      (4 * GiB);
  sig "FLV" ".flv" [0x46; 0x4C; 0x56; 0x01] [] (2 * GiB);
  sig "MP3" ".mp3" [0xFF; 0xFB] [] (100 * MiB);
  sig "MP3-ID3" ".mp3" [0x49; 0x44; 0x33] [] (100 * MiB);
  sig "WAV" ".wav" [0x52; 0x49; 0x46; 0x46] [] (500 * MiB);
  sig "FLAC" ".flac" [0x66; 0x4C; 0x61; 0x43] [] (500 * MiB);
  sig "OGG" ".ogg" [0x4F; 0x67; 0x67; 0x53] [] (200 * MiB);
  sig "M4A" ".m4a"
      [0x00; 0x00; 0x00; 0x20; 0x66; 0x74; 0x79; 0x70; 0x4D; 0x34; 0x41] []
      (500 * MiB);
  sig "PDF" ".pdf" [0x25; 0x50; 0x44; 0x46] [0x25; 0x25; 0x45; 0x4F; 0x46]
      (500 * MiB);
  sig "DOCX" ".docx" [0x50; 0x4B; 0x03; 0x04] [] (100 * MiB);
  sig "XLSX" ".xlsx" [0x50; 0x4B; 0x03; 0x04] [] (100 * MiB);
  sig "PPTX" ".pptx" [0x50; 0x4B; 0x03; 0x04] [] (500 * MiB);
  sig "ZIP" ".zip" [0x50; 0x4B; 0x03; 0x04] [] GiB;
  sig "RAR" ".rar" [0x52; 0x61; 0x72; 0x21; 0x1A; 0x07] [] GiB;
  sig "7Z" ".7z" [0x37; 0x7A; 0xBC; 0xAF; 0x27; 0x1C] [] GiB;
  sig "EXE" ".exe" [0x4D; 0x5A] [] (500 * MiB);
  sig "ELF" ".elf" [0x7F; 0x45; 0x4C; 0x46] [] (500 * MiB);
  sig "SQLite" ".sqlite"
      [0x53; 0x51; 0x4C; 0x69; 0x74; 0x65; 0x20; 0x66; 0x6F; 0x72; 0x6D;
       0x61; 0x74] [] GiB
]%string.

(** A hit of the scan. *)
Record CarvedFile := {
  Signature : FileSignature;
  Offset : Z;
  Size : Z
}.

Record Carver := {
  reader : Reader;
  bufSize : Z;
  signatures : list FileSignature
}.

Definition NewCarver (r : Reader) : Carver :=
  {| reader := r; bufSize := 1024 * 1024; signatures := Signatures |}.

Definition SetSignatures (c : Carver) (sigs : list FileSignature) : Carver :=
  {| reader := reader c; bufSize := bufSize c; signatures := sigs |}.

(** *** Scan *)

(** The buffer length [Scan] settles on. *)
Definition scan_bufSize (c : Carver) : Z :=
  let diskSize := Disk.Size (reader c) in
  let bufSize := bufSize c in
  let bufSize := if diskSize <? bufSize then diskSize else bufSize in
  if bufSize <? 128 then 128 else bufSize.

Definition scan_overlap (bufSize : Z) : Z :=
  if 1024 >? Z.quot bufSize 2 then 0 else 1024.

(** [searchEnd] after a read of [n] bytes. *)
Definition searchEnd (n : Z) : Z :=
  let searchEnd := n - 64 in
  if searchEnd <? 0 then n else searchEnd.

(** The positions [i] the loop [for i := 0; i < searchEnd; i++] visits. *)
Definition search_positions (n : Z) : list Z :=
  zseq 0 (Z.to_nat (searchEnd n)).

Definition ftyp : list byte := hex [0x66; 0x74; 0x79; 0x70].

(** The body of the loop over the signatures, at position [i] of a buffer
    holding [n] fresh bytes read at [offset]: the hits it appends.  The
    hit points to the loop variable [sig], a variable of its own in every
    iteration (Go 1.22), so it keeps the signature that matched, as the
    tests of the package expect. *)
Definition sig_hit (buf : list byte) (n offset i : Z) (s : FileSignature)
  : list CarvedFile :=
  let hit := {| Signature := s; Offset := wrap64s (offset + i);
                Size := MaxSize s |} in
  if len (Header s) >? n - i then []
  else if bytes_equal (slice buf i (i + len (Header s))) (Header s) then
    if String.eqb (Name s) "MP4" && (i + 8 <? n) then
      if bytes_equal (slice buf (i + 4) (i + 8)) ftyp then [hit] else []
    else [hit]
  else [].

(** The hits of one buffer. *)
Definition buffer_hits (sigs : list FileSignature) (buf : list byte)
           (n offset : Z) : list CarvedFile :=
  flat_map (fun i => flat_map (sig_hit buf n offset i) sigs)
           (search_positions n).

(** [advance] after a read of [n] bytes. *)
Definition scan_advance (n overlap : Z) : Z :=
  let advance := n - overlap in
  if advance <=? 0 then n else advance.

(** The loop [for offset < diskSize]; [inr e] is [return nil, err]. *)
Fixpoint scan_loop (c : Carver) (overlap : Z) (fuel : nat)
         (buf : list byte) (offset : Z) (files : list CarvedFile)
  : option (list CarvedFile + error) :=
  match fuel with
  | O => None
  | S fuel' =>
    if offset <? Disk.Size (reader c) then
      let (data, err) := ReadAt (reader c) (len buf) offset in
      let n := len data in
      match err with
      | Some IOError => Some (inr IOError)
      | _ =>
        if n =? 0 then Some (inl files)
        else
          let buf := fill buf data in
          let files := files ++ buffer_hits (signatures c) buf n offset in
          scan_loop c overlap fuel' buf
                    (wrap64s (offset + scan_advance n overlap)) files
      end
    else Some (inl files)
  end.

Definition Scan (c : Carver) (fuel : nat)
  : option (list CarvedFile + error) :=
  let bufSize := scan_bufSize c in
  scan_loop c (scan_overlap bufSize) fuel (zeros bufSize) 0 [].

(** *** RecoverFile *)

Definition recover_maxSize (file : CarvedFile) : Z :=
  if MaxSize (Signature file) =? 0 then 10 * 1024 * 1024
  else MaxSize (Signature file).

(** The loop [for written < maxSize]; the result is the content of the
    output file when the loop is left.  Creating the directory and the
    file is taken to succeed, and so is every write. *)
Fixpoint recover_loop (r : Reader) (footer : list byte) (maxSize : Z)
         (fuel : nat) (buf : list byte) (written offset : Z)
         (out : list byte) : option (list byte) :=
  match fuel with
  | O => None
  | S fuel' =>
    if written <? maxSize then
      let toRead := Z.min (len buf) (maxSize - written) in
      let (data, err) := ReadAt r toRead offset in
      let n := len data in
      match err with
      | Some IOError => Some out
      | _ =>
        if n =? 0 then Some out
        else
          let buf := fill buf data in
          let idx := if 0 <? len footer
                     then bytes_Index (slice buf 0 n) footer else -1 in
          if 0 <=? idx
          then Some (out ++ slice buf 0 (idx + len footer))
          else recover_loop r footer maxSize fuel' buf
                            (written + n) (wrap64s (offset + n))
                            (out ++ slice buf 0 n)
      end
    else Some out
  end.

Definition RecoverFile (c : Carver) (file : CarvedFile) (fuel : nat)
  : option (list byte) :=
  recover_loop (reader c) (Footer (Signature file)) (recover_maxSize file)
               fuel (zeros (64 * 1024)) 0 (Offset file) [].

End Carver.

(* ------------------------------------------------------------------ *)
(** ** Go strings built from UTF-16 (unicode/utf16 and string([]rune)) *)

(** A Go string is its sequence of bytes. *)
Abbreviation gostring := (list byte).

Definition surr1 : Z := 0xd800.
Definition surr2 : Z := 0xdc00.
Definition surr3 : Z := 0xe000.
Definition replacementChar : Z := 0xFFFD.

(** [utf16.Decode]: a surrogate pair becomes one rune, a lone surrogate
    becomes U+FFFD. *)
Fixpoint utf16_Decode (s : list Z) : list Z :=
  match s with
  | [] => []
  | r :: rest =>
    if (r <? surr1) || (surr3 <=? r) then r :: utf16_Decode rest
    else
      match rest with
      | r2 :: rest' =>
        if (r <? surr2) && (surr2 <=? r2) && (r2 <? surr3)
        then (Z.lor (Z.shiftl (r - surr1) 10) (r2 - surr2) + 0x10000)
               :: utf16_Decode rest'
        else replacementChar :: utf16_Decode rest
      | [] => [replacementChar]
      end
  end.

(** The UTF-8 encoding of one rune, as [string(rune)] produces it. *)
Definition utf8_rune (r : Z) : list byte :=
  let r := if (r <? 0) || (0x10FFFF <? r) || ((surr1 <=? r) && (r <? surr3))
           then replacementChar else r in
  if r <? 0x80 then [z2b r]
  else if r <? 0x800 then
    [z2b (Z.lor 0xC0 (Z.shiftr r 6)); z2b (Z.lor 0x80 (Z.land r 0x3F))]
  else if r <? 0x10000 then
    [z2b (Z.lor 0xE0 (Z.shiftr r 12));
     z2b (Z.lor 0x80 (Z.land (Z.shiftr r 6) 0x3F));
     z2b (Z.lor 0x80 (Z.land r 0x3F))]
  else
    [z2b (Z.lor 0xF0 (Z.shiftr r 18));
     z2b (Z.lor 0x80 (Z.land (Z.shiftr r 12) 0x3F));
     z2b (Z.lor 0x80 (Z.land (Z.shiftr r 6) 0x3F));
     z2b (Z.lor 0x80 (Z.land r 0x3F))].

(** [string(runes)]. *)
Definition string_of_runes (runes : list Z) : gostring :=
  flat_map utf8_rune runes.

(** [string(utf16.Decode(u16))]. *)
Definition string_of_utf16 (u16 : list Z) : gostring :=
  string_of_runes (utf16_Decode u16).

(** [strings.TrimRight(s, " ")]. *)
Fixpoint trim_right_spaces (s : gostring) : gostring :=
  match s with
  | [] => []
  | c :: s' =>
    match trim_right_spaces s' with
    | [] => if Byte.eqb c (z2b 0x20) then [] else [c]
    | t => c :: t
    end
  end.

(* ------------------------------------------------------------------ *)
(** ** internal/fat32: the FAT32 engine *)

Module Fat32.
Import Disk.

Definition DirEntrySize : Z := 32.
Definition DeletedMarker : Z := 0xE5.
Definition LFNAttribute : Z := 0x0F.
Definition AttrDirectory : Z := 0x10.
Definition AttrVolumeLabel : Z := 0x08.
Definition ClusterEndMarker : Z := 0x0FFFFFF8.

(** The boot-sector fields [readBootSector] fills in. *)
Record BootSector := {
  BytesPerSector : Z;      (* uint16 *)
  SectorsPerCluster : Z;   (* uint8 *)
  ReservedSectors : Z;     (* uint16 *)
  NumFATs : Z;             (* uint8 *)
  TotalSectors32 : Z;      (* uint32 *)
  FATSize32 : Z;           (* uint32 *)
  RootCluster : Z          (* uint32 *)
}.

Record RecoveredFile := {
  Name : gostring;
  LongName : gostring;
  Path : list gostring;    (* the components joined by filepath.Join *)
  FirstCluster : Z;        (* uint32 *)
  Size : Z;                (* uint32 *)
  IsDirectory : bool;
  IsDeleted : bool
}.

Record Parser := {
  reader : Reader;
  bootSector : BootSector;
  fatStart : Z;            (* int64 *)
  dataStart : Z;           (* int64 *)
  clusterSz : Z;           (* int *)
  fatTable : list Z
}.

(** The only error of [readBootSector]: the wrapped read error. *)
Inductive boot_error := FailedToReadBootSector (cause : error).

(** [readBootSector] on a fresh parser.  The products stay far below
    2^63 (16-bit by 16-bit, 32-bit by 16-bit, 8-bit by 48-bit), so they
    are written without wrap-around. *)
Definition readBootSector (r : Reader) : Parser + boot_error :=
  let (data, err) := ReadAt r 512 0 in
  match err with
  | Some e => inr (FailedToReadBootSector e)
  | None =>
    let buf := fill (zeros 512) data in
    let bs := {| BytesPerSector := le16 buf 11;
                 SectorsPerCluster := b2z (at_ buf 13);
                 ReservedSectors := le16 buf 14;
                 NumFATs := b2z (at_ buf 16);
                 TotalSectors32 := le32 buf 32;
                 FATSize32 := le32 buf 36;
                 RootCluster := le32 buf 44 |} in
    let fatStart := ReservedSectors bs * BytesPerSector bs in
    let fatSize := FATSize32 bs * BytesPerSector bs in
    inl {| reader := r;
           bootSector := bs;
           fatStart := fatStart;
           dataStart := fatStart + NumFATs bs * fatSize;
           clusterSz := SectorsPerCluster bs * BytesPerSector bs;
           fatTable := [] |}
  end.

Definition NewParser (r : Reader) : Parser + boot_error :=
  readBootSector r.

(** [clusterToOffset]: [cluster-2] is computed in uint32. *)
Definition clusterToOffset (p : Parser) (cluster : Z) : Z :=
  dataStart p + wrapu32 (cluster - 2) * clusterSz p.

Definition readCluster (p : Parser) (cluster : Z) : list byte + error :=
  let offset := clusterToOffset p cluster in
  let (data, err) := ReadAt (reader p) (clusterSz p) offset in
  match err with
  | Some e => inr e
  | None => inl (fill (zeros (clusterSz p)) data)
  end.

(** *** RecoverFile *)

(** What [RecoverFile] leaves behind: a directory, or the output file
    with its content and the error returned, if any. *)
Inductive recovered :=
| MadeDir
| Wrote (content : list byte) (err : option error).

(** The loop over [i]; [todo] is [clustersNeeded - i]. *)
Fixpoint recover_loop (p : Parser) (size : Z) (todo : nat)
         (cluster bytesWritten : Z) (out : list byte) : recovered :=
  match todo with
  | O => Wrote out None
  | S todo' =>
    if bytesWritten <? size then
      match readCluster p cluster with
      | inr EOF => Wrote out None
      | inr e => Wrote out (Some e)
      | inl data =>
        let toWrite := wrapu32 (len data) in
        let remaining := wrapu32 (size - bytesWritten) in
        let toWrite := if toWrite >? remaining then remaining else toWrite in
        recover_loop p size todo' (wrapu32 (cluster + 1))
                     (wrapu32 (bytesWritten + toWrite))
                     (out ++ slice data 0 toWrite)
      end
    else Wrote out None
  end.

(** [clustersNeeded], in uint32 arithmetic; the divisor is not zero. *)
Definition clustersNeeded (p : Parser) (size : Z) : Z :=
  let n := wrapu32 (size + wrapu32 (clusterSz p) - 1)
             / wrapu32 (clusterSz p) in
  if n =? 0 then 1 else n.

(** Creating the directories and the output file is taken to succeed. *)
Definition RecoverFile (p : Parser) (file : RecoveredFile)
  : outcome recovered :=
  if IsDirectory file then Done MadeDir
  else if wrapu32 (clusterSz p) =? 0 then Panic   (* division by zero *)
  else Done (recover_loop p (Size file)
                          (Z.to_nat (clustersNeeded p (Size file)))
                          (FirstCluster file) 0 []).

(** *** Directory scan *)

(** One of the three loops of [parseLFNEntry]: up to [k] code units
    from offset [off], stopping at the first 0x0000 or 0xFFFF. *)
Fixpoint lfn_chars (entry : list byte) (off : Z) (k : nat) : list Z :=
  match k with
  | O => []
  | S k' =>
    let c := le16 entry off in
    if (c =? 0) || (c =? 0xFFFF) then []
    else c :: lfn_chars entry (off + 2) k'
  end.

Definition parseLFNEntry (entry : list byte) : gostring :=
  string_of_utf16 (lfn_chars entry 1 5 ++ lfn_chars entry 14 6
                     ++ lfn_chars entry 28 2).

Definition question_mark : byte := z2b 0x3F.
Definition dot : byte := z2b 0x2E.

Definition parseShortName (name : list byte) (isDeleted : bool) : gostring :=
  let baseName := trim_right_spaces (slice name 0 8) in
  let ext := trim_right_spaces (slice name 8 11) in
  let baseName := if isDeleted && (0 <? len baseName)
                  then question_mark :: skipn 1 baseName else baseName in
  if negb (len ext =? 0) then baseName ++ [dot] ++ ext else baseName.

(** The state the scan threads through its calls: [*files] and the
    [visited] map (the clusters mapped to true). *)
Record scan_state := {
  files : list RecoveredFile;
  visited : list Z
}.

Definition is_visited (st : scan_state) (cluster : Z) : bool :=
  existsb (Z.eqb cluster) (visited st).

Definition mark_visited (st : scan_state) (cluster : Z) : scan_state :=
  {| files := files st; visited := cluster :: visited st |}.

Definition add_file (st : scan_state) (f : RecoveredFile) : scan_state :=
  {| files := files st ++ [f]; visited := visited st |}.

(** [data[i : i+32]] for i = 0, 32, ...: the 32-byte slots of a
    cluster; the last one is short when the length is no multiple of 32
    (slicing it panics). *)
Fixpoint slots_of (fuel : nat) (data : list byte) : list (list byte) :=
  match fuel, data with
  | S fuel', _ :: _ => firstn 32 data :: slots_of fuel' (skipn 32 data)
  | _, _ => []
  end.

Definition slots (data : list byte) : list (list byte) :=
  slots_of (length data) data.

(** The base entry decoded by the loop body. *)
Definition base_entry (path : list gostring) (lfnParts : list gostring)
           (entry : list byte) : RecoveredFile :=
  let isDeleted := b2z (at_ entry 0) =? DeletedMarker in
  let isDir := negb (Z.land (b2z (at_ entry 11)) AttrDirectory =? 0) in
  let firstCluster := Z.lor (le16 entry 26)
                            (wrapu32 (Z.shiftl (le16 entry 20) 16)) in
  let fileSize := le32 entry 28 in
  let shortName := parseShortName (slice entry 0 11) isDeleted in
  let longName := concat lfnParts in
  let name := if len longName =? 0 then shortName else longName in
  {| Name := shortName; LongName := longName; Path := path ++ [name];
     FirstCluster := firstCluster; Size := fileSize;
     IsDirectory := isDir; IsDeleted := isDeleted |}.

(** The name the entry is shown under: the last path component. *)
Definition display_name (f : RecoveredFile) : gostring :=
  if len (LongName f) =? 0 then Name f else LongName f.

Definition is_dot_name (name : gostring) : bool :=
  bytes_equal name [dot] || bytes_equal name [dot; dot].

Section Entries.
(** The recursive call [p.scanDirectory(firstCluster, file.Path, files,
    visited)]: [None] when the fuel is used up; the error it returns is
    dropped by the caller. *)
Variable recurse :
  Z -> list gostring -> scan_state -> option (outcome scan_state).

(** The loop over the slots of one cluster. *)
Fixpoint scan_entries (entries : list (list byte)) (path : list gostring)
         (lfnParts : list gostring) (st : scan_state)
  : option (outcome scan_state) :=
  match entries with
  | [] => Some (Done st)
  | entry :: rest =>
    if len entry <? DirEntrySize then Some Panic
    else if b2z (at_ entry 0) =? 0x00 then Some (Done st)
    else if b2z (at_ entry 11) =? LFNAttribute then
      let lfn := parseLFNEntry entry in
      let lfnParts :=
          if negb (Z.land (b2z (at_ entry 0)) 0x40 =? 0)
          then [] else lfnParts in
      scan_entries rest path (lfn :: lfnParts) st
    else if negb (Z.land (b2z (at_ entry 11)) AttrVolumeLabel =? 0) then
      scan_entries rest path lfnParts st
    else
      let file := base_entry path lfnParts entry in
      if is_dot_name (display_name file) then scan_entries rest path [] st
      else
        let st := if IsDeleted file then add_file st file else st in
        if IsDirectory file && negb (IsDeleted file)
           && (2 <=? FirstCluster file)
        then match recurse (FirstCluster file) (Path file) st with
             | None => None
             | Some Panic => Some Panic
             | Some (Done st') => scan_entries rest path [] st'
             end
        else scan_entries rest path [] st
  end.
End Entries.

(** [scanDirectory]; the result pairs the state with the error returned.
    A failed read of a subdirectory leaves what it had collected. *)
Fixpoint scanDirectory (p : Parser) (fuel : nat) (cluster : Z)
         (path : list gostring) (st : scan_state)
  : option (outcome (scan_state * option error)) :=
  match fuel with
  | O => None
  | S fuel' =>
    if negb (cluster =? 0) && (cluster <? ClusterEndMarker) then
      if is_visited st cluster then Some (Done (st, None))
      else
        let st := mark_visited st cluster in
        match readCluster p cluster with
        | inr e => Some (Done (st, Some e))
        | inl data =>
          let recurse c pth s :=
              match scanDirectory p fuel' c pth s with
              | None => None
              | Some Panic => Some Panic
              | Some (Done (s', _)) => Some (Done s')
              end in
          match scan_entries recurse (slots data) path [] st with
          | None => None
          | Some Panic => Some Panic
          | Some (Done st') =>
            if cluster <? len (fatTable p)
            then scanDirectory p fuel'
                               (nth (Z.to_nat cluster) (fatTable p) 0)
                               path st'
            else Some (Done (st', None))
          end
        end
    else Some (Done (st, None))
  end.

(** [loadFAT]. *)
Definition loadFAT (p : Parser) : Parser + error :=
  let fatSize := FATSize32 (bootSector p) * BytesPerSector (bootSector p) in
  let (data, err) := ReadAt (reader p) fatSize (fatStart p) in
  match err with
  | Some e => inr e
  | None =>
    let buf := fill (zeros fatSize) data in
    inl {| reader := reader p; bootSector := bootSector p;
           fatStart := fatStart p; dataStart := dataStart p;
           clusterSz := clusterSz p;
           fatTable := map (fun i => le32 buf (4 * i))
                           (zseq 0 (Z.to_nat (Z.quot fatSize 4))) |}
  end.

(** [ScanDeletedFiles]: the deleted files found, or the error. *)
Definition ScanDeletedFiles (p : Parser) (fuel : nat)
  : option (outcome (list RecoveredFile + error)) :=
  match loadFAT p with
  | inr e => Some (Done (inr e))
  | inl p =>
    match scanDirectory p fuel (RootCluster (bootSector p)) []
                        {| files := []; visited := [] |} with
    | None => None
    | Some Panic => Some Panic
    | Some (Done (_, Some e)) => Some (Done (inr e))
    | Some (Done (st, None)) => Some (Done (inl (files st)))
    end
  end.

End Fat32.

(* ------------------------------------------------------------------ *)
(** ** internal/ntfs: the NTFS engine *)

Module Ntfs.
Import Disk.

Definition AttrFileName : Z := 0x30.
Definition AttrData : Z := 0x80.
Definition AttrEnd : Z := 0xFFFFFFFF.

Record DataRun := {
  Offset : Z;              (* int64: the absolute cluster of the run *)
  Length : Z               (* uint64: number of clusters *)
}.

Record RecoveredFile := {
  Name : gostring;
  Path : list gostring;    (* the components joined by filepath.Join *)
  MFTIndex : Z;
  ParentRef : Z;
  Size : Z;                (* uint64 *)
  IsDirectory : bool;
  IsDeleted : bool;
  DataRuns : list DataRun
}.

Record BootSector := {
  BytesPerSector : Z;      (* uint16 *)
  SectorsPerCluster : Z;   (* uint8 *)
  MFTCluster : Z;          (* uint64 *)
  ClustersPerMFTRec : Z    (* int8 *)
}.

Record Parser := {
  reader : Reader;
  bootSector : BootSector;
  mftStart : Z;            (* int64 *)
  clusterSize : Z;         (* int *)
  mftRecSize : Z;          (* int *)
  mftRecords : list (Z * RecoveredFile)   (* the map, latest entry first *)
}.

(** *** Data runs *)

(** [x << s] on a 64-bit operand; a count of 64 or more gives 0. *)
Definition shl64 (x s : Z) : Z := Z.shiftl x s mod 2 ^ 64.

(** The loop [length |= uint64(data[i+1+j]) << (8*j)]. *)
Definition run_length (data : list byte) (i lenBytes : Z) : Z :=
  fold_left (fun length j => Z.lor length (shl64 (b2z (at_ data (i + 1 + j)))
                                                 (8 * j)))
            (zseq 0 (Z.to_nat lenBytes)) 0.

(** The signed offset of a run.  While the bit operations run, the int64
    is held as its 64-bit pattern; [wrap64s] reads the pattern as the
    signed number. *)
Definition run_offset (data : list byte) (i lenBytes offBytes : Z) : Z :=
  if 0 <? offBytes then
    let offset :=
        fold_left (fun offset j =>
                     Z.lor offset
                           (shl64 (b2z (at_ data (i + 1 + lenBytes + j)))
                                  (8 * j)))
                  (zseq 0 (Z.to_nat offBytes)) 0 in
    let offset :=
        if negb (Z.land (b2z (at_ data (i + lenBytes + offBytes))) 0x80 =? 0)
        then fold_left (fun offset j => Z.lor offset (shl64 0xFF (8 * j)))
                       (zseq offBytes (Z.to_nat (8 - offBytes))) offset
        else offset in
    wrap64s offset
  else 0.

(** The loop [for i := 0; i < len(data);] of [parseDataRuns]. *)
Fixpoint data_runs_loop (fuel : nat) (data : list byte) (i currentLCN : Z)
         (runs : list DataRun) : option (list DataRun) :=
  match fuel with
  | O => None
  | S fuel' =>
    if i <? len data then
      let header := b2z (at_ data i) in
      if header =? 0 then Some runs
      else
        let lenBytes := Z.land header 0x0F in
        let offBytes := Z.shiftr header 4 in
        if i + 1 + lenBytes + offBytes >? len data then Some runs
        else
          let length := run_length data i lenBytes in
          let offset := run_offset data i lenBytes offBytes in
          let currentLCN := wrap64s (currentLCN + offset) in
          data_runs_loop fuel' data (i + 1 + lenBytes + offBytes) currentLCN
                         (runs ++ [{| Offset := currentLCN;
                                      Length := length |}])
    else Some runs
  end.

(** [parseDataRuns(attr)].  The slice [attr] is given by the bytes from
    its start to its capacity ([backing]) and by its length [alen]:
    [attr[32:34]] may reach past the length, up to the capacity. *)
Definition parseDataRuns (fuel : nat) (backing : list byte) (alen : Z)
  : option (outcome (list DataRun)) :=
  if len backing <? 34 then Some Panic
  else
    let dataRunsOff := le16 backing 32 in
    if dataRunsOff >=? alen then Some (Done [])
    else
      match data_runs_loop fuel (slice backing dataRunsOff alen) 0 0 [] with
      | None => None
      | Some runs => Some (Done runs)
      end.

(** *** Attributes *)

(** [decodeUTF16]. *)
Definition decodeUTF16 (b : list byte) : gostring :=
  let b := if negb (Z.rem (len b) 2 =? 0) then slice b 0 (len b - 1) else b in
  string_of_utf16 (map (fun i => le16 b (i * 2))
                       (zseq 0 (Z.to_nat (Z.quot (len b) 2)))).

(** [parseFileNameAttr(attr, file)], with [attr] given as for
    [parseDataRuns].  [66+nameLen*2] is computed in uint8. *)
Definition parseFileNameAttr (backing : list byte) (alen : Z)
           (file : RecoveredFile) : outcome RecoveredFile :=
  if alen <? 24 + 66 then Done file
  else
    let valueOffset := le16 backing 20 in
    if valueOffset + 66 >? alen then Done file
    else
      let fnAttr := skipn (Z.to_nat valueOffset) backing in
      let fnLen := alen - valueOffset in
      let parentRef := Z.land (le64 fnAttr 0) 0x0000FFFFFFFFFFFF in
      let nameLen := b2z (at_ fnAttr 64) in
      let nameType := b2z (at_ fnAttr 65) in
      if (nameType =? 2) && negb (len (Name file) =? 0) then Done file
      else if (66 + nameLen * 2) mod 256 >? fnLen then Done file
      else if 66 + nameLen * 2 >? len fnAttr then Panic
      else
        let nameBytes := slice fnAttr 66 (66 + nameLen * 2) in
        Done {| Name := decodeUTF16 nameBytes;
                Path := Path file;
                MFTIndex := MFTIndex file;
                ParentRef := parentRef;
                Size := Size file;
                IsDirectory := IsDirectory file;
                IsDeleted := IsDeleted file;
                DataRuns := DataRuns file |}.

Definition set_data (file : RecoveredFile) (runs : list DataRun) (size : Z)
  : RecoveredFile :=
  {| Name := Name file; Path := Path file; MFTIndex := MFTIndex file;
     ParentRef := ParentRef file; Size := size;
     IsDirectory := IsDirectory file; IsDeleted := IsDeleted file;
     DataRuns := runs |}.

Definition set_size (file : RecoveredFile) (size : Z) : RecoveredFile :=
  set_data file (DataRuns file) size.

(** The [switch attrType] of the attribute loop, for the attribute of
    length [attrLen] at [offset]. *)
Definition dispatch_attr (fuel : nat) (record : list byte)
           (offset attrType attrLen : Z) (file : RecoveredFile)
  : option (outcome RecoveredFile) :=
  let nonResident := b2z (at_ record (offset + 8)) in
  let backing := skipn (Z.to_nat offset) record in
  if attrType =? AttrFileName then
    if nonResident =? 0 then Some (parseFileNameAttr backing attrLen file)
    else Some (Done file)
  else if attrType =? AttrData then
    if nonResident =? 1 then
      match parseDataRuns fuel backing attrLen with
      | None => None
      | Some Panic => Some Panic
      | Some (Done runs) =>
        if offset + 56 >? len record then Some Panic
        else Some (Done (set_data file runs (le64 record (offset + 48))))
      end
    else if nonResident =? 0 then
      if offset + 20 >? len record then Some Panic
      else Some (Done (set_size file (le32 record (offset + 16))))
    else Some (Done file)
  else Some (Done file).

(** The attribute loop [for offset+16 < len(record)]. *)
Fixpoint attr_loop (fuel : nat) (record : list byte) (offset : Z)
         (file : RecoveredFile) : option (outcome RecoveredFile) :=
  match fuel with
  | O => None
  | S fuel' =>
    if offset + 16 <? len record then
      let attrType := le32 record offset in
      if (attrType =? AttrEnd) || (attrType =? 0) then Some (Done file)
      else
        let attrLen := le32 record (offset + 4) in
        if (attrLen =? 0) || (attrLen >? len record - offset)
        then Some (Done file)
        else
          match dispatch_attr (S (length record)) record offset attrType attrLen
                              file with
          | None => None
          | Some Panic => Some Panic
          | Some (Done file) =>
            attr_loop fuel' record (offset + attrLen) file
          end
    else Some (Done file)
  end.

Definition empty_file (isDeleted isDir : bool) : RecoveredFile :=
  {| Name := []; Path := []; MFTIndex := 0; ParentRef := 0; Size := 0;
     IsDirectory := isDir; IsDeleted := isDeleted; DataRuns := [] |}.

(** [parseAttributes(record)]. *)
Definition parseAttributes (fuel : nat) (record : list byte)
  : option (outcome RecoveredFile) :=
  if len record <? 24 then Some Panic
  else
    let flags := le16 record 22 in
    let isDeleted := Z.land flags 0x01 =? 0 in
    let isDir := negb (Z.land flags 0x02 =? 0) in
    let attrOffset := le16 record 20 in
    attr_loop fuel record attrOffset (empty_file isDeleted isDir).



(** *** RecoverFile *)

(** [min] on uint64. *)
Definition min (a b : Z) : Z := if a <? b then a else b.

(** What [RecoverFile] leaves behind. *)
Inductive recovered :=
| MadeDir
| Wrote (content : list byte) (err : option error).

(** The loop over the clusters of one run; [todo] is [run.Length - c].
    The result is the content, [written], and whether the function
    returns the error. *)
Fixpoint read_run (p : Parser) (size offset : Z) (todo : nat) (c : Z)
         (written : Z) (out : list byte) : list byte * Z * option error :=
  match todo with
  | O => (out, written, None)
  | S todo' =>
    if written <? size then
      let (data, err) :=
          ReadAt (reader p) (clusterSize p)
                 (wrap64s (offset + wrap64s (c * clusterSize p))) in
      match err with
      | Some EOF => (out, written, None)
      | Some e => (out, written, Some e)
      | None =>
        let buf := fill (zeros (clusterSize p)) data in
        let toWrite := min (len buf) (wrapu64 (size - written)) in
        read_run p size offset todo' (c + 1) (wrapu64 (written + toWrite))
                 (out ++ slice buf 0 toWrite)
      end
    else (out, written, None)
  end.

(** The loop over [file.DataRuns].  A sparse buffer of 2^63 bytes or
    more cannot be made. *)
Fixpoint recover_runs (p : Parser) (size : Z) (runs : list DataRun)
         (written : Z) (out : list byte) : outcome recovered :=
  match runs with
  | [] => Done (Wrote out None)
  | run :: rest =>
    if Offset run =? 0 then
      let n := wrapu64 (Length run * clusterSize p) in
      if 2 ^ 63 <=? n then Panic
      else
        let zeros := zeros n in
        let toWrite := min (len zeros) (wrapu64 (size - written)) in
        recover_runs p size rest (wrapu64 (written + toWrite))
                     (out ++ slice zeros 0 toWrite)
    else
      let offset := wrap64s (Offset run * clusterSize p) in
      match read_run p size offset (Z.to_nat (Length run)) 0 written out with
      | (out, written, Some e) => Done (Wrote out (Some e))
      | (out, written, None) => recover_runs p size rest written out
      end
  end.

(** Creating the directories and the output file is taken to succeed,
    and so is every write. *)
Definition RecoverFile (p : Parser) (file : RecoveredFile)
  : outcome recovered :=
  if IsDirectory file then Done MadeDir
  else recover_runs p (Size file) (DataRuns file) 0 [].

End Ntfs.

(* ------------------------------------------------------------------ *)
(** * Properties *)

(** ** Lists, slices and bytes *)

Lemma len_nonneg {A} (l : list A) : 0 <= len l.
Proof. unfold len. lia. Qed.

Lemma len_app {A} (l1 l2 : list A) : len (l1 ++ l2) = len l1 + len l2.
Proof. unfold len. rewrite length_app. lia. Qed.

Lemma len_nil {A} : len (@nil A) = 0.
Proof. reflexivity. Qed.

Lemma len_cons {A} (x : A) (l : list A) : len (x :: l) = 1 + len l.
Proof. unfold len. simpl length. lia. Qed.

Lemma in_zseq (a : Z) (n : nat) (i : Z) :
  In i (zseq a n) <-> a <= i < a + Z.of_nat n.
Proof.
  unfold zseq. rewrite in_map_iff. split.
  - intros (k & <- & Hk). apply in_seq in Hk. lia.
  - intros H. exists (Z.to_nat (i - a)). split; [lia|]. apply in_seq. lia.
Qed.

Lemma zseq_length (a : Z) (n : nat) : length (zseq a n) = n.
Proof. unfold zseq. now rewrite length_map, length_seq. Qed.

Lemma zseq_S (a : Z) (n : nat) : zseq a (S n) = a :: zseq (a + 1) n.
Proof.
  unfold zseq. simpl. f_equal; [lia|].
  rewrite <- seq_shift, map_map. apply map_ext. intros. lia.
Qed.

Lemma zseq_app (a : Z) (n m : nat) :
  zseq a (n + m) = zseq a n ++ zseq (a + Z.of_nat n) m.
Proof.
  revert a. induction n as [|n IH]; intros a.
  - simpl. now rewrite Z.add_0_r.
  - replace (S n + m)%nat with (S (n + m)) by lia.
    rewrite !zseq_S, IH. simpl. do 3 f_equal. lia.
Qed.

Lemma slice_length_le {A} (l : list A) (i j : Z) : len (slice l i j) <= Z.max 0 (j - i).
Proof. unfold slice, len. rewrite length_firstn. lia. Qed.

Lemma slice_length {A} (l : list A) (i j : Z) :
  0 <= i <= j -> j <= len l -> len (slice l i j) = j - i.
Proof.
  unfold slice, len. intros. rewrite length_firstn, length_skipn. lia.
Qed.

Lemma slice_app_l {A} (l1 l2 : list A) (i j : Z) :
  0 <= i -> j <= len l1 -> slice (l1 ++ l2) i j = slice l1 i j.
Proof.
  unfold slice, len. intros Hi Hj.
  rewrite skipn_app, firstn_app, length_skipn.
  replace (Z.to_nat (j - i) - (length l1 - Z.to_nat i))%nat with 0%nat by lia.
  simpl. now rewrite app_nil_r.
Qed.

Lemma slice_all {A} (l : list A) : slice l 0 (len l) = l.
Proof.
  unfold slice, len. simpl. rewrite Z.sub_0_r, Nat2Z.id. apply firstn_all.
Qed.

Lemma b2z_range (b : byte) : 0 <= b2z b < 256.
Proof.
  unfold b2z. pose proof (Byte.to_N_bounded b). lia.
Qed.

Lemma b2z_z2b (z : Z) : 0 <= z < 256 -> b2z (z2b z) = z.
Proof.
  intros H. unfold b2z, z2b. rewrite Z.mod_small by lia.
  destruct (Byte.of_N (Z.to_N z)) eqn:E.
  - apply Byte.to_of_N in E. lia.
  - apply Byte.of_N_None_iff in E. lia.
Qed.

Lemma z2b_b2z (b : byte) : z2b (b2z b) = b.
Proof.
  unfold z2b, b2z. pose proof (Byte.to_N_bounded b).
  rewrite Z.mod_small by lia. rewrite N2Z.id, Byte.of_to_N. reflexivity.
Qed.

Lemma bytes_equal_eq (a b : list byte) : bytes_equal a b = true <-> a = b.
Proof.
  revert b. induction a as [|x a IH]; intros [|y b]; simpl; try easy.
  rewrite andb_true_iff, IH. split.
  - intros [H ->]. apply Byte.byte_dec_bl in H. now subst.
  - intros [= -> ->]. split; [now apply Byte.byte_dec_lb|reflexivity].
Qed.

Lemma fill_length (buf data : list byte) :
  len data <= len buf -> len (Disk.fill buf data) = len buf.
Proof.
  unfold Disk.fill, len. intros H. rewrite length_app, length_skipn. lia.
Qed.

Lemma fill_full (buf data : list byte) :
  len data = len buf -> Disk.fill buf data = data.
Proof.
  unfold Disk.fill, len. intros H.
  rewrite skipn_all2 by lia. apply app_nil_r.
Qed.

Lemma zeros_length (n : Z) : 0 <= n -> len (Disk.zeros n) = n.
Proof. unfold Disk.zeros, len. intros. rewrite repeat_length. lia. Qed.

Lemma wrap64s_small (z : Z) : - 2 ^ 63 <= z < 2 ^ 63 -> wrap64s z = z.
Proof.
  intros H. unfold wrap64s.
  destruct (Z_lt_le_dec z 0).
  - replace (z mod 2 ^ 64) with (z + 2 ^ 64).
    + destruct (Z.ltb_spec (z + 2 ^ 64) (2 ^ 63)); lia.
    + apply Z.mod_unique with (q := -1); lia.
  - rewrite Z.mod_small by lia.
    destruct (Z.ltb_spec z (2 ^ 63)); lia.
Qed.

(* ------------------------------------------------------------------ *)
(** ** The carver: the positions searched in a buffer *)

(** An image of [size] bytes, all 0x11 except for the three bytes
    FF D8 FF (the JPEG header) at offset [k]. *)
Definition jpeg_at (size k : Z) : Disk.image :=
  {| Disk.f_size := size;
     Disk.f_byte := fun i =>
       if i =? k then z2b 0xFF
       else if i =? k + 1 then z2b 0xD8
       else if i =? k + 2 then z2b 0xFF
       else z2b 0x11 |}.

(** The JPEG entry of the table. *)
Definition sig_jpeg : Carver.FileSignature :=
  Carver.sig "JPEG" ".jpg" [0xFF; 0xD8; 0xFF] [0xFF; 0xD9] (50 * Carver.MiB).





(* ------------------------------------------------------------------ *)
(** ** The carver: termination of the scan *)

Lemma scan_advance_pos (n overlap : Z) :
  1 <= n -> 1 <= Carver.scan_advance n overlap <= n \/
            (overlap < 0 /\ Carver.scan_advance n overlap = n - overlap).
Proof.
  intros Hn. unfold Carver.scan_advance.
  destruct (Z.leb_spec (n - overlap) 0); lia.
Qed.

Lemma scan_overlap_cases (b : Z) :
  Carver.scan_overlap b = 0 \/ Carver.scan_overlap b = 1024.
Proof. unfold Carver.scan_overlap. destruct (1024 >? Z.quot b 2); auto. Qed.

Lemma scan_advance_bounds (n b : Z) :
  1 <= n -> 1 <= Carver.scan_advance n (Carver.scan_overlap b) <= n.
Proof.
  intros Hn.
  destruct (scan_advance_pos n (Carver.scan_overlap b) Hn) as [H|[H _]];
    [exact H|].
  destruct (scan_overlap_cases b); lia.
Qed.

Lemma scan_bufSize_bounds (r : Disk.Reader) (sigs : list Carver.FileSignature) :
  128 <= Carver.scan_bufSize (Carver.SetSignatures (Carver.NewCarver r) sigs)
      <= 1024 * 1024.
Proof.
  unfold Carver.scan_bufSize. simpl.
  destruct (Z.ltb_spec (Disk.Size r) 1048576);
    match goal with |- context [?a <? 128] => destruct (Z.ltb_spec a 128) end;
    lia.
Qed.

(** The scan loop returns once the fuel exceeds the distance of the cursor
    from the end of the device. *)
Lemma scan_loop_returns (c : Carver.Carver) (overlap_of : Z) :
  Disk.reader_ok (Carver.reader c) ->
  Disk.Size (Carver.reader c) + 1024 * 1024 < 2 ^ 63 ->
  forall fuel buf offset files,
    len buf <= 1024 * 1024 ->
    0 <= offset ->
    (Z.to_nat (Disk.Size (Carver.reader c) - offset) < fuel)%nat ->
    exists res,
      Carver.scan_loop c (Carver.scan_overlap overlap_of) fuel buf offset files
      = Some res.
Proof.
  intros Hok Hsz. induction fuel as [|fuel IH]; intros buf offset files Hb Ho Hf.
  - lia.
  - simpl.
    destruct (Z.ltb_spec offset (Disk.Size (Carver.reader c))) as [Hlt|Hge];
      [|eauto].
    pose proof (Hok (len buf) offset (len_nonneg buf)) as Hn.
    destruct (Disk.ReadAt (Carver.reader c) (len buf) offset) as [data err].
    simpl in Hn.
    assert (Hcont :
      exists res,
        (if len data =? 0 then Some (inl files)
         else Carver.scan_loop c (Carver.scan_overlap overlap_of) fuel
                (Disk.fill buf data)
                (wrap64s (offset
                          + Carver.scan_advance (len data)
                              (Carver.scan_overlap overlap_of)))
                (files ++ Carver.buffer_hits (Carver.signatures c)
                            (Disk.fill buf data) (len data) offset))
        = Some res).
    { destruct (Z.eqb_spec (len data) 0) as [|Hnz]; [eauto|].
      pose proof (len_nonneg data).
      pose proof (scan_advance_bounds (len data) overlap_of ltac:(lia)) as Ha.
      rewrite wrap64s_small by lia.
      apply IH.
      - rewrite fill_length; lia.
      - lia.
      - lia. }
    destruct err as [[|]|]; eauto.
Qed.

(** C6: the scan loop terminates.  For every reader that keeps the
    [io.ReaderAt] promise (it never reports more bytes than the buffer
    holds) on a device whose size leaves room for one buffer below 2^63:
    a read of [n >= 1] bytes advances the cursor by at least one byte and
    to a strictly larger offset, and the scan returns (its hits or the
    read error) as soon as the fuel exceeds the device size. *)
Theorem carver_scan_terminates (r : Disk.Reader)
        (sigs : list Carver.FileSignature) (fuel : nat) :
  let c := Carver.SetSignatures (Carver.NewCarver r) sigs in
  Disk.reader_ok r ->
  Disk.Size r + 1024 * 1024 < 2 ^ 63 ->
  (Z.to_nat (Disk.Size r) < fuel)%nat ->
  (forall n offset,
      1 <= n <= Carver.scan_bufSize c -> 0 <= offset < Disk.Size r ->
      let advance :=
          Carver.scan_advance n (Carver.scan_overlap (Carver.scan_bufSize c)) in
      1 <= advance /\ offset < wrap64s (offset + advance))
  /\ exists res, Carver.Scan c fuel = Some res.
Proof.
  intros c Hok Hsz Hf. split.
  - intros n offset Hn Ho advance. subst advance.
    pose proof (scan_bufSize_bounds r sigs).
    pose proof (scan_advance_bounds n (Carver.scan_bufSize c) ltac:(lia)).
    fold c in H. rewrite wrap64s_small by lia. lia.
  - unfold Carver.Scan. apply scan_loop_returns; simpl; try assumption.
    + pose proof (scan_bufSize_bounds r sigs). fold c in H.
      rewrite zeros_length; lia.
    + lia.
    + rewrite Z.sub_0_r. exact Hf.
Qed.

Lemma file_reader_ok (im : Disk.image) : Disk.reader_ok (Disk.Open im).
Proof.
  intros l off Hl. simpl. unfold Disk.file_ReadAt.
  destruct (off <? 0); [simpl; exact Hl|].
  destruct (Z.leb_spec l 0); [simpl; exact Hl|].
  destruct (Z.leb_spec (Disk.f_size im) off); [simpl; exact Hl|].
  destruct (Z.ltb_spec (Disk.f_size im - off) l); simpl;
    unfold Disk.bytes_at, len; rewrite length_map, zseq_length; lia.
Qed.

Lemma carver_scan_terminates_witness :
  exists res,
    Carver.Scan (Carver.SetSignatures
                   (Carver.NewCarver (Disk.Open (jpeg_at 10 0)))
                   Carver.Signatures) 11 = Some res.
Proof.
  apply (carver_scan_terminates (Disk.Open (jpeg_at 10 0))
                                Carver.Signatures 11).
  - apply file_reader_ok.
  - simpl. lia.
  - simpl. lia.
Defined.

(* ------------------------------------------------------------------ *)
(** ** The carver: the extraction bound *)

Lemma has_prefix_length (s sep : list byte) :
  has_prefix s sep = true -> len sep <= len s.
Proof.
  revert s. induction sep as [|y sep IH]; intros s H.
  - rewrite len_nil. apply len_nonneg.
  - destruct s as [|x s]; simpl in H; [discriminate|].
    apply andb_true_iff in H. destruct H as [_ H].
    rewrite !len_cons. specialize (IH s H). lia.
Qed.

Lemma bytes_Index_from_bound (s sep : list byte) (pos : Z) :
  bytes_Index_from s sep pos = -1
  \/ (pos <= bytes_Index_from s sep pos
      /\ bytes_Index_from s sep pos + len sep <= pos + len s).
Proof.
  revert pos. induction s as [|x s IH]; intros pos.
  - unfold bytes_Index_from.
    destruct (has_prefix [] sep) eqn:E; [right|left; reflexivity].
    apply has_prefix_length in E. lia.
  - change (bytes_Index_from (x :: s) sep pos)
      with (if has_prefix (x :: s) sep then pos
            else bytes_Index_from s sep (pos + 1)).
    destruct (has_prefix (x :: s) sep) eqn:E.
    + right. apply has_prefix_length in E. lia.
    + destruct (IH (pos + 1)) as [H|H]; [left; exact H|right].
      rewrite len_cons. lia.
Qed.

Lemma bytes_Index_bound (s sep : list byte) :
  0 <= bytes_Index s sep -> bytes_Index s sep + len sep <= len s.
Proof.
  unfold bytes_Index. intros H.
  destruct (bytes_Index_from_bound s sep 0) as [E|E]; lia.
Qed.

(** The extraction loop returns, and stays within the budget: it never
    adds more than [maxSize - written] bytes to the output. *)
Lemma recover_loop_bounded (r : Disk.Reader) (footer : list byte)
      (maxSize : Z) :
  Disk.reader_ok r ->
  forall fuel buf written offset out,
    0 <= written ->
    (Z.to_nat (maxSize - written) < fuel)%nat ->
    exists out',
      Carver.recover_loop r footer maxSize fuel buf written offset out
      = Some out'
      /\ len out' <= len out + Z.max 0 (maxSize - written).
Proof.
  intros Hok. induction fuel as [|fuel IH]; intros buf written offset out Hw Hf.
  - lia.
  - simpl.
    destruct (Z.ltb_spec written maxSize) as [Hlt|Hge];
      [|exists out; split; [reflexivity|lia]].
    set (toRead := Z.min (len buf) (maxSize - written)).
    assert (0 <= toRead) by (subst toRead; pose proof (len_nonneg buf); lia).
    pose proof (Hok toRead offset H) as Hn.
    destruct (Disk.ReadAt r toRead offset) as [data err]. simpl in Hn.
    assert (Hcont :
      exists out',
        (if len data =? 0 then Some out
         else
           if 0 <=? (if 0 <? len footer
                     then bytes_Index (slice (Disk.fill buf data) 0 (len data))
                                      footer
                     else -1)
           then Some (out ++ slice (Disk.fill buf data) 0
                        ((if 0 <? len footer
                          then bytes_Index
                                 (slice (Disk.fill buf data) 0 (len data))
                                 footer
                          else -1) + len footer))
           else Carver.recover_loop r footer maxSize fuel (Disk.fill buf data)
                  (written + len data) (wrap64s (offset + len data))
                  (out ++ slice (Disk.fill buf data) 0 (len data)))
        = Some out'
        /\ len out' <= len out + Z.max 0 (maxSize - written)).
    { pose proof (len_nonneg data).
      destruct (Z.eqb_spec (len data) 0) as [|Hnz];
        [exists out; split; [reflexivity|lia]|].
      set (idx := if 0 <? len footer
                  then bytes_Index (slice (Disk.fill buf data) 0 (len data))
                                   footer
                  else -1).
      destruct (Z.leb_spec 0 idx) as [Hidx|Hidx].
      - eexists; split; [reflexivity|].
        rewrite len_app.
        pose proof (slice_length_le (Disk.fill buf data) 0 (idx + len footer)).
        assert (idx + len footer <= len data).
        { subst idx. destruct (0 <? len footer); [|lia].
          pose proof (bytes_Index_bound _ footer Hidx) as Hb.
          pose proof (slice_length_le (Disk.fill buf data) 0 (len data)).
          lia. }
        subst toRead. lia.
      - destruct (IH (Disk.fill buf data) (written + len data)
                     (wrap64s (offset + len data))
                     (out ++ slice (Disk.fill buf data) 0 (len data)))
          as (out' & E & Hlen); [lia|subst toRead; lia|].
        exists out'. split; [exact E|].
        rewrite len_app in Hlen.
        pose proof (slice_length_le (Disk.fill buf data) 0 (len data)).
        subst toRead. lia. }
    destruct err as [[|]|]; try exact Hcont.
    exists out. split; [reflexivity|lia].
Qed.

(** C10: for every hit whose signature has a non-negative [MaxSize], read
    through a reader that keeps the [io.ReaderAt] promise, the extraction
    returns and the output file holds at most [MaxSize] bytes, 10 MiB
    standing for a [MaxSize] of 0; this covers the write that ends at a
    footer. *)
Theorem carver_recover_bounded (c : Carver.Carver) (file : Carver.CarvedFile)
        (fuel : nat) :
  Disk.reader_ok (Carver.reader c) ->
  0 <= Carver.MaxSize (Carver.Signature file) ->
  (Z.to_nat (Carver.recover_maxSize file) < fuel)%nat ->
  exists out,
    Carver.RecoverFile c file fuel = Some out
    /\ len out <= (if Carver.MaxSize (Carver.Signature file) =? 0
                   then 10 * 1024 * 1024
                   else Carver.MaxSize (Carver.Signature file)).
Proof.
  intros Hok Hmax Hf. unfold Carver.RecoverFile.
  destruct (recover_loop_bounded (Carver.reader c)
              (Carver.Footer (Carver.Signature file))
              (Carver.recover_maxSize file) Hok fuel
              (Disk.zeros (64 * 1024)) 0 (Carver.Offset file) [])
    as (out & E & Hlen); [lia|rewrite Z.sub_0_r; exact Hf|].
  exists out. split; [exact E|].
  rewrite len_nil, Z.sub_0_r in Hlen. unfold Carver.recover_maxSize in Hlen.
  destruct (Carver.MaxSize (Carver.Signature file) =? 0); lia.
Qed.

(** A signature with a two-byte footer and a budget of 100 bytes. *)
Definition sig_small : Carver.FileSignature :=
  Carver.sig "JPEG" ".jpg" [0xFF; 0xD8; 0xFF] [0xFF; 0xD9] 100.

Lemma carver_recover_bounded_witness :
  exists out,
    Carver.RecoverFile (Carver.NewCarver (Disk.Open (jpeg_at 4096 0)))
      {| Carver.Signature := sig_small; Carver.Offset := 0;
         Carver.Size := 100 |} 101 = Some out
    /\ len out <= 100.
Proof.
  apply (carver_recover_bounded
           (Carver.NewCarver (Disk.Open (jpeg_at 4096 0)))
           {| Carver.Signature := sig_small; Carver.Offset := 0;
              Carver.Size := 100 |} 101).
  - apply file_reader_ok.
  - simpl. lia.
  - simpl. lia.
Defined.

(* ------------------------------------------------------------------ *)
(** ** FAT32: the boot sector *)

(** An image of [size] zero bytes. *)
Definition zero_image (size : Z) : Disk.image :=
  {| Disk.f_size := size; Disk.f_byte := fun _ => Byte.x00 |}.

Lemma bytes_at_length (f : Z -> byte) (off : Z) (n : nat) :
  length (Disk.bytes_at f off n) = n.
Proof.
  unfold Disk.bytes_at. now rewrite length_map, zseq_length.
Qed.

Lemma at_bytes_at (f : Z -> byte) (off i : Z) (n : nat) :
  0 <= i < Z.of_nat n ->
  at_ (Disk.bytes_at f off n) i = f (off + i).
Proof.
  intros H. unfold at_, Disk.bytes_at, zseq.
  rewrite map_map.
  rewrite nth_indep with (d' := f (off + Z.of_nat (length (seq 0 n))))
    by (rewrite length_map, length_seq; lia).
  rewrite (map_nth (fun k => f (off + Z.of_nat k)) (seq 0 n) (length (seq 0 n))).
  rewrite seq_nth by lia. simpl. f_equal. lia.
Qed.

(** A read of [l] bytes that lies inside the image fills the whole
    buffer. *)
Lemma file_ReadAt_inside (im : Disk.image) (l off : Z) :
  0 <= off -> 0 < l -> off + l <= Disk.f_size im ->
  Disk.file_ReadAt im l off
  = (Disk.bytes_at (Disk.f_byte im) off (Z.to_nat l), None).
Proof.
  intros Ho Hl Hs. unfold Disk.file_ReadAt.
  destruct (Z.ltb_spec off 0); [lia|].
  destruct (Z.leb_spec l 0); [lia|].
  destruct (Z.leb_spec (Disk.f_size im) off); [lia|].
  destruct (Z.ltb_spec (Disk.f_size im - off) l); [lia|reflexivity].
Qed.

Lemma fill_whole (buf data : list byte) :
  length buf = length data -> Disk.fill buf data = data.
Proof.
  intros H. unfold Disk.fill. rewrite <- H, skipn_all. apply app_nil_r.
Qed.

(** C2, as the code has it: the boot-sector parser validates nothing.  On
    every image of at least 512 bytes [NewParser] returns a parser, whose
    cluster size is the product of the two fields as they stand in the
    image, zero included; the constructor fails only when the 512-byte read
    itself fails, and then with the wrapped read error. *)
Theorem fat32_boot_unvalidated (r : Disk.Reader) :
  (forall e, snd (Disk.ReadAt r 512 0) = Some e ->
             Fat32.NewParser r = inr (Fat32.FailedToReadBootSector e))
  /\ (snd (Disk.ReadAt r 512 0) = None ->
      exists p, Fat32.NewParser r = inl p
                /\ Fat32.clusterSz p
                   = Fat32.SectorsPerCluster (Fat32.bootSector p)
                     * Fat32.BytesPerSector (Fat32.bootSector p))
  /\ (forall im, r = Disk.Open im -> 512 <= Disk.f_size im ->
      exists p, Fat32.NewParser r = inl p
                /\ Fat32.BytesPerSector (Fat32.bootSector p)
                   = Z.lor (b2z (Disk.f_byte im 11))
                           (Z.shiftl (b2z (Disk.f_byte im 12)) 8)
                /\ Fat32.SectorsPerCluster (Fat32.bootSector p)
                   = b2z (Disk.f_byte im 13)).
Proof.
  unfold Fat32.NewParser, Fat32.readBootSector. repeat split.
  - intros e He. destruct (Disk.ReadAt r 512 0) as [data err].
    simpl in He. now subst err.
  - intros He. destruct (Disk.ReadAt r 512 0) as [data err].
    simpl in He. subst err. eexists. split; reflexivity.
  - intros im -> Hs. simpl Disk.ReadAt.
    rewrite file_ReadAt_inside by lia.
    rewrite fill_whole
      by (unfold Disk.zeros; now rewrite repeat_length, bytes_at_length).
    eexists. split; [reflexivity|]. cbn [Fat32.BytesPerSector
      Fat32.SectorsPerCluster Fat32.bootSector].
    unfold le16. rewrite !at_bytes_at by (simpl; lia). now simpl.
Qed.

Lemma fat32_boot_unvalidated_witness :
  exists p, Fat32.NewParser (Disk.Open (zero_image 512)) = inl p
            /\ Fat32.clusterSz p
               = Fat32.SectorsPerCluster (Fat32.bootSector p)
                 * Fat32.BytesPerSector (Fat32.bootSector p).
Proof.
  apply (fat32_boot_unvalidated (Disk.Open (zero_image 512))).
  reflexivity.
Defined.

(** C2, the counterexample: on an image whose boot sector is all zeros,
    both fields are zero and the constructor still returns a parser, with a
    cluster size of zero. *)
Lemma fat32_boot_unvalidated_counterexample :
  exists p,
    Fat32.NewParser (Disk.Open (zero_image 512)) = inl p
    /\ Fat32.BytesPerSector (Fat32.bootSector p) = 0
    /\ Fat32.SectorsPerCluster (Fat32.bootSector p) = 0
    /\ Fat32.clusterSz p = 0.
Proof.
  eexists. split; [reflexivity|]. repeat split.
Qed.

(* ------------------------------------------------------------------ *)
(** ** FAT32: contiguous extraction *)

(** An 8 GiB volume with 512-byte sectors and 8 sectors per cluster, no
    reserved sectors and no FAT, so that the data area starts at offset 0;
    the other bytes follow a pattern of period 251. *)
Definition big_volume : Disk.image :=
  {| Disk.f_size := 8 * 1024 * 1024 * 1024;
     Disk.f_byte := fun i =>
       if i =? 11 then z2b 0
       else if i =? 12 then z2b 2
       else if i =? 13 then z2b 8
       else if i <? 64 then z2b 0
       else z2b (i mod 251) |}.

(** A deleted file of 4 GiB - 1 bytes that starts at cluster 2. *)
Definition big_file : Fat32.RecoveredFile :=
  {| Fat32.Name := []; Fat32.LongName := []; Fat32.Path := [];
     Fat32.FirstCluster := 2; Fat32.Size := 0xFFFFFFFF;
     Fat32.IsDirectory := false; Fat32.IsDeleted := true |}.

(** The parser [NewParser] builds on that volume. *)
Definition big_parser : Fat32.Parser :=
  {| Fat32.reader := Disk.Open big_volume;
     Fat32.bootSector :=
       {| Fat32.BytesPerSector := 512; Fat32.SectorsPerCluster := 8;
          Fat32.ReservedSectors := 0; Fat32.NumFATs := 0;
          Fat32.TotalSectors32 := 0; Fat32.FATSize32 := 0;
          Fat32.RootCluster := 0 |};
     Fat32.fatStart := 0; Fat32.dataStart := 0; Fat32.clusterSz := 4096;
     Fat32.fatTable := [] |}.

(** C7, the failing input: with a declared size of 4294967295 bytes and
    4096-byte clusters the sum [Size + clusterSz - 1] wraps around in
    uint32, the estimate of the clusters needed becomes 1, and the
    extraction writes the first cluster only, 4096 bytes, although every
    read succeeds and the volume holds all the bytes of the file. *)
Theorem fat32_recover_size_overflow :
  Fat32.NewParser (Disk.Open big_volume) = inl big_parser
  /\ Fat32.clusterToOffset big_parser 2 = 0
  /\ Fat32.clustersNeeded big_parser (Fat32.Size big_file) = 1
  /\ Fat32.RecoverFile big_parser big_file
     = Done (Fat32.Wrote (Disk.bytes_at (Disk.f_byte big_volume) 0 4096)
                         None)
  /\ len (Disk.bytes_at (Disk.f_byte big_volume) 0 4096)
     < Fat32.Size big_file.
Proof.
  split; [reflexivity|].
  split; [vm_compute; reflexivity|].
  split; [vm_compute; reflexivity|].
  split; vm_compute; reflexivity.
Qed.

(* ------------------------------------------------------------------ *)
(** ** NTFS: a sparse run *)

(** A volume of 104 clusters of 4096 bytes; every byte of cluster [n]
    holds the number [n]. *)
Definition numbered_volume : Disk.image :=
  {| Disk.f_size := 104 * 4096;
     Disk.f_byte := fun i => z2b (i / 4096) |}.

Definition numbered_parser : Ntfs.Parser :=
  {| Ntfs.reader := Disk.Open numbered_volume;
     Ntfs.bootSector :=
       {| Ntfs.BytesPerSector := 512; Ntfs.SectorsPerCluster := 8;
          Ntfs.MFTCluster := 4; Ntfs.ClustersPerMFTRec := -10 |};
     Ntfs.mftStart := 4 * 4096; Ntfs.clusterSize := 4096;
     Ntfs.mftRecSize := 1024; Ntfs.mftRecords := [] |}.

(** A non-resident $DATA attribute of 73 bytes: the run list starts at
    offset 64 and encodes the runs (100,1), (0,2), (3,1), the second one
    with no offset byte. *)
Definition sparse_attr : list byte :=
  map z2b ([0x80; 0; 0; 0; 73; 0; 0; 0; 1; 0; 0; 0; 0; 0; 0; 0]
           ++ repeat 0 16
           ++ [64; 0] ++ repeat 0 30
           ++ [0x11; 1; 100; 0x01; 2; 0x11; 1; 3; 0]).

Definition sparse_file (runs : list Ntfs.DataRun) : Ntfs.RecoveredFile :=
  {| Ntfs.Name := []; Ntfs.Path := []; Ntfs.MFTIndex := 30;
     Ntfs.ParentRef := 5; Ntfs.Size := 16384;
     Ntfs.IsDirectory := false; Ntfs.IsDeleted := true;
     Ntfs.DataRuns := runs |}.

Definition cluster_of (n : Z) : list byte := repeat (z2b n) 4096.

(** What the decoder makes of that run list. *)
Definition sparse_runs : list Ntfs.DataRun :=
  [ {| Ntfs.Offset := 100; Ntfs.Length := 1 |};
    {| Ntfs.Offset := 100; Ntfs.Length := 2 |};
    {| Ntfs.Offset := 103; Ntfs.Length := 1 |} ].

(** C1, the failing input: the run list (100,1), (0,2), (3,1) decodes to
    the absolute clusters 100, 100 and 103, the extraction tests the
    absolute cluster against 0 and not the encoded delta, and so the
    second run is read from clusters 100 and 101: bytes 4096..12288 of the
    output are those two clusters and not zeros. *)
Theorem ntfs_sparse_run_not_zeroed :
  Ntfs.parseDataRuns 10 sparse_attr 73 = Some (Done sparse_runs)
  /\ exists content,
       Ntfs.RecoverFile numbered_parser (sparse_file sparse_runs)
       = Done (Ntfs.Wrote content None)
       /\ slice content 0 4096 = cluster_of 100
       /\ slice content 4096 12288 = cluster_of 100 ++ cluster_of 101
       /\ slice content 4096 12288 <> Disk.zeros 8192
       /\ slice content 12288 16384 = cluster_of 103.
Proof.
  split; [vm_compute; reflexivity|].
  exists (cluster_of 100 ++ cluster_of 100 ++ cluster_of 101
          ++ cluster_of 103).
  split; [vm_compute; reflexivity|].
  split; [vm_compute; reflexivity|].
  split; [vm_compute; reflexivity|].
  split; [|vm_compute; reflexivity].
  intros H.
  assert (H0 : at_ (slice (cluster_of 100 ++ cluster_of 100 ++ cluster_of 101
                           ++ cluster_of 103) 4096 12288) 0
               = at_ (Disk.zeros 8192) 0) by now rewrite H.
  vm_compute in H0. discriminate H0.
Qed.

(* ------------------------------------------------------------------ *)
(** ** NTFS: the parsing loops and their traces *)

Lemma b2z_nonneg (b : byte) : 0 <= b2z b.
Proof. pose proof (b2z_range b). lia. Qed.

Lemma le16_nonneg (b : list byte) (off : Z) : 0 <= le16 b off.
Proof.
  unfold le16. apply Z.lor_nonneg. split; [apply b2z_nonneg|].
  apply Z.shiftl_nonneg, b2z_nonneg.
Qed.

Lemma le32_nonneg (b : list byte) (off : Z) : 0 <= le32 b off.
Proof.
  unfold le32.
  repeat (apply Z.lor_nonneg; split);
    try apply b2z_nonneg; apply Z.shiftl_nonneg, b2z_nonneg.
Qed.




Lemma header_fields_range (h : byte) :
  0 <= Z.land (b2z h) 0x0F <= 15 /\ 0 <= Z.shiftr (b2z h) 4 <= 15.
Proof.
  destruct h; vm_compute; intuition discriminate.
Qed.

(** The run loop returns when the fuel exceeds the bytes that are left. *)
Lemma data_runs_loop_returns (data : list byte) :
  forall fuel i lcn runs,
    0 <= i -> (Z.to_nat (len data - i) < fuel)%nat ->
    exists res, Ntfs.data_runs_loop fuel data i lcn runs = Some res.
Proof.
  induction fuel as [|fuel IH]; intros i lcn runs Hi Hf; [lia|]. simpl.
  destruct (Z.ltb_spec i (len data)); [|eexists; reflexivity].
  destruct (b2z (at_ data i) =? 0); [eexists; reflexivity|].
  destruct (header_fields_range (at_ data i)) as [Hl Ho].
  destruct (Z.gtb_spec (i + 1 + Z.land (b2z (at_ data i)) 15
                        + Z.shiftr (b2z (at_ data i)) 4) (len data));
    [eexists; reflexivity|].
  apply IH; lia.
Qed.




Lemma slice_length_bound {A} (l : list A) (i j : Z) :
  len (slice l i j) <= len l.
Proof.
  unfold slice, len. apply inj_le.
  rewrite length_firstn, length_skipn. lia.
Qed.

(** The dispatch of one attribute returns: the run loop inside it gets
    more fuel than the record has bytes. *)
Lemma dispatch_attr_returns (record : list byte) (offset attrType attrLen : Z)
      (file : Ntfs.RecoveredFile) :
  exists res,
    Ntfs.dispatch_attr (S (length record)) record offset attrType attrLen file
    = Some res.
Proof.
  unfold Ntfs.dispatch_attr.
  destruct (attrType =? Ntfs.AttrFileName);
    [destruct (_ =? 0); eexists; reflexivity|].
  destruct (attrType =? Ntfs.AttrData); [|eexists; reflexivity].
  destruct (_ =? 1).
  - unfold Ntfs.parseDataRuns.
    destruct (_ <? 34); [eexists; reflexivity|].
    destruct (_ >=? attrLen).
    + destruct (_ >? len record); eexists; reflexivity.
    + set (data := slice _ _ attrLen).
      destruct (data_runs_loop_returns data (S (length record)) 0 0 [])
        as [runs E]; [lia| |].
      * subst data.
        pose proof (slice_length_bound (skipn (Z.to_nat offset) record)
                      (le16 (skipn (Z.to_nat offset) record) 32) attrLen).
        unfold len in *. rewrite length_skipn in H. lia.
      * rewrite E. destruct (_ >? len record); eexists; reflexivity.
  - destruct (_ =? 0); [|eexists; reflexivity].
    destruct (_ >? len record); eexists; reflexivity.
Qed.

(** The attribute loop returns when the fuel exceeds the bytes of the
    record that are left. *)
Lemma attr_loop_returns (record : list byte) :
  forall fuel offset file,
    0 <= offset -> (Z.to_nat (len record - offset) < fuel)%nat ->
    exists res, Ntfs.attr_loop fuel record offset file = Some res.
Proof.
  induction fuel as [|fuel IH]; intros offset file Ho Hf; [lia|]. simpl.
  destruct (Z.ltb_spec (offset + 16) (len record)); [|eexists; reflexivity].
  destruct (_ || _); [eexists; reflexivity|].
  destruct (Z.eqb_spec (le32 record (offset + 4)) 0);
    [eexists; reflexivity|].
  destruct (Z.gtb_spec (le32 record (offset + 4)) (len record - offset));
    [eexists; reflexivity|]. simpl.
  destruct (dispatch_attr_returns record offset (le32 record offset)
              (le32 record (offset + 4)) file) as [[file'|] E]; rewrite E;
    [|eexists; reflexivity].
  pose proof (le32_nonneg record (offset + 4)).
  apply IH; lia.
Qed.




(* ------------------------------------------------------------------ *)
(** ** NTFS: decoding a run list *)

(** The value of little-endian bytes, unsigned. *)
Fixpoint le_unsigned (bs : list byte) : Z :=
  match bs with
  | [] => 0
  | b :: bs' => b2z b + 256 * le_unsigned bs'
  end.

(** The value of little-endian bytes, sign-extended from the top bit of
    the last byte; no byte at all stands for 0. *)
Definition le_signed (bs : list byte) : Z :=
  match bs with
  | [] => 0
  | _ => if 128 <=? b2z (last bs Byte.x00)
         then le_unsigned bs - 2 ^ (8 * len bs)
         else le_unsigned bs
  end.

(** One run as the run list has it: its length bytes and offset bytes. *)
Record enc_run := {
  len_bytes : list byte;
  off_bytes : list byte
}.

Definition run_header (r : enc_run) : Z :=
  len (len_bytes r) + 16 * len (off_bytes r).

Definition encode_run (r : enc_run) : list byte :=
  z2b (run_header r) :: len_bytes r ++ off_bytes r.

(** A run list: the runs, then the 0x00 header. *)
Definition encode_runs (rs : list enc_run) : list byte :=
  flat_map encode_run rs ++ [Byte.x00].

(** Field widths of a run that encodes 64-bit quantities, with a header
    byte other than the terminator. *)
Definition well_formed_run (r : enc_run) : Prop :=
  len (len_bytes r) <= 8 /\ len (off_bytes r) <= 8 /\ 0 < run_header r.

(** The runs of the claim: lengths [L_i], clusters the running sums of
    the deltas, from [lcn]. *)
Fixpoint running_sums (lcn : Z) (rs : list enc_run) : list Ntfs.DataRun :=
  match rs with
  | [] => []
  | r :: rs' =>
    let lcn' := lcn + le_signed (off_bytes r) in
    {| Ntfs.Offset := lcn'; Ntfs.Length := le_unsigned (len_bytes r) |}
      :: running_sums lcn' rs'
  end.

(** Every cluster number of [running_sums] is an int64. *)
Fixpoint sums_in_range (lcn : Z) (rs : list enc_run) : Prop :=
  match rs with
  | [] => True
  | r :: rs' =>
    - 2 ^ 63 <= lcn + le_signed (off_bytes r) < 2 ^ 63
    /\ sums_in_range (lcn + le_signed (off_bytes r)) rs'
  end.

Lemma le_unsigned_range (bs : list byte) :
  0 <= le_unsigned bs < 2 ^ (8 * len bs).
Proof.
  induction bs as [|b bs IH].
  - vm_compute. split; [discriminate|reflexivity].
  - cbn [le_unsigned]. rewrite len_cons.
    replace (8 * (1 + len bs)) with (8 + 8 * len bs) by lia.
    pose proof (len_nonneg bs). rewrite Z.pow_add_r by lia.
    pose proof (b2z_range b). change (2 ^ 8) with 256. lia.
Qed.

Lemma land_shiftl_low (a b n : Z) :
  0 <= n -> 0 <= a < 2 ^ n -> Z.land a (Z.shiftl b n) = 0.
Proof.
  intros Hn Ha. apply Z.bits_inj'. intros i Hi.
  rewrite Z.land_spec, Z.bits_0.
  destruct (Z.ltb_spec i n).
  - rewrite Z.shiftl_spec_low by lia. apply andb_false_r.
  - replace (Z.testbit a i) with false; [reflexivity|].
    symmetry. destruct (Z.eq_dec a 0) as [->|]; [apply Z.bits_0|].
    apply Z.bits_above_log2; [lia|].
    apply Z.log2_lt_pow2; [lia|].
    apply Z.lt_le_trans with (2 ^ n); [lia|].
    apply Z.pow_le_mono_r; lia.
Qed.

Lemma lor_shiftl_add (a b n : Z) :
  0 <= n -> 0 <= a < 2 ^ n -> Z.lor a (Z.shiftl b n) = a + b * 2 ^ n.
Proof.
  intros Hn Ha.
  pose proof (Z.add_lor_land a (Z.shiftl b n)) as H.
  rewrite land_shiftl_low in H by assumption.
  rewrite <- Z.shiftl_mul_pow2 by lia. lia.
Qed.

(** Shifting a byte into one of the eight byte positions of a 64-bit
    word loses nothing. *)
Lemma shl64_byte (v j : Z) :
  0 <= v < 256 -> 0 <= j < 8 -> Ntfs.shl64 v (8 * j) = Z.shiftl v (8 * j).
Proof.
  intros Hv Hj. unfold Ntfs.shl64. apply Z.mod_small.
  rewrite Z.shiftl_mul_pow2 by lia. split; [nia|].
  apply Z.lt_le_trans with (2 ^ 8 * 2 ^ (8 * j)).
  - apply Z.mul_lt_mono_pos_r; [apply Z.pow_pos_nonneg|]; lia.
  - rewrite <- Z.pow_add_r by lia. apply Z.pow_le_mono_r; lia.
Qed.

(** The accumulation loops of the decoder, over the bytes [g j]. *)
Lemma fold_le_bytes (g : Z -> byte) :
  forall (bs : list byte) (k acc : Z),
    0 <= k -> k + len bs <= 8 -> 0 <= acc < 2 ^ (8 * k) ->
    (forall j, 0 <= j < len bs -> g (k + j) = at_ bs j) ->
    fold_left (fun a j => Z.lor a (Ntfs.shl64 (b2z (g j)) (8 * j)))
              (zseq k (length bs)) acc
    = acc + 2 ^ (8 * k) * le_unsigned bs.
Proof.
  induction bs as [|b bs IH]; intros k acc Hk Hl Ha Hg.
  - simpl. lia.
  - rewrite len_cons in Hl. pose proof (len_nonneg bs).
    cbn [length]. rewrite zseq_S. cbn [fold_left le_unsigned].
    assert (Hb : g k = b).
    { specialize (Hg 0). rewrite Z.add_0_r in Hg. rewrite Hg; [reflexivity|].
      rewrite len_cons. lia. }
    rewrite Hb, shl64_byte by (try apply b2z_range; lia).
    rewrite lor_shiftl_add by (try assumption; lia).
    pose proof (b2z_range b).
    rewrite IH.
    + replace (8 * (k + 1)) with (8 * k + 8) by lia.
      rewrite Z.pow_add_r by lia. change (2 ^ 8) with 256. ring.
    + lia.
    + lia.
    + replace (8 * (k + 1)) with (8 * k + 8) by lia.
      rewrite Z.pow_add_r by lia. change (2 ^ 8) with 256. nia.
    + intros j Hj. replace (k + 1 + j) with (k + (j + 1)) by lia.
      rewrite Hg by (rewrite len_cons; lia).
      unfold at_. replace (Z.to_nat (j + 1)) with (S (Z.to_nat j)) by lia.
      reflexivity.
Qed.

(** The sign-extension loop sets all the bits from [8*k] up. *)
Lemma fold_sign_extend :
  forall (m : nat) (k acc : Z),
    0 <= k -> k + Z.of_nat m = 8 -> 0 <= acc < 2 ^ (8 * k) ->
    fold_left (fun a j => Z.lor a (Ntfs.shl64 0xFF (8 * j))) (zseq k m) acc
    = acc + 2 ^ 64 - 2 ^ (8 * k).
Proof.
  induction m as [|m IH]; intros k acc Hk Hm Ha.
  - simpl. replace k with 8 by lia. simpl. lia.
  - rewrite zseq_S. cbn [fold_left].
    rewrite shl64_byte by lia.
    rewrite lor_shiftl_add by (try assumption; lia).
    assert (E : 2 ^ (8 * (k + 1)) = 256 * 2 ^ (8 * k)).
    { replace (8 * (k + 1)) with (8 + 8 * k) by lia.
      now rewrite Z.pow_add_r by lia. }
    rewrite IH; lia.
Qed.

Lemma at_app_r (pre l : list byte) (j : Z) :
  0 <= j -> at_ (pre ++ l) (len pre + j) = at_ l j.
Proof.
  intros Hj. unfold at_, len.
  replace (Z.to_nat (Z.of_nat (length pre) + j))
    with (length pre + Z.to_nat j)%nat by lia.
  apply app_nth2_plus.
Qed.

Lemma at_app_l (l post : list byte) (j : Z) :
  0 <= j < len l -> at_ (l ++ post) j = at_ l j.
Proof.
  intros Hj. unfold at_, len in *. apply app_nth1. lia.
Qed.

Lemma at_cons (x : byte) (l : list byte) (j : Z) :
  0 <= j -> at_ (x :: l) (1 + j) = at_ l j.
Proof.
  intros Hj. unfold at_.
  replace (Z.to_nat (1 + j)) with (S (Z.to_nat j)) by lia. reflexivity.
Qed.

Lemma at_last (l : list byte) :
  0 < len l -> at_ l (len l - 1) = last l Byte.x00.
Proof.
  induction l as [|x l _] using rev_ind; intros H; [discriminate H|].
  rewrite last_last, len_app, len_cons, len_nil.
  replace (len l + (1 + 0) - 1) with (len l + 0) by lia.
  now rewrite at_app_r by lia.
Qed.

Lemma top_bit_test (h : byte) :
  negb (Z.land (b2z h) 0x80 =? 0) = (128 <=? b2z h).
Proof.
  destruct h; vm_compute; reflexivity.
Qed.

Lemma pow8_succ (n : Z) : 0 <= n -> 2 ^ (8 * (n + 1)) = 256 * 2 ^ (8 * n).
Proof.
  intros H. replace (8 * (n + 1)) with (8 + 8 * n) by lia.
  now rewrite Z.pow_add_r by lia.
Qed.

(** The top bit of the last byte splits the unsigned values in two
    halves. *)
Lemma le_unsigned_last (bs : list byte) :
  bs <> [] ->
  if 128 <=? b2z (last bs Byte.x00)
  then 2 ^ (8 * len bs - 1) <= le_unsigned bs
  else le_unsigned bs < 2 ^ (8 * len bs - 1).
Proof.
  induction bs as [|b bs IH]; intros Hne; [easy|].
  destruct bs as [|c bs].
  - cbn [last le_unsigned]. rewrite len_cons, len_nil.
    change (2 ^ (8 * (1 + 0) - 1)) with 128.
    destruct (Z.leb_spec 128 (b2z b)); pose proof (b2z_range b); lia.
  - change (last (b :: c :: bs) Byte.x00) with (last (c :: bs) Byte.x00).
    specialize (IH ltac:(discriminate)).
    rewrite (len_cons b).
    assert (0 < len (c :: bs))
      by (rewrite len_cons; pose proof (len_nonneg bs); lia).
    replace (8 * (1 + len (c :: bs)) - 1) with (8 + (8 * len (c :: bs) - 1))
      by lia.
    rewrite Z.pow_add_r by lia. change (2 ^ 8) with 256.
    change (le_unsigned (b :: c :: bs))
      with (b2z b + 256 * le_unsigned (c :: bs)).
    pose proof (b2z_range b).
    destruct (128 <=? b2z (last (c :: bs) Byte.x00)); lia.
Qed.

Lemma wrap64s_period (z : Z) : wrap64s (z + 2 ^ 64) = wrap64s z.
Proof.
  unfold wrap64s.
  replace (z + 2 ^ 64) with (z + 1 * 2 ^ 64) by lia.
  now rewrite Z_mod_plus_full.
Qed.

Lemma pow8_le_64 (n : Z) : 0 <= n <= 8 -> 2 ^ (8 * n) <= 2 ^ 64.
Proof.
  intros H. apply Z.pow_le_mono_r; lia.
Qed.

(** The header byte of a well-formed run gives back the two widths. *)
Lemma header_decode (r : enc_run) :
  well_formed_run r ->
  b2z (z2b (run_header r)) = run_header r
  /\ Z.land (run_header r) 0x0F = len (len_bytes r)
  /\ Z.shiftr (run_header r) 4 = len (off_bytes r).
Proof.
  unfold well_formed_run, run_header. intros (Hl & Ho & Hh).
  pose proof (len_nonneg (len_bytes r)).
  pose proof (len_nonneg (off_bytes r)).
  split; [apply b2z_z2b; lia|]. split.
  - change 15 with (Z.ones 4). rewrite Z.land_ones by lia.
    symmetry. apply Z.mod_unique with (q := len (off_bytes r)); lia.
  - rewrite Z.shiftr_div_pow2 by lia.
    symmetry. apply Z.div_unique with (r := len (len_bytes r)); lia.
Qed.

Section RunInContext.

Variables (pre post : list byte) (r : enc_run).
Hypothesis Hwf : well_formed_run r.

Let data := pre ++ encode_run r ++ post.
Let i := len pre.

Lemma run_byte (j : Z) :
  0 <= j < len (len_bytes r) + len (off_bytes r) ->
  at_ data (i + 1 + j) = at_ (len_bytes r ++ off_bytes r) j.
Proof.
  intros Hj. unfold data, i, encode_run.
  rewrite <- Z.add_assoc, at_app_r by lia.
  rewrite <- app_comm_cons, at_cons by lia.
  apply at_app_l. rewrite len_app. lia.
Qed.

Lemma run_length_decode :
  Ntfs.run_length data i (len (len_bytes r)) = le_unsigned (len_bytes r).
Proof.
  unfold Ntfs.run_length, len at 1. rewrite Nat2Z.id.
  destruct Hwf as (Hl & _ & _). pose proof (len_nonneg (off_bytes r)).
  rewrite (fold_le_bytes (fun j => at_ data (i + 1 + j)) (len_bytes r) 0 0);
    [change (2 ^ (8 * 0)) with 1; lia|lia|lia|change (2 ^ (8 * 0)) with 1; lia|].
  intros j Hj. rewrite run_byte by lia. apply at_app_l. lia.
Qed.

Lemma run_offset_decode :
  Ntfs.run_offset data i (len (len_bytes r)) (len (off_bytes r))
  = le_signed (off_bytes r).
Proof.
  unfold Ntfs.run_offset, le_signed.
  destruct Hwf as (Hl & Ho & _).
  pose proof (len_nonneg (len_bytes r)) as Hl0.
  destruct (off_bytes r) as [|b bs] eqn:E; [reflexivity|].
  rewrite <- E in *.
  assert (Hpos : 0 < len (off_bytes r))
    by (rewrite E, len_cons; pose proof (len_nonneg bs); lia).
  destruct (Z.ltb_spec 0 (len (off_bytes r))); [|lia].
  assert (Hu :
    fold_left (fun offset j =>
                 Z.lor offset
                   (Ntfs.shl64
                      (b2z (at_ data (i + 1 + len (len_bytes r) + j)))
                      (8 * j)))
              (zseq 0 (Z.to_nat (len (off_bytes r)))) 0
    = le_unsigned (off_bytes r)).
  { unfold len at 2. rewrite Nat2Z.id.
    rewrite (fold_le_bytes
               (fun j => at_ data (i + 1 + len (len_bytes r) + j))
               (off_bytes r) 0 0); [change (2 ^ (8 * 0)) with 1; lia|lia|lia|change (2 ^ (8 * 0)) with 1; lia|].
    intros j Hj. rewrite <- Z.add_assoc, run_byte by lia.
    rewrite Z.add_0_l.
    replace (len (len_bytes r) + j) with (len (len_bytes r) + j) by lia.
    now rewrite at_app_r by lia. }
  rewrite Hu.
  assert (Hlast : at_ data (i + len (len_bytes r) + len (off_bytes r))
                  = last (off_bytes r) Byte.x00).
  { replace (i + len (len_bytes r) + len (off_bytes r))
      with (i + 1 + (len (len_bytes r) + (len (off_bytes r) - 1))) by lia.
    rewrite run_byte, at_app_r by lia. now apply at_last. }
  rewrite Hlast, top_bit_test.
  pose proof (le_unsigned_range (off_bytes r)) as Hr.
  pose proof (le_unsigned_last (off_bytes r)) as Ht.
  specialize (Ht ltac:(rewrite E; discriminate)).
  pose proof (pow8_le_64 (len (off_bytes r)) ltac:(lia)) as Hp.
  assert (Hh : 2 ^ (8 * len (off_bytes r))
               = 2 * 2 ^ (8 * len (off_bytes r) - 1)).
  { rewrite <- Z.pow_succ_r by lia. f_equal. lia. }
  destruct (128 <=? b2z (last (off_bytes r) Byte.x00)).
  - rewrite fold_sign_extend by lia.
    replace (le_unsigned (off_bytes r) + 2 ^ 64 - 2 ^ (8 * len (off_bytes r)))
      with (le_unsigned (off_bytes r) - 2 ^ (8 * len (off_bytes r)) + 2 ^ 64)
      by lia.
    rewrite wrap64s_period. apply wrap64s_small.
    change (2 ^ 64) with (2 * 2 ^ 63) in Hp. lia.
  - apply wrap64s_small. change (2 ^ 64) with (2 * 2 ^ 63) in Hp. lia.
Qed.

(** One turn of the run loop on a well-formed run. *)
Lemma data_runs_loop_step (fuel : nat) (lcn : Z) (runs : list Ntfs.DataRun) :
  Ntfs.data_runs_loop (S fuel) data i lcn runs
  = Ntfs.data_runs_loop fuel data (i + len (encode_run r))
      (wrap64s (lcn + le_signed (off_bytes r)))
      (runs ++ [ {| Ntfs.Offset := wrap64s (lcn + le_signed (off_bytes r));
                    Ntfs.Length := le_unsigned (len_bytes r) |} ]).
Proof.
  cbn [Ntfs.data_runs_loop].
  pose proof (len_nonneg (len_bytes r)) as Hl0.
  pose proof (len_nonneg (off_bytes r)) as Ho0.
  pose proof (len_nonneg post) as Hp0.
  assert (Hlen : len data = i + (1 + (len (len_bytes r) + len (off_bytes r)))
                            + len post).
  { unfold data, i, encode_run. rewrite !len_app, len_cons, len_app. lia. }
  assert (Hh : at_ data i = z2b (run_header r)).
  { unfold data, i, encode_run.
    replace (len pre) with (len pre + 0) by lia.
    now rewrite at_app_r by lia. }
  destruct (header_decode r Hwf) as (Hb & Hland & Hshr).
  rewrite Hh, Hb, Hland, Hshr.
  destruct (Z.ltb_spec i (len data)); [|lia].
  destruct Hwf as (_ & _ & Hpos).
  destruct (Z.eqb_spec (run_header r) 0); [lia|].
  destruct (Z.gtb_spec (i + 1 + len (len_bytes r) + len (off_bytes r))
                       (len data)); [lia|].
  rewrite run_length_decode, run_offset_decode.
  f_equal. unfold encode_run. rewrite len_cons, len_app. lia.
Qed.

End RunInContext.

Lemma data_runs_loop_encoded (rest : list byte) :
  forall (rs : list enc_run) (pre : list byte) (fuel : nat) (lcn : Z)
         (runs : list Ntfs.DataRun),
    Forall well_formed_run rs ->
    sums_in_range lcn rs ->
    (length rs < fuel)%nat ->
    Ntfs.data_runs_loop fuel
      (pre ++ flat_map encode_run rs ++ Byte.x00 :: rest) (len pre) lcn runs
    = Some (runs ++ running_sums lcn rs).
Proof.
  induction rs as [|r rs IH]; intros pre fuel lcn runs Hwf Hs Hf;
    (destruct fuel as [|fuel]; [simpl in Hf; lia|]).
  - cbn [Ntfs.data_runs_loop flat_map app running_sums].
    rewrite len_app, len_cons. pose proof (len_nonneg rest).
    pose proof (len_nonneg pre).
    destruct (Z.ltb_spec (len pre) (len pre + (1 + len rest))); [|lia].
    replace (len pre) with (len pre + 0) at 1 by lia.
    rewrite at_app_r by lia. cbn. now rewrite app_nil_r.
  - inversion Hwf as [|? ? Hr Hrs]; subst. destruct Hs as [Hs1 Hs2].
    cbn [flat_map]. rewrite <- app_assoc.
    rewrite (data_runs_loop_step pre
               (flat_map encode_run rs ++ Byte.x00 :: rest) r Hr).
    rewrite wrap64s_small by assumption.
    rewrite <- len_app, (app_assoc pre (encode_run r)).
    rewrite IH; [|assumption|assumption|simpl in Hf; lia].
    cbn [running_sums]. now rewrite <- app_assoc.
Qed.

(** C4: when the run-list bytes of a non-resident attribute are the
    encoding of the runs [(d1,L1), (d2,L2), ...], each with a header byte,
    at most eight little-endian length bytes and at most eight
    little-endian offset bytes, closed by a 0x00 header, the decoder
    returns the runs with the unsigned lengths [L1, L2, ...] and the
    clusters [d1, d1+d2, ...], the deltas sign-extended from the top bit of
    their last byte. *)
Theorem ntfs_data_runs_decoded (backing rest : list byte) (alen : Z)
        (rs : list enc_run) (fuel : nat) :
  34 <= len backing ->
  slice backing (le16 backing 32) alen = encode_runs rs ++ rest ->
  Forall well_formed_run rs ->
  sums_in_range 0 rs ->
  (length rs < fuel)%nat ->
  Ntfs.parseDataRuns fuel backing alen = Some (Done (running_sums 0 rs)).
Proof.
  intros Hb Hsl Hwf Hs Hf. unfold Ntfs.parseDataRuns.
  destruct (Z.ltb_spec (len backing) 34); [lia|].
  assert (Hne : 0 < len (slice backing (le16 backing 32) alen)).
  { rewrite Hsl. unfold encode_runs. rewrite !len_app, len_cons.
    pose proof (len_nonneg (@nil byte)).
    pose proof (len_nonneg (flat_map encode_run rs)).
    pose proof (len_nonneg rest). lia. }
  pose proof (slice_length_le backing (le16 backing 32) alen).
  destruct (Z.geb_spec (le16 backing 32) alen); [lia|].
  rewrite Hsl. unfold encode_runs. rewrite <- app_assoc.
  pose proof (data_runs_loop_encoded rest rs [] fuel 0 [] Hwf Hs Hf) as E.
  cbn [app] in E. change (len (@nil byte)) with 0 in E.
  cbn [app]. now rewrite E.
Qed.

(** An attribute header of 64 bytes whose run list starts at offset 64,
    followed by the encoding of [rs]. *)
Definition attr_of_runs (rs : list enc_run) : list byte :=
  map z2b (repeat 0 32 ++ [64; 0] ++ repeat 0 30) ++ encode_runs rs.

(** Two runs: 258 clusters at cluster 0x1234, then 5 clusters three
    clusters before. *)
Definition backward_runs : list enc_run :=
  [ {| len_bytes := map z2b [0x02; 0x01]; off_bytes := map z2b [0x34; 0x12] |};
    {| len_bytes := map z2b [0x05]; off_bytes := map z2b [0xFD] |} ].

Lemma ntfs_data_runs_decoded_witness :
  Ntfs.parseDataRuns 3 (attr_of_runs backward_runs) 73
  = Some (Done [ {| Ntfs.Offset := 4660; Ntfs.Length := 258 |};
                 {| Ntfs.Offset := 4657; Ntfs.Length := 5 |} ]).
Proof.
  apply (ntfs_data_runs_decoded (attr_of_runs backward_runs) [] 73
                                backward_runs 3).
  - vm_compute. discriminate.
  - vm_compute. reflexivity.
  - repeat constructor; vm_compute; try discriminate; reflexivity.
  - vm_compute. repeat split; discriminate.
  - simpl. lia.
Defined.

(* ------------------------------------------------------------------ *)
(** ** The carver: the hits of a scan *)




Lemma skipn_zseq (a : Z) (n i : nat) :
  skipn i (zseq a n) = zseq (a + Z.of_nat i) (n - i).
Proof.
  destruct (Nat.le_gt_cases i n) as [H|H].
  - replace n with (i + (n - i))%nat at 1 by lia.
    rewrite zseq_app, skipn_app, zseq_length, Nat.sub_diag.
    rewrite skipn_all2 by (rewrite zseq_length; lia). reflexivity.
  - rewrite skipn_all2 by (rewrite zseq_length; lia).
    replace (n - i)%nat with 0%nat by lia. reflexivity.
Qed.

Lemma firstn_zseq (a : Z) (n m : nat) :
  (m <= n)%nat -> firstn m (zseq a n) = zseq a m.
Proof.
  intros H. replace n with (m + (n - m))%nat by lia.
  rewrite zseq_app, firstn_app, zseq_length, Nat.sub_diag.
  rewrite firstn_all2 by (rewrite zseq_length; lia).
  simpl. apply app_nil_r.
Qed.

(** A slice of bytes read from the device is the device at that place. *)
Lemma slice_bytes_at (f : Z -> byte) (off : Z) (n : nat) (rest : list byte)
      (i j : Z) :
  0 <= i <= j -> j <= Z.of_nat n ->
  slice (Disk.bytes_at f off n ++ rest) i j
  = Disk.bytes_at f (off + i) (Z.to_nat (j - i)).
Proof.
  intros Hi Hj.
  rewrite slice_app_l
    by (try (unfold len; rewrite bytes_at_length); lia).
  unfold slice, Disk.bytes_at.
  rewrite skipn_map, firstn_map, skipn_zseq, firstn_zseq by lia.
  do 2 f_equal. lia.
Qed.

(** What a read of [l > 0] bytes at an offset inside the image returns. *)
Lemma file_ReadAt_at (im : Disk.image) (l off : Z) :
  0 < l -> 0 <= off < Disk.f_size im ->
  exists err,
    Disk.file_ReadAt im l off
    = (Disk.bytes_at (Disk.f_byte im) off
         (Z.to_nat (Z.min l (Disk.f_size im - off))), err)
    /\ err <> Some Disk.IOError.
Proof.
  intros Hl Ho. unfold Disk.file_ReadAt.
  destruct (Z.ltb_spec off 0); [lia|].
  destruct (Z.leb_spec l 0); [lia|].
  destruct (Z.leb_spec (Disk.f_size im) off); [lia|].
  destruct (Z.ltb_spec (Disk.f_size im - off) l).
  - exists (Some Disk.EOF). rewrite Z.min_r by lia. split; [reflexivity|easy].
  - exists None. rewrite Z.min_l by lia. split; [reflexivity|easy].
Qed.

(** The header of [s] stands at position [p] of the device. *)
Definition occurs (im : Disk.image) (s : Carver.FileSignature) (p : Z)
  : Prop :=
  0 <= p /\ p + len (Carver.Header s) <= Disk.f_size im
  /\ Disk.bytes_at (Disk.f_byte im) p (length (Carver.Header s))
     = Carver.Header s.

(** The hit [Scan] reports for [s] at [p]. *)
Definition mk_hit (s : Carver.FileSignature) (p : Z) : Carver.CarvedFile :=
  {| Carver.Signature := s; Carver.Offset := p;
     Carver.Size := Carver.MaxSize s |}.

Section ScanHits.

Variables (im : Disk.image) (s : Carver.FileSignature).
Variables (l1 l2 : list Carver.FileSignature) (k : Z).

Let sigs := l1 ++ s :: l2.
Let size := Disk.f_size im.
Let f := Disk.f_byte im.

Hypothesis Hk : occurs im s k.
Hypothesis Hother :
  forall s' p, In s' sigs -> occurs im s' p -> s' = s /\ p = k.
Hypothesis Hl1 : ~ In s l1.
Hypothesis Hl2 : ~ In s l2.
Hypothesis Hroom : k + len (Carver.Header s) + 64 <= size.
Hypothesis Hlen : 0 < len (Carver.Header s) <= 64.
Hypothesis Hmp4 :
  Carver.Name s = "MP4"%string -> Disk.bytes_at f (k + 4) 4 = Carver.ftyp.
Hypothesis Hsize : size + 1024 * 1024 < 2 ^ 63.

(** A buffer whose first [n] bytes were read at [o]. *)
Let buffer (o n : Z) (rest : list byte) : list byte :=
  Disk.bytes_at f o (Z.to_nat n) ++ rest.

Lemma sig_hit_in (o n i : Z) (rest : list byte) (s' : Carver.FileSignature)
      (h : Carver.CarvedFile) :
  0 <= o -> 0 <= i -> o + n <= size ->
  In h (Carver.sig_hit (buffer o n rest) n o i s') ->
  occurs im s' (o + i) /\ h = mk_hit s' (o + i).
Proof.
  intros Ho Hi Hn. unfold Carver.sig_hit, buffer.
  pose proof (len_nonneg (Carver.Header s')) as Hh.
  destruct (Z.gtb_spec (len (Carver.Header s')) (n - i)); [contradiction|].
  rewrite slice_bytes_at by lia.
  replace (Z.to_nat (i + len (Carver.Header s') - i))
    with (length (Carver.Header s')) by (unfold len; lia).
  destruct (bytes_equal _ (Carver.Header s')) eqn:E; [|contradiction].
  apply bytes_equal_eq in E.
  rewrite wrap64s_small by (fold size in Hsize; lia).
  intros Hh'.
  assert (Hin : In h [mk_hit s' (o + i)]).
  { destruct (_ && _); [|exact Hh'].
    destruct (bytes_equal _ Carver.ftyp); [exact Hh'|contradiction]. }
  destruct Hin as [<-|[]]. split; [|reflexivity].
  repeat split; [lia|fold size; lia|exact E].
Qed.




Variables (B ov : Z).

Hypothesis HB : 128 <= B <= 1024 * 1024.
Hypothesis Hov : (ov = 0 /\ size <= B) \/ (ov = 1024 /\ 2048 <= B).

Let c : Carver.Carver :=
  {| Carver.reader := Disk.Open im; Carver.bufSize := 1024 * 1024;
     Carver.signatures := sigs |}.



End ScanHits.








(* ------------------------------------------------------------------ *)
(** ** FAT32: long file names *)

(** The two bytes of a UTF-16 code unit, little-endian. *)
Definition enc_unit (u : Z) : list byte := [z2b u; z2b (u / 256)].

Definition enc_units (us : list Z) : list byte := flat_map enc_unit us.

(** The 13 code units of a slot that holds the fragment [frag]: the
    fragment, then the 0x0000 terminator and the 0xFFFF padding when it
    is shorter than 13. *)
Definition lfn_units (frag : list Z) : list Z :=
  if (length frag <? 13)%nat
  then frag ++ 0 :: repeat 0xFFFF (12 - length frag)
  else frag.

(** The 32-byte LFN slot with ordinal byte [ord] and checksum [chk]:
    five units at offset 1, the attribute 0x0F at 11, six units at 14,
    two units at 28. *)
Definition lfn_slot (ord chk : Z) (frag : list Z) : list byte :=
  let us := lfn_units frag in
  [z2b ord] ++ enc_units (firstn 5 us)
  ++ [z2b 0x0F; z2b 0; z2b chk] ++ enc_units (firstn 6 (skipn 5 us))
  ++ [z2b 0; z2b 0] ++ enc_units (skipn 11 us).

(** The fragments of 13 code units of a name, in logical order. *)
Fixpoint chunks13_of (fuel : nat) (s : list Z) : list (list Z) :=
  match fuel, s with
  | S fuel', _ :: _ => firstn 13 s :: chunks13_of fuel' (skipn 13 s)
  | _, _ => []
  end.

Definition chunks13 (s : list Z) : list (list Z) :=
  chunks13_of (length s) s.

(** The slots of the fragments [frags], numbered from [n] down, in the
    order they stand on disk: the last fragment first. *)
Fixpoint lfn_tail (chk : Z) (frags : list (list Z)) : list (list byte) :=
  match frags with
  | [] => []
  | frag :: before =>
    lfn_slot (Z.of_nat (length frags)) chk frag :: lfn_tail chk before
  end.

(** The chain of a name: the slot of the last fragment carries the bit
    0x40 in its ordinal. *)
Definition lfn_chain (chk : Z) (s : list Z) : list (list byte) :=
  match rev (chunks13 s) with
  | [] => []
  | frag :: before =>
    lfn_slot (Z.of_nat (S (length before)) + 0x40) chk frag
      :: lfn_tail chk before
  end.

(** A code unit a fragment may hold. *)
Definition name_unit (u : Z) : Prop := 0 < u < 0xFFFF.

(** The code units a field loop keeps: those before the first 0x0000
    or 0xFFFF. *)
Fixpoint until_stop (us : list Z) : list Z :=
  match us with
  | [] => []
  | u :: us' => if (u =? 0) || (u =? 0xFFFF) then [] else u :: until_stop us'
  end.

Lemma le16_enc_unit (pre post : list byte) (u : Z) :
  0 <= u < 65536 ->
  le16 (pre ++ enc_unit u ++ post) (len pre) = u.
Proof.
  intros Hu. unfold le16.
  rewrite (at_app_r pre _ 1) by lia.
  replace (at_ (pre ++ enc_unit u ++ post) (len pre))
    with (at_ (pre ++ enc_unit u ++ post) (len pre + 0))
    by (f_equal; lia).
  rewrite (at_app_r pre _ 0) by lia.
  change (at_ (enc_unit u ++ post) 0) with (z2b u).
  change (at_ (enc_unit u ++ post) 1) with (z2b (u / 256)).
  assert (E1 : b2z (z2b u) = u mod 256).
  { replace (z2b u) with (z2b (u mod 256))
      by (unfold z2b; now rewrite Z.mod_mod by lia).
    apply b2z_z2b. apply Z.mod_pos_bound. lia. }
  assert (E2 : b2z (z2b (u / 256)) = u / 256).
  { apply b2z_z2b. split; [apply Z.div_pos; lia|].
    apply Z.div_lt_upper_bound; lia. }
  rewrite E1, E2, lor_shiftl_add.
  - change (2 ^ 8) with 256. pose proof (Z.div_mod u 256). lia.
  - lia.
  - change (2 ^ 8) with 256. apply Z.mod_pos_bound. lia.
Qed.

Lemma lfn_chars_enc :
  forall (us : list Z) (pre post : list byte),
    Forall (fun u => 0 <= u < 65536) us ->
    Fat32.lfn_chars (pre ++ enc_units us ++ post) (len pre) (length us)
    = until_stop us.
Proof.
  induction us as [|u us IH]; intros pre post Hus; [reflexivity|].
  inversion Hus as [|? ? Hu Hus']; subst.
  cbn [length Fat32.lfn_chars until_stop enc_units flat_map].
  rewrite <- app_assoc, le16_enc_unit by assumption.
  destruct ((u =? 0) || (u =? 65535)); [reflexivity|]. f_equal.
  specialize (IH (pre ++ enc_unit u) post Hus').
  rewrite len_app in IH. unfold enc_unit at 2 in IH.
  rewrite !len_cons in IH. change (len (@nil byte)) with 0 in IH.
  replace (len pre + (1 + (1 + 0))) with (len pre + 2) in IH by lia.
  rewrite <- app_assoc in IH. exact IH.
Qed.

Lemma Forall_firstn_keep {A} (P : A -> Prop) (n : nat) (l : list A) :
  Forall P l -> Forall P (firstn n l).
Proof.
  revert l. induction n as [|n IH]; intros [|x l] H; simpl; auto.
  inversion H; subst. constructor; auto.
Qed.

Lemma Forall_skipn_keep {A} (P : A -> Prop) (n : nat) (l : list A) :
  Forall P l -> Forall P (skipn n l).
Proof.
  revert l. induction n as [|n IH]; intros [|x l] H; simpl; auto.
  inversion H; subst. auto.
Qed.

(** A field loop keeps the name units and stops at the padding. *)
Lemma until_stop_padded (frag pad : list Z) :
  Forall name_unit frag ->
  Forall (fun u => u = 0 \/ u = 0xFFFF) pad ->
  until_stop (frag ++ pad) = frag.
Proof.
  intros Hf Hp. induction Hf as [|u frag Hu Hf IH]; simpl.
  - destruct Hp as [|p pad [->| ->] Hp]; reflexivity.
  - unfold name_unit in Hu.
    destruct (Z.eqb_spec u 0); [lia|].
    destruct (Z.eqb_spec u 65535); [lia|]. simpl. now rewrite IH.
Qed.

Lemma lfn_units_shape (frag : list Z) :
  (length frag <= 13)%nat ->
  exists pad,
    lfn_units frag = frag ++ pad
    /\ Forall (fun u => u = 0 \/ u = 0xFFFF) pad
    /\ length (frag ++ pad) = 13%nat.
Proof.
  intros H. unfold lfn_units.
  destruct (Nat.ltb_spec (length frag) 13).
  - eexists. split; [reflexivity|]. split.
    + constructor; [now left|]. apply Forall_forall.
      intros u Hu. apply repeat_spec in Hu. now right.
    + rewrite length_app. cbn [length]. rewrite repeat_length. lia.
  - exists []. rewrite app_nil_r. split; [reflexivity|].
    split; [constructor|lia].
Qed.

(** Decoding a slot gives back its fragment. *)
Lemma parseLFNEntry_slot (ord chk : Z) (frag : list Z) :
  (length frag <= 13)%nat -> Forall name_unit frag ->
  Fat32.parseLFNEntry (lfn_slot ord chk frag) = string_of_utf16 frag.
Proof.
  intros Hl Hf. unfold Fat32.parseLFNEntry, lfn_slot.
  destruct (lfn_units_shape frag Hl) as (pad & -> & Hpad & Hlen).
  set (us := frag ++ pad) in *.
  assert (Hus : Forall (fun u => 0 <= u < 65536) us).
  { apply Forall_app. split.
    - eapply Forall_impl; [|exact Hf]. unfold name_unit. intros; lia.
    - eapply Forall_impl; [|exact Hpad]. intros u [->| ->]; lia. }
  assert (E1 : Fat32.lfn_chars
                 ([z2b ord] ++ enc_units (firstn 5 us)
                  ++ [z2b 0x0F; z2b 0; z2b chk]
                  ++ enc_units (firstn 6 (skipn 5 us))
                  ++ [z2b 0; z2b 0] ++ enc_units (skipn 11 us)) 1 5
               = until_stop (firstn 5 us)).
  { pose proof (lfn_chars_enc (firstn 5 us) [z2b ord]
                  ([z2b 0x0F; z2b 0; z2b chk]
                   ++ enc_units (firstn 6 (skipn 5 us))
                   ++ [z2b 0; z2b 0] ++ enc_units (skipn 11 us))
                  (Forall_firstn_keep _ 5 us Hus)) as E.
    rewrite length_firstn, Hlen in E. exact E. }
  assert (Hl5 : length (enc_units (firstn 5 us)) = 10%nat).
  { unfold enc_units.
    rewrite (flat_map_constant_length (c := 2%nat)) by reflexivity.
    rewrite length_firstn, Hlen. reflexivity. }
  assert (Hl6 : length (enc_units (firstn 6 (skipn 5 us))) = 12%nat).
  { unfold enc_units.
    rewrite (flat_map_constant_length (c := 2%nat)) by reflexivity.
    rewrite length_firstn, length_skipn, Hlen. reflexivity. }
  assert (E2 : Fat32.lfn_chars
                 ([z2b ord] ++ enc_units (firstn 5 us)
                  ++ [z2b 0x0F; z2b 0; z2b chk]
                  ++ enc_units (firstn 6 (skipn 5 us))
                  ++ [z2b 0; z2b 0] ++ enc_units (skipn 11 us)) 14 6
               = until_stop (firstn 6 (skipn 5 us))).
  { pose proof (lfn_chars_enc (firstn 6 (skipn 5 us))
                  ([z2b ord] ++ enc_units (firstn 5 us)
                   ++ [z2b 0x0F; z2b 0; z2b chk])
                  ([z2b 0; z2b 0] ++ enc_units (skipn 11 us))
                  (Forall_firstn_keep _ 6 _ (Forall_skipn_keep _ 5 us Hus)))
      as E.
    rewrite length_firstn, length_skipn, Hlen in E.
    unfold len in E. rewrite !length_app, Hl5 in E.
    rewrite <- !app_assoc in E. exact E. }
  assert (E3 : Fat32.lfn_chars
                 ([z2b ord] ++ enc_units (firstn 5 us)
                  ++ [z2b 0x0F; z2b 0; z2b chk]
                  ++ enc_units (firstn 6 (skipn 5 us))
                  ++ [z2b 0; z2b 0] ++ enc_units (skipn 11 us)) 28 2
               = until_stop (skipn 11 us)).
  { pose proof (lfn_chars_enc (skipn 11 us)
                  ([z2b ord] ++ enc_units (firstn 5 us)
                   ++ [z2b 0x0F; z2b 0; z2b chk]
                   ++ enc_units (firstn 6 (skipn 5 us)) ++ [z2b 0; z2b 0])
                  [] (Forall_skipn_keep _ 11 us Hus)) as E.
    rewrite length_skipn, Hlen in E.
    unfold len in E. rewrite !length_app, Hl5, Hl6 in E.
    rewrite app_nil_r, <- !app_assoc in E. exact E. }
  rewrite E1, E2, E3. f_equal. subst us.
  rewrite firstn_app, !skipn_app, !firstn_app.
  rewrite !until_stop_padded;
    auto using Forall_firstn_keep, Forall_skipn_keep.
  rewrite <- (firstn_skipn 5 frag) at 4.
  rewrite <- (firstn_skipn 6 (skipn 5 frag)) at 2.
  now rewrite skipn_skipn.
Qed.

Lemma enc_units_length (us : list Z) :
  length (enc_units us) = (2 * length us)%nat.
Proof.
  unfold enc_units.
  rewrite (flat_map_constant_length (c := 2%nat)) by reflexivity. lia.
Qed.

Lemma lfn_slot_length (ord chk : Z) (frag : list Z) :
  (length frag <= 13)%nat -> len (lfn_slot ord chk frag) = 32.
Proof.
  intros Hl. unfold lfn_slot, len.
  destruct (lfn_units_shape frag Hl) as (pad & -> & _ & Hlen).
  rewrite !length_app, !enc_units_length, !length_firstn, !length_skipn, Hlen.
  reflexivity.
Qed.

Lemma lfn_slot_ord (ord chk : Z) (frag : list Z) :
  0 <= ord < 256 -> b2z (at_ (lfn_slot ord chk frag) 0) = ord.
Proof.
  intros H. unfold lfn_slot. cbn [app]. unfold at_. cbn [Z.to_nat nth].
  now apply b2z_z2b.
Qed.

Lemma lfn_slot_attr (ord chk : Z) (frag : list Z) :
  (length frag <= 13)%nat ->
  b2z (at_ (lfn_slot ord chk frag) 11) = Fat32.LFNAttribute.
Proof.
  intros Hl. unfold lfn_slot.
  destruct (lfn_units_shape frag Hl) as (pad & -> & _ & Hlen).
  rewrite (app_assoc [z2b ord]).
  assert (E : len ([z2b ord] ++ enc_units (firstn 5 (frag ++ pad))) = 11).
  { unfold len. rewrite length_app, enc_units_length, length_firstn, Hlen.
    reflexivity. }
  replace 11 with (len ([z2b ord] ++ enc_units (firstn 5 (frag ++ pad))) + 0)
    at 1 by lia.
  rewrite at_app_r by lia. reflexivity.
Qed.

Lemma land_64_low (n : Z) : 0 <= n < 64 -> Z.land n 0x40 = 0.
Proof.
  intros H. change 64 with (Z.shiftl 1 6). apply land_shiftl_low; lia.
Qed.

Lemma land_64_high (n : Z) : 0 <= n < 64 -> Z.land (n + 0x40) 0x40 <> 0.
Proof.
  intros H E. apply (f_equal (fun z => Z.testbit z 6)) in E.
  rewrite Z.land_spec, Z.bits_0 in E.
  change (Z.testbit 64 6) with true in E. rewrite andb_true_r in E.
  rewrite Z.testbit_false in E by lia.
  replace ((n + 64) / 2 ^ 6) with 1 in E; [discriminate E|].
  apply Z.div_unique with (r := n); lia.
Qed.

Section Chain.

Variable recurse :
  Z -> list gostring -> Fat32.scan_state
  -> option (outcome Fat32.scan_state).
Variables (chk : Z) (path : list gostring).

(** The loop body on one LFN slot. *)
Lemma scan_entries_lfn_slot (ord : Z) (frag : list Z)
      (rest : list (list byte)) (parts : list gostring)
      (st : Fat32.scan_state) :
  0 < ord < 256 -> (length frag <= 13)%nat -> Forall name_unit frag ->
  Fat32.scan_entries recurse (lfn_slot ord chk frag :: rest) path parts st
  = Fat32.scan_entries recurse rest path
      (string_of_utf16 frag
         :: (if negb (Z.land ord 0x40 =? 0) then [] else parts)) st.
Proof.
  intros Ho Hl Hf. cbn [Fat32.scan_entries].
  rewrite lfn_slot_length, lfn_slot_ord, lfn_slot_attr by (assumption || lia).
  rewrite parseLFNEntry_slot by assumption.
  unfold Fat32.DirEntrySize. rewrite Z.ltb_irrefl.
  destruct (Z.eqb_spec ord 0); [lia|].
  now rewrite Z.eqb_refl.
Qed.

(** The slots after the first one: each fragment is put in front. *)
Lemma scan_entries_lfn_tail :
  forall (frags : list (list Z)) (rest : list (list byte))
         (parts : list gostring) (st : Fat32.scan_state),
    (length frags < 64)%nat ->
    Forall (fun frag => (length frag <= 13)%nat /\ Forall name_unit frag)
           frags ->
    Fat32.scan_entries recurse (lfn_tail chk frags ++ rest) path parts st
    = Fat32.scan_entries recurse rest path
        (rev (map string_of_utf16 frags) ++ parts) st.
Proof.
  induction frags as [|frag before IH]; intros rest parts st Hn Hfr;
    [reflexivity|].
  inversion Hfr as [|? ? [Hl Hf] Hfr']; subst.
  cbn [lfn_tail app]. cbn [length] in Hn.
  rewrite scan_entries_lfn_slot by (assumption || cbn [length]; lia).
  rewrite land_64_low by (cbn [length]; lia). cbn [Z.eqb negb].
  rewrite IH by (assumption || lia).
  cbn [map rev]. now rewrite <- app_assoc.
Qed.

End Chain.

Lemma chunks13_of_nil (fuel : nat) : chunks13_of fuel [] = [].
Proof. now destruct fuel. Qed.

Lemma chunks13_of_props (fuel : nat) :
  forall s, Forall name_unit s ->
            Forall (fun frag => (length frag <= 13)%nat
                                /\ Forall name_unit frag)
                   (chunks13_of fuel s).
Proof.
  induction fuel as [|fuel IH]; intros [|u s] Hs; try constructor.
  - split; [rewrite length_firstn; lia|now apply Forall_firstn_keep].
  - apply IH. now apply Forall_skipn_keep.
Qed.

Lemma chunks13_of_count (fuel : nat) :
  forall s, (13 * length (chunks13_of fuel s) <= length s + 12)%nat.
Proof.
  induction fuel as [|fuel IH]; intros [|u s]; cbn [chunks13_of length];
    try lia.
  specialize (IH (skipn 13 (u :: s))).
  rewrite length_skipn in IH. cbn [length] in IH.
  destruct (Nat.le_gt_cases 13 (S (length s))) as [H|H]; [lia|].
  rewrite skipn_all2, chunks13_of_nil by (cbn [length]; lia).
  cbn [length]. lia.
Qed.

Lemma chunks13_of_concat (fuel : nat) :
  forall s, (length s <= fuel)%nat -> concat (chunks13_of fuel s) = s.
Proof.
  induction fuel as [|fuel IH]; intros [|u s] H; try reflexivity.
  - cbn [length] in H. lia.
  - cbn [chunks13_of concat]. rewrite IH.
    + apply firstn_skipn.
    + rewrite length_skipn. cbn [length] in *. lia.
Qed.

(** A fragment that does not end in the first half of a surrogate
    pair. *)
Definition ends_whole (frag : list Z) : Prop :=
  ~ (surr1 <= last frag 0 < surr2).

Lemma utf16_Decode_app (b : list Z) :
  forall (n : nat) (a : list Z),
    (length a <= n)%nat -> ends_whole a ->
    utf16_Decode (a ++ b) = utf16_Decode a ++ utf16_Decode b.
Proof.
  unfold ends_whole.
  induction n as [|n IH]; intros a Hn Hw.
  - destruct a; [reflexivity|cbn [length] in Hn; lia].
  - destruct a as [|r rest]; [reflexivity|].
    cbn [length] in Hn. cbn [app utf16_Decode].
    destruct ((r <? surr1) || (surr3 <=? r)) eqn:Er.
    + cbn [app]. f_equal. apply IH; [lia|].
      destruct rest; [cbn; unfold surr1; lia|exact Hw].
    + destruct rest as [|r2 rest'].
      * cbn [last] in Hw. cbn [app].
        assert (Hr : (r <? surr2) = false).
        { apply orb_false_iff in Er. destruct Er as [E1 _].
          apply Z.ltb_ge in E1. apply Z.ltb_ge. lia. }
        destruct b as [|r2 b']; [reflexivity|]. now rewrite Hr.
      * cbn [app].
        destruct ((r <? surr2) && (surr2 <=? r2) && (r2 <? surr3)).
        -- cbn [app]. f_equal. apply IH; [cbn [length] in Hn; lia|].
           destruct rest'; [cbn; unfold surr1; lia|exact Hw].
        -- cbn [app]. f_equal.
           change (r2 :: rest' ++ b) with ((r2 :: rest') ++ b).
           apply IH; [lia|exact Hw].
Qed.

Lemma string_of_utf16_concat (frags : list (list Z)) :
  Forall ends_whole frags ->
  string_of_utf16 (concat frags) = concat (map string_of_utf16 frags).
Proof.
  induction 1 as [|frag frags Hw _ IH]; [reflexivity|].
  cbn [concat map]. rewrite <- IH. unfold string_of_utf16, string_of_runes.
  rewrite (utf16_Decode_app _ (length frag)) by (lia || assumption).
  apply flat_map_app.
Qed.

Lemma utf8_rune_nonempty (r : Z) : utf8_rune r <> [].
Proof.
  unfold utf8_rune.
  repeat match goal with |- context [if ?b then _ else _] => destruct b end;
    discriminate.
Qed.

Lemma string_of_utf16_nonempty (s : list Z) :
  s <> [] -> string_of_utf16 s <> [].
Proof.
  intros Hs. unfold string_of_utf16, string_of_runes.
  assert (H : exists r l, utf16_Decode s = r :: l).
  { destruct s as [|r rest]; [contradiction|]. cbn [utf16_Decode].
    destruct (_ || _); [eauto|]. destruct rest as [|r2 rest']; [eauto|].
    destruct (_ && _); eauto. }
  destruct H as (r & l & ->). cbn [flat_map].
  pose proof (utf8_rune_nonempty r). destruct (utf8_rune r); [easy|].
  discriminate.
Qed.

(** The loop body on the deleted base entry that follows a chain. *)
Lemma scan_entries_base
      (recurse : Z -> list gostring -> Fat32.scan_state
                 -> option (outcome Fat32.scan_state))
      (base : list byte) (rest : list (list byte)) (path : list gostring)
      (parts : list gostring) (st : Fat32.scan_state) :
  len base = 32 ->
  b2z (at_ base 0) = Fat32.DeletedMarker ->
  b2z (at_ base 11) <> Fat32.LFNAttribute ->
  Z.land (b2z (at_ base 11)) Fat32.AttrVolumeLabel = 0 ->
  concat parts <> [] ->
  Fat32.is_dot_name (concat parts) = false ->
  Fat32.scan_entries recurse (base :: rest) path parts st
  = Fat32.scan_entries recurse rest path []
      (Fat32.add_file st (Fat32.base_entry path parts base))
  /\ Fat32.display_name (Fat32.base_entry path parts base) = concat parts.
Proof.
  intros Hlen Hdel Hattr Hvol Hne Hdot.
  assert (Hl0 : (len (concat parts) =? 0) = false).
  { apply Z.eqb_neq. unfold len. destruct (concat parts); [easy|].
    cbn [length]. lia. }
  assert (Hname : Fat32.display_name (Fat32.base_entry path parts base)
                  = concat parts).
  { unfold Fat32.display_name, Fat32.base_entry.
    cbn [Fat32.LongName Fat32.Name]. now rewrite Hl0. }
  split; [|exact Hname].
  cbn [Fat32.scan_entries]. rewrite Hlen, Hname, Hdot, Hdel, Hvol.
  unfold Fat32.DirEntrySize, Fat32.DeletedMarker. cbn [Z.ltb Z.compare
    Pos.compare Pos.compare_cont Z.eqb negb].
  destruct (Z.eqb_spec (b2z (at_ base 11)) Fat32.LFNAttribute);
    [contradiction|].
  assert (Hd : Fat32.IsDeleted (Fat32.base_entry path parts base) = true).
  { unfold Fat32.base_entry. cbn [Fat32.IsDeleted]. now rewrite Hdel. }
  rewrite Hd. cbn [negb]. now rewrite andb_false_r.
Qed.

Lemma concat_decoded_nonempty (s : list Z) :
  s <> [] -> concat (map string_of_utf16 (chunks13 s)) <> [].
Proof.
  intros Hs. destruct s as [|u s]; [contradiction|].
  unfold chunks13. cbn [length chunks13_of map concat].
  pose proof (string_of_utf16_nonempty (firstn 13 (u :: s))) as H.
  specialize (H ltac:(cbn [firstn]; discriminate)).
  destruct (string_of_utf16 (firstn 13 (u :: s))); [contradiction|].
  discriminate.
Qed.

(** C8, as the code has it: a chain of LFN slots that encodes a name [s]
    of 1 to 255 code units, none of them 0x0000 or 0xFFFF, standing in
    one cluster right before a deleted base entry, makes the scan append
    that entry with a display name equal to the fragments decoded slot by
    slot and joined in logical order; the display name is the string [s]
    when no surrogate pair is split between two slots. *)
Theorem fat32_lfn_chain_name
        (recurse : Z -> list gostring -> Fat32.scan_state
                   -> option (outcome Fat32.scan_state))
        (chk : Z) (s : list Z) (base : list byte) (rest : list (list byte))
        (path parts : list gostring) (st : Fat32.scan_state) :
  s <> [] -> (length s <= 255)%nat -> Forall name_unit s ->
  len base = 32 ->
  b2z (at_ base 0) = 0xE5 ->
  b2z (at_ base 11) <> 0x0F ->
  Z.land (b2z (at_ base 11)) 0x08 = 0 ->
  Fat32.is_dot_name (concat (map string_of_utf16 (chunks13 s))) = false ->
  exists file,
    Fat32.scan_entries recurse (lfn_chain chk s ++ base :: rest) path parts st
    = Fat32.scan_entries recurse rest path [] (Fat32.add_file st file)
    /\ Fat32.IsDeleted file = true
    /\ Fat32.display_name file = concat (map string_of_utf16 (chunks13 s))
    /\ (Forall ends_whole (chunks13 s) ->
        Fat32.display_name file = string_of_utf16 s).
Proof.
  intros Hs Hlen Hu Hb32 Hdel Hattr Hvol Hdot.
  pose proof (chunks13_of_props (length s) s Hu) as Hprops.
  pose proof (chunks13_of_count (length s) s) as Hcount.
  fold (chunks13 s) in Hprops, Hcount.
  pose proof (concat_decoded_nonempty s Hs) as Hne.
  set (parts' := map string_of_utf16 (chunks13 s)) in *.
  destruct (scan_entries_base recurse base rest path parts' st
              Hb32 Hdel Hattr Hvol Hne Hdot) as [Ebase Ename].
  exists (Fat32.base_entry path parts' base).
  split; [|split; [|split]].
  - rewrite <- Ebase. unfold lfn_chain.
    apply Forall_rev in Hprops. rewrite <- length_rev in Hcount.
    assert (Hrev : map string_of_utf16 (rev (rev (chunks13 s))) = parts')
      by now rewrite rev_involutive.
    destruct (rev (chunks13 s)) as [|frag before].
    + exfalso. apply Hne. now rewrite <- Hrev.
    + inversion Hprops as [|? ? [Hl Hf] Hbefore]; subst.
      cbn [length] in Hcount. cbn [app].
      rewrite scan_entries_lfn_slot by (assumption || lia).
      destruct (Z.eqb_spec
                  (Z.land (Z.of_nat (S (length before)) + 64) 64) 0) as [E|_];
        [apply land_64_high in E; [contradiction|lia]|].
      cbn [negb].
      rewrite scan_entries_lfn_tail by (assumption || lia).
      f_equal. rewrite <- Hrev. cbn [rev]. rewrite map_app, map_rev.
      reflexivity.
  - unfold Fat32.base_entry. cbn [Fat32.IsDeleted]. now rewrite Hdel.
  - exact Ename.
  - intros Hw. rewrite Ename. subst parts'.
    rewrite <- string_of_utf16_concat by assumption.
    unfold chunks13. now rewrite chunks13_of_concat.
Qed.

(** No subdirectory is entered. *)
Definition no_recurse (c : Z) (path : list gostring) (st : Fat32.scan_state)
  : option (outcome Fat32.scan_state) := None.

(** A deleted base entry of a regular file: 0xE5, then the rest of the
    short name EADME.TXT, the attribute 0x20, first cluster 3, 10 bytes. *)
Definition deleted_base : list byte :=
  map z2b ([0xE5; 0x45; 0x41; 0x44; 0x4D; 0x45; 0x20; 0x20; 0x54; 0x58; 0x54;
            0x20] ++ repeat 0 14 ++ [3; 0; 10; 0; 0; 0]).

(** A name of 14 code units: it takes two slots. *)
Definition long_name : list Z :=
  [0x72; 0x65; 0x61; 0x64; 0x6D; 0x65; 0x2D; 0x66; 0x69; 0x72; 0x73; 0x74;
   0x2E; 0x74].

Lemma fat32_lfn_chain_name_witness :
  exists file,
    Fat32.scan_entries no_recurse (lfn_chain 0 long_name ++ [deleted_base])
      [] [] {| Fat32.files := []; Fat32.visited := [] |}
    = Fat32.scan_entries no_recurse [] [] []
        (Fat32.add_file {| Fat32.files := []; Fat32.visited := [] |} file)
    /\ Fat32.IsDeleted file = true
    /\ Fat32.display_name file
       = concat (map string_of_utf16 (chunks13 long_name))
    /\ (Forall ends_whole (chunks13 long_name) ->
        Fat32.display_name file = string_of_utf16 long_name).
Proof.
  apply (fat32_lfn_chain_name no_recurse 0 long_name deleted_base [] [] []
           {| Fat32.files := []; Fat32.visited := [] |}).
  - discriminate.
  - simpl. lia.
  - repeat constructor; reflexivity.
  - reflexivity.
  - reflexivity.
  - vm_compute. discriminate.
  - reflexivity.
  - vm_compute. reflexivity.
Defined.

(** C8, the counterexample: the name 'A', U+FFFF, 'B' holds no 0x0000,
    its chain is one padded slot with the bit 0x40, and the base entry
    follows; the first field loop stops at 0xFFFF and the entry is
    reported under the name A. *)
Lemma fat32_lfn_chain_name_counterexample :
  exists file,
    Fat32.scan_entries no_recurse
      (lfn_chain 0 [0x41; 0xFFFF; 0x42] ++ [deleted_base]) [] []
      {| Fat32.files := []; Fat32.visited := [] |}
    = Some (Done {| Fat32.files := [file]; Fat32.visited := [] |})
    /\ Fat32.display_name file = [z2b 0x41]
    /\ Fat32.display_name file <> string_of_utf16 [0x41; 0xFFFF; 0x42].
Proof.
  eexists. split; [vm_compute; reflexivity|].
  split; [vm_compute; reflexivity|]. vm_compute. discriminate.
Qed.

(* ------------------------------------------------------------------ *)
(** ** FAT32: extraction of a contiguous file *)

Lemma bytes_at_app (f : Z -> byte) (off : Z) (n m : nat) :
  Disk.bytes_at f off (n + m)
  = Disk.bytes_at f off n ++ Disk.bytes_at f (off + Z.of_nat n) m.
Proof.
  unfold Disk.bytes_at. now rewrite zseq_app, map_app.
Qed.

Lemma slice_prefix_bytes_at (f : Z -> byte) (off : Z) (n : nat) (j : Z) :
  0 <= j <= Z.of_nat n ->
  slice (Disk.bytes_at f off n) 0 j = Disk.bytes_at f off (Z.to_nat j).
Proof.
  intros Hj. rewrite <- (app_nil_r (Disk.bytes_at f off n)).
  rewrite slice_bytes_at by lia. rewrite Z.add_0_r, Z.sub_0_r. reflexivity.
Qed.

Section Contiguous.

Variables (im : Disk.image) (p : Fat32.Parser).
Hypothesis Hreader : Fat32.reader p = Disk.Open im.

Let cs := Fat32.clusterSz p.
Let f := Disk.f_byte im.

Variables (c size : Z).
Let start := Fat32.dataStart p + (c - 2) * cs.

Hypothesis Hcs : 0 < cs < 2 ^ 32.
Hypothesis Hc : 2 <= c.
Hypothesis Hstart : 0 <= start.
Hypothesis Hsize : 0 <= size.

(** A cluster that lies inside the image is read in full. *)
Lemma readCluster_inside (j : Z) :
  0 <= j -> c + j < 2 ^ 32 -> start + (j + 1) * cs <= Disk.f_size im ->
  Fat32.readCluster p (c + j)
  = inl (Disk.bytes_at f (start + j * cs) (Z.to_nat cs)).
Proof.
  intros Hj Hw Hin. unfold Fat32.readCluster, Fat32.clusterToOffset.
  unfold wrapu32. rewrite Z.mod_small by lia. fold cs.
  replace (Fat32.dataStart p + (c + j - 2) * cs) with (start + j * cs)
    by (unfold start; ring).
  rewrite Hreader. cbn [Disk.ReadAt Disk.Open].
  rewrite file_ReadAt_inside by nia.
  rewrite fill_whole; [reflexivity|].
  unfold Disk.zeros. now rewrite repeat_length, bytes_at_length.
Qed.

(** The extraction loop after [j] whole clusters. *)
Lemma recover_loop_contiguous :
  forall (todo : nat) (j written : Z),
    0 <= j -> (written < size -> c + j + Z.of_nat todo < 2 ^ 32) ->
    size < 2 ^ 32 ->
    written = size \/ (written = j * cs /\ written <= size) ->
    size <= written + Z.of_nat todo * cs ->
    (written < size ->
     start + (j + Z.of_nat todo) * cs <= Disk.f_size im) ->
    Fat32.recover_loop p size todo (c + j) written
      (Disk.bytes_at f start (Z.to_nat written))
    = Fat32.Wrote (Disk.bytes_at f start (Z.to_nat size)) None.
Proof.
  induction todo as [|todo IH]; intros j written Hj Hw Hs32 Hinv Hcover Hin.
  - cbn [Fat32.recover_loop]. replace written with size by lia. reflexivity.
  - cbn [Fat32.recover_loop].
    destruct (Z.ltb_spec written size) as [Hlt|Hge];
      [|replace written with size by lia; reflexivity].
    destruct Hinv as [->|[Hwj Hle]]; [lia|].
    specialize (Hin Hlt). specialize (Hw Hlt).
    assert (Hw0 : 0 <= written) by nia.
    rewrite readCluster_inside by nia.
    assert (Hlen : len (Disk.bytes_at f (start + j * cs) (Z.to_nat cs)) = cs)
      by (unfold len; rewrite bytes_at_length; lia).
    rewrite Hlen. unfold wrapu32.
    rewrite (Z.mod_small cs), (Z.mod_small (size - written)) by lia.
    set (toWrite := if cs >? size - written then size - written else cs).
    assert (HtW : toWrite = Z.min cs (size - written)).
    { subst toWrite. destruct (Z.gtb_spec cs (size - written)); lia. }
    rewrite (Z.mod_small (written + toWrite)), (Z.mod_small (c + j + 1))
      by lia.
    rewrite slice_prefix_bytes_at by lia.
    replace (start + j * cs) with (start + Z.of_nat (Z.to_nat written))
      by lia.
    rewrite <- bytes_at_app.
    replace (Z.to_nat written + Z.to_nat toWrite)%nat
      with (Z.to_nat (written + toWrite)) by lia.
    replace (c + j + 1) with (c + (j + 1)) by lia.
    apply IH; lia.
Qed.

End Contiguous.

(** The first [size] bytes from the start of the first cluster are what
    the extraction writes, when the file is no directory, the sum
    [size + clusterSz - 1] does not wrap around in uint32 and the clusters
    of the file lie inside the image.  The last cluster is read in full
    even when only a part of it is written. *)
Theorem fat32_recover_contiguous (im : Disk.image) (p : Fat32.Parser)
        (file : Fat32.RecoveredFile) :
  let cs := Fat32.clusterSz p in
  let c := Fat32.FirstCluster file in
  let size := Fat32.Size file in
  let start := Fat32.dataStart p + (c - 2) * cs in
  let clusters := (size + cs - 1) / cs in
  Fat32.reader p = Disk.Open im ->
  Fat32.IsDirectory file = false ->
  0 < cs < 2 ^ 32 -> 2 <= c -> 0 <= start -> 0 <= size ->
  size + cs - 1 < 2 ^ 32 ->
  c + clusters < 2 ^ 32 ->
  start + clusters * cs <= Disk.f_size im ->
  Fat32.clusterToOffset p c = start
  /\ Fat32.RecoverFile p file
     = Done (Fat32.Wrote (Disk.bytes_at (Disk.f_byte im) start
                                        (Z.to_nat size)) None).
Proof.
  intros cs c size start clusters Hr Hdir Hcs Hc Hstart Hsize Hov Hcl Hin.
  assert (Hdm : size + cs - 1 = cs * clusters + (size + cs - 1) mod cs)
    by (apply Z.div_mod; lia).
  pose proof (Z.mod_pos_bound (size + cs - 1) cs (proj1 Hcs)) as Hmod.
  assert (Hcl0 : 0 <= clusters) by (apply Z.div_pos; lia).
  split.
  - unfold Fat32.clusterToOffset, wrapu32. fold c cs.
    rewrite Z.mod_small by nia. reflexivity.
  - unfold Fat32.RecoverFile. rewrite Hdir. fold cs size c.
    unfold wrapu32 at 1. rewrite Z.mod_small by lia.
    destruct (Z.eqb_spec cs 0); [lia|]. f_equal.
    unfold Fat32.clustersNeeded, wrapu32. fold cs.
    rewrite (Z.mod_small cs), (Z.mod_small (size + cs - 1)) by lia.
    fold clusters.
    set (N := if clusters =? 0 then 1 else clusters).
    assert (HN : 1 <= N /\ (N = clusters \/ (clusters = 0 /\ N = 1)))
      by (subst N; destruct (Z.eqb_spec clusters 0); lia).
    replace c with (c + 0) at 1 by lia.
    change (@nil byte) with (Disk.bytes_at (Disk.f_byte im) start (Z.to_nat 0)).
    apply (recover_loop_contiguous im p Hr c size); fold cs;
      rewrite ?Z2Nat.id by lia; try lia; try nia.
Qed.

(** A deleted file of 5000 bytes that starts at cluster 3. *)
Definition small_file : Fat32.RecoveredFile :=
  {| Fat32.Name := []; Fat32.LongName := []; Fat32.Path := [];
     Fat32.FirstCluster := 3; Fat32.Size := 5000;
     Fat32.IsDirectory := false; Fat32.IsDeleted := true |}.

Lemma fat32_recover_contiguous_witness :
  Fat32.clusterToOffset big_parser 3 = 4096
  /\ Fat32.RecoverFile big_parser small_file
     = Done (Fat32.Wrote (Disk.bytes_at (Disk.f_byte big_volume) 4096 5000)
                         None).
Proof.
  apply (fat32_recover_contiguous big_volume big_parser small_file).
  - reflexivity.
  - reflexivity.
  - vm_compute. split; reflexivity.
  - vm_compute. discriminate.
  - vm_compute. discriminate.
  - vm_compute. discriminate.
  - vm_compute. reflexivity.
  - vm_compute. reflexivity.
  - vm_compute. discriminate.
Defined.

(* ------------------------------------------------------------------ *)
(** ** FAT32: a boot sector with a zero field *)

(** The parser built on an image that holds a whole boot sector. *)
Lemma readBootSector_image (im : Disk.image) :
  512 <= Disk.f_size im ->
  exists p,
    Fat32.NewParser (Disk.Open im) = inl p
    /\ Fat32.reader p = Disk.Open im
    /\ Fat32.clusterSz p
       = b2z (Disk.f_byte im 13)
         * Z.lor (b2z (Disk.f_byte im 11))
                 (Z.shiftl (b2z (Disk.f_byte im 12)) 8).
Proof.
  intros Hs. unfold Fat32.NewParser, Fat32.readBootSector.
  cbn [Disk.ReadAt Disk.Open].
  rewrite file_ReadAt_inside by lia.
  rewrite fill_whole
    by (unfold Disk.zeros; now rewrite repeat_length, bytes_at_length).
  eexists. split; [reflexivity|]. split; [reflexivity|].
  cbn [Fat32.clusterSz Fat32.SectorsPerCluster Fat32.BytesPerSector].
  unfold le16. rewrite !at_bytes_at by (simpl; lia). reflexivity.
Qed.

(** A boot sector whose bytes-per-sector or sectors-per-cluster field is
    zero is accepted, and the parser it gives has a cluster size of zero:
    extracting any entry that is no directory then divides by zero, while
    a directory entry is still created. *)
Theorem fat32_zero_cluster_size_panics (im : Disk.image)
        (file : Fat32.RecoveredFile) :
  512 <= Disk.f_size im ->
  (b2z (Disk.f_byte im 11) = 0 /\ b2z (Disk.f_byte im 12) = 0)
  \/ b2z (Disk.f_byte im 13) = 0 ->
  exists p,
    Fat32.NewParser (Disk.Open im) = inl p
    /\ Fat32.clusterSz p = 0
    /\ Fat32.RecoverFile p file
       = if Fat32.IsDirectory file then Done Fat32.MadeDir else Panic.
Proof.
  intros Hs Hz.
  destruct (readBootSector_image im Hs) as (p & Ep & _ & Ecs).
  assert (E0 : Fat32.clusterSz p = 0).
  { rewrite Ecs. destruct Hz as [[-> ->]| ->]; [|reflexivity].
    cbn. lia. }
  exists p. split; [exact Ep|]. split; [exact E0|].
  unfold Fat32.RecoverFile. rewrite E0. reflexivity.
Qed.

Lemma fat32_zero_cluster_size_panics_witness :
  exists p,
    Fat32.NewParser (Disk.Open (zero_image 1024)) = inl p
    /\ Fat32.clusterSz p = 0
    /\ Fat32.RecoverFile p small_file = Panic.
Proof.
  apply (fat32_zero_cluster_size_panics (zero_image 1024) small_file).
  - vm_compute. discriminate.
  - left. split; reflexivity.
Defined.

(* ------------------------------------------------------------------ *)
(** ** FAT32: what the directory scan reports *)

(** What holds of an entry the scan appends: it is deleted and its
    display name is neither [.] nor [..]. *)
Definition reported (file : Fat32.RecoveredFile) : Prop :=
  Fat32.IsDeleted file = true
  /\ Fat32.is_dot_name (Fat32.display_name file) = false.

(** [st'] comes from [st] by appending reported entries and marking
    clusters. *)
Definition extends (st st' : Fat32.scan_state) : Prop :=
  (exists added,
      Fat32.files st' = Fat32.files st ++ added /\ Forall reported added)
  /\ incl (Fat32.visited st) (Fat32.visited st').

Lemma extends_refl (st : Fat32.scan_state) : extends st st.
Proof.
  split; [exists []; split; [now rewrite app_nil_r|constructor]|].
  apply incl_refl.
Qed.

Lemma extends_trans (st1 st2 st3 : Fat32.scan_state) :
  extends st1 st2 -> extends st2 st3 -> extends st1 st3.
Proof.
  intros [(a1 & E1 & H1) I1] [(a2 & E2 & H2) I2]. split.
  - exists (a1 ++ a2). split; [now rewrite E2, E1, app_assoc|].
    apply Forall_app. now split.
  - eapply incl_tran; eassumption.
Qed.

Lemma extends_add_file (st : Fat32.scan_state) (file : Fat32.RecoveredFile) :
  reported file -> extends st (Fat32.add_file st file).
Proof.
  intros H. split; [|apply incl_refl].
  exists [file]. split; [reflexivity|]. now constructor.
Qed.

Lemma extends_mark_visited (st : Fat32.scan_state) (cluster : Z) :
  extends st (Fat32.mark_visited st cluster).
Proof.
  split; [exists []; split; [now rewrite app_nil_r|constructor]|].
  apply incl_tl, incl_refl.
Qed.

Section EntriesInvariant.

Variable recurse :
  Z -> list gostring -> Fat32.scan_state
  -> option (outcome Fat32.scan_state).
Hypothesis Hrecurse :
  forall c path st st', recurse c path st = Some (Done st') -> extends st st'.

Lemma scan_entries_extends :
  forall entries path parts st st',
    Fat32.scan_entries recurse entries path parts st = Some (Done st') ->
    extends st st'.
Proof.
  induction entries as [|entry rest IH]; intros path parts st st' H;
    cbn [Fat32.scan_entries] in H.
  - injection H as <-. apply extends_refl.
  - destruct (len entry <? Fat32.DirEntrySize); [discriminate H|].
    destruct (b2z (at_ entry 0) =? 0);
      [injection H as <-; apply extends_refl|].
    destruct (b2z (at_ entry 11) =? Fat32.LFNAttribute);
      [now apply IH in H|].
    destruct (negb (Z.land (b2z (at_ entry 11)) Fat32.AttrVolumeLabel =? 0));
      [now apply IH in H|].
    set (file := Fat32.base_entry path parts entry) in *.
    destruct (Fat32.is_dot_name (Fat32.display_name file)) eqn:Hdot;
      [now apply IH in H|].
    assert (Hadd : extends st (if Fat32.IsDeleted file
                               then Fat32.add_file st file else st)).
    { destruct (Fat32.IsDeleted file) eqn:Hdel; [|apply extends_refl].
      apply extends_add_file. now split. }
    destruct (Fat32.IsDirectory file && negb (Fat32.IsDeleted file)
              && (2 <=? Fat32.FirstCluster file)).
    + destruct (recurse _ _ _) as [[st1|]|] eqn:Hr; try discriminate H.
      apply Hrecurse in Hr. apply IH in H.
      eapply extends_trans; [exact Hadd|].
      eapply extends_trans; eassumption.
    + apply IH in H. eapply extends_trans; eassumption.
Qed.

End EntriesInvariant.

Lemma scanDirectory_extends (p : Fat32.Parser) :
  forall fuel cluster path st st' e,
    Fat32.scanDirectory p fuel cluster path st = Some (Done (st', e)) ->
    extends st st'.
Proof.
  induction fuel as [|fuel IH]; intros cluster path st st' e H;
    cbn [Fat32.scanDirectory] in H; [discriminate H|].
  destruct (negb (cluster =? 0) && (cluster <? Fat32.ClusterEndMarker));
    [|injection H as <- <-; apply extends_refl].
  destruct (Fat32.is_visited st cluster);
    [injection H as <- <-; apply extends_refl|].
  destruct (Fat32.readCluster p cluster) as [data|err];
    [|injection H as <- <-; apply extends_mark_visited].
  match type of H with
  | match Fat32.scan_entries ?r _ _ _ _ with _ => _ end = _ =>
    set (recurse := r) in H
  end.
  assert (Hrec : forall c pth s s',
             recurse c pth s = Some (Done s') -> extends s s').
  { intros c pth s s' Hr. unfold recurse in Hr.
    destruct (Fat32.scanDirectory p fuel c pth s) as [[[s1 e1]|]|] eqn:Es;
      try discriminate Hr.
    injection Hr as <-. eapply IH. eassumption. }
  destruct (Fat32.scan_entries recurse (Fat32.slots data) path []
              (Fat32.mark_visited st cluster)) as [[st1|]|] eqn:Ee;
    try discriminate H.
  apply (scan_entries_extends recurse Hrec) in Ee.
  assert (Hst1 : extends st st1)
    by (eapply extends_trans; [apply extends_mark_visited|exact Ee]).
  destruct (cluster <? len (Fat32.fatTable p)).
  - apply IH in H. eapply extends_trans; eassumption.
  - injection H as <- <-. exact Hst1.
Qed.


(** [l], filled with zero bytes up to [n] bytes. *)
Definition padded (n : nat) (l : list byte) : list byte :=
  l ++ repeat Byte.x00 (n - length l).

(** An image with the content [bytes]. *)
Definition image_of (bytes : list byte) : Disk.image :=
  {| Disk.f_size := len bytes;
     Disk.f_byte := fun i => nth (Z.to_nat i) bytes Byte.x00 |}.

(** A FAT32 volume of three sectors: the boot sector (512-byte sectors,
    one sector per cluster, one reserved sector, one FAT of one sector,
    root directory at cluster 2), the FAT, and the root directory, which
    holds the chain of [long_name], its deleted base entry and the end
    marker. *)
Definition tiny_volume : Disk.image :=
  image_of
    (padded 512 (map z2b (repeat 0 11 ++ [0; 2; 1; 1; 0; 1]
                          ++ repeat 0 15 ++ [3; 0; 0; 0; 1; 0; 0; 0]
                          ++ repeat 0 4 ++ [2; 0; 0; 0]))
     ++ padded 512 (map z2b [0xF8; 0xFF; 0xFF; 0x0F; 0xFF; 0xFF; 0xFF; 0x0F;
                             0xFF; 0xFF; 0xFF; 0x0F])
     ++ padded 512 (concat (lfn_chain 0 long_name) ++ deleted_base)).

Definition tiny_parser : Fat32.Parser :=
  {| Fat32.reader := Disk.Open tiny_volume;
     Fat32.bootSector :=
       {| Fat32.BytesPerSector := 512; Fat32.SectorsPerCluster := 1;
          Fat32.ReservedSectors := 1; Fat32.NumFATs := 1;
          Fat32.TotalSectors32 := 3; Fat32.FATSize32 := 1;
          Fat32.RootCluster := 2 |};
     Fat32.fatStart := 512; Fat32.dataStart := 1024; Fat32.clusterSz := 512;
     Fat32.fatTable := [] |}.

Lemma tiny_parser_built :
  Fat32.NewParser (Disk.Open tiny_volume) = inl tiny_parser.
Proof. reflexivity. Qed.



(* ------------------------------------------------------------------ *)
(** ** FAT32: the directory scan returns *)

Lemma filter_length_mono {A} (p q : A -> bool) (l : list A) :
  (forall x, In x l -> q x = true -> p x = true) ->
  (length (filter q l) <= length (filter p l))%nat.
Proof.
  induction l as [|x l IH]; intros H; [reflexivity|]. cbn [filter].
  assert (IH' := IH (fun y Hy => H y (or_intror Hy))).
  specialize (H x (or_introl eq_refl)).
  destruct (q x); destruct (p x); cbn [length];
    first [lia | now specialize (H eq_refl)].
Qed.

Lemma filter_length_drop {A} (p q : A -> bool) (l : list A) (c : A) :
  (forall x, In x l -> q x = true -> p x = true) ->
  In c l -> p c = true -> q c = false ->
  (length (filter q l) < length (filter p l))%nat.
Proof.
  induction l as [|x l IH]; intros H Hin Hp Hq; [contradiction|].
  cbn [filter].
  assert (Hl := fun y Hy => H y (or_intror Hy)).
  pose proof (filter_length_mono p q l Hl) as Hmono.
  specialize (H x (or_introl eq_refl)).
  destruct Hin as [->|Hin].
  - rewrite Hp, Hq. cbn [length]. lia.
  - specialize (IH Hl Hin Hp Hq).
    destruct (q x); destruct (p x); cbn [length];
      first [lia | now specialize (H eq_refl)].
Qed.

(** The clusters a scan may still enter: those of the range
    [1, ClusterEndMarker) that are not marked. *)
Definition unvisited (st : Fat32.scan_state) : nat :=
  length (filter (fun c => negb (Fat32.is_visited st c))
                 (zseq 1 (Z.to_nat (Fat32.ClusterEndMarker - 1)))).

Lemma unvisited_visited (st st' : Fat32.scan_state) :
  Fat32.visited st = Fat32.visited st' -> unvisited st = unvisited st'.
Proof.
  unfold unvisited, Fat32.is_visited. intros E. rewrite E. reflexivity.
Qed.

Lemma is_visited_incl (st st' : Fat32.scan_state) (c : Z) :
  incl (Fat32.visited st) (Fat32.visited st') ->
  Fat32.is_visited st c = true -> Fat32.is_visited st' c = true.
Proof.
  unfold Fat32.is_visited. intros Hincl H.
  apply existsb_exists in H. destruct H as (x & Hx & E).
  apply existsb_exists. exists x. split; [now apply Hincl|exact E].
Qed.

Lemma unvisited_extends (st st' : Fat32.scan_state) :
  extends st st' -> (unvisited st' <= unvisited st)%nat.
Proof.
  intros [_ Hincl]. apply filter_length_mono. intros c _ H.
  destruct (Fat32.is_visited st c) eqn:E; [|reflexivity].
  now rewrite (is_visited_incl st st' c Hincl E) in H.
Qed.

Lemma unvisited_mark (st : Fat32.scan_state) (cluster : Z) :
  0 < cluster < Fat32.ClusterEndMarker ->
  Fat32.is_visited st cluster = false ->
  (unvisited (Fat32.mark_visited st cluster) < unvisited st)%nat.
Proof.
  intros Hc Hv. apply filter_length_drop with (c := cluster).
  - intros c _ H.
    destruct (Fat32.is_visited st c) eqn:E; [|reflexivity].
    rewrite (is_visited_incl st (Fat32.mark_visited st cluster) c) in H;
      [exact H|apply incl_tl, incl_refl|exact E].
  - apply in_zseq. lia.
  - now rewrite Hv.
  - unfold Fat32.is_visited, Fat32.mark_visited. cbn [Fat32.visited existsb].
    now rewrite Z.eqb_refl.
Qed.

Section EntriesReturn.

Variable recurse :
  Z -> list gostring -> Fat32.scan_state
  -> option (outcome Fat32.scan_state).
Variable bound : nat.
Hypothesis Hextends :
  forall c path st st', recurse c path st = Some (Done st') -> extends st st'.
Hypothesis Hreturns :
  forall c path st,
    2 <= c -> (unvisited st <= bound)%nat ->
    exists res, recurse c path st = Some res.

Lemma scan_entries_returns :
  forall entries path parts st,
    (unvisited st <= bound)%nat ->
    exists res, Fat32.scan_entries recurse entries path parts st = Some res.
Proof.
  induction entries as [|entry rest IH]; intros path parts st Hm;
    cbn [Fat32.scan_entries]; [eexists; reflexivity|].
  destruct (len entry <? Fat32.DirEntrySize); [eexists; reflexivity|].
  destruct (b2z (at_ entry 0) =? 0); [eexists; reflexivity|].
  destruct (b2z (at_ entry 11) =? Fat32.LFNAttribute); [now apply IH|].
  destruct (negb (Z.land (b2z (at_ entry 11)) Fat32.AttrVolumeLabel =? 0));
    [now apply IH|].
  set (file := Fat32.base_entry path parts entry).
  destruct (Fat32.is_dot_name (Fat32.display_name file)); [now apply IH|].
  set (st1 := if Fat32.IsDeleted file then Fat32.add_file st file else st).
  assert (Hm1 : (unvisited st1 <= bound)%nat).
  { subst st1. destruct (Fat32.IsDeleted file); [|exact Hm].
    rewrite (unvisited_visited (Fat32.add_file st file) st eq_refl).
    exact Hm. }
  destruct (Fat32.IsDirectory file && negb (Fat32.IsDeleted file)) eqn:Ed;
    cbn [andb]; [|now apply IH].
  destruct (Z.leb_spec 2 (Fat32.FirstCluster file)); [|now apply IH].
  destruct (Hreturns (Fat32.FirstCluster file) (Fat32.Path file) st1)
    as [[st2|] Er]; try assumption; rewrite Er; [|eexists; reflexivity].
  apply IH. apply Hextends in Er. apply unvisited_extends in Er. lia.
Qed.

End EntriesReturn.

Lemma nth_nonneg (l : list Z) (n : nat) :
  Forall (fun x => 0 <= x) l -> 0 <= nth n l 0.
Proof.
  intros H. revert n. induction H as [|x l Hx _ IH]; intros [|n]; simpl;
    auto; lia.
Qed.

(** Each level of the scan marks a cluster that was not marked before, so
    as much fuel as there are unmarked clusters, and one more, is
    enough. *)
Lemma scanDirectory_returns (p : Fat32.Parser) :
  Forall (fun x => 0 <= x) (Fat32.fatTable p) ->
  forall fuel cluster path st,
    0 <= cluster -> (unvisited st < fuel)%nat ->
    exists res, Fat32.scanDirectory p fuel cluster path st = Some res.
Proof.
  intros Hfat.
  induction fuel as [|fuel IH]; intros cluster path st Hc Hm; [lia|].
  cbn [Fat32.scanDirectory].
  destruct (Z.eqb_spec cluster 0); cbn [negb andb]; [eexists; reflexivity|].
  destruct (Z.ltb_spec cluster Fat32.ClusterEndMarker);
    [|eexists; reflexivity].
  destruct (Fat32.is_visited st cluster) eqn:Ev; [eexists; reflexivity|].
  destruct (Fat32.readCluster p cluster) as [data|err];
    [|eexists; reflexivity].
  pose proof (unvisited_mark st cluster ltac:(lia) Ev) as Hmark.
  set (st1 := Fat32.mark_visited st cluster) in *.
  set (recurse := fun c pth s =>
                    match Fat32.scanDirectory p fuel c pth s with
                    | Some (Done (s', _)) => Some (Done s')
                    | Some Panic => Some Panic
                    | None => None
                    end).
  assert (Hext : forall c pth s s',
             recurse c pth s = Some (Done s') -> extends s s').
  { intros c pth s s' Hr. unfold recurse in Hr.
    destruct (Fat32.scanDirectory p fuel c pth s) as [[[s1 e1]|]|] eqn:Es;
      try discriminate Hr.
    injection Hr as <-. eapply scanDirectory_extends. eassumption. }
  assert (Hret : forall c pth s,
             2 <= c -> (unvisited s <= unvisited st1)%nat ->
             exists res, recurse c pth s = Some res).
  { intros c pth s Hc2 Hs. unfold recurse.
    destruct (IH c pth s) as [[[s1 e1]|] E]; try lia; rewrite E;
      eexists; reflexivity. }
  destruct (scan_entries_returns recurse (unvisited st1) Hext Hret
              (Fat32.slots data) path [] st1 (Nat.le_refl _))
    as [[st2|] Ee]; fold recurse; rewrite Ee; [|eexists; reflexivity].
  apply (scan_entries_extends recurse Hext) in Ee.
  apply unvisited_extends in Ee.
  destruct (cluster <? len (Fat32.fatTable p)); [|eexists; reflexivity].
  apply IH; [now apply nth_nonneg|lia].
Qed.

Lemma unvisited_bound (st : Fat32.scan_state) :
  (unvisited st < Z.to_nat Fat32.ClusterEndMarker)%nat.
Proof.
  unfold unvisited.
  pose proof (filter_length_le
                (fun c => negb (Fat32.is_visited st c))
                (zseq 1 (Z.to_nat (Fat32.ClusterEndMarker - 1)))) as H.
  rewrite zseq_length in H. unfold Fat32.ClusterEndMarker in *. lia.
Qed.

Lemma loadFAT_nonneg (p p' : Fat32.Parser) :
  Fat32.loadFAT p = inl p' ->
  Forall (fun x => 0 <= x) (Fat32.fatTable p')
  /\ Fat32.bootSector p' = Fat32.bootSector p.
Proof.
  unfold Fat32.loadFAT. intros H.
  destruct (Disk.ReadAt _ _ _) as [data [e|]]; [discriminate H|].
  injection H as <-. cbn [Fat32.fatTable Fat32.bootSector].
  split; [|reflexivity]. apply Forall_forall. intros x Hx.
  apply in_map_iff in Hx. destruct Hx as (i & <- & _). apply le32_nonneg.
Qed.

(** The directory scan returns on every volume, whatever the directory
    entries and the FAT chain hold: a cluster is entered once only, also
    when directories or chains form a cycle, and there are fewer than
    0x0FFFFFF8 clusters to enter. *)
Theorem fat32_scan_terminates (p : Fat32.Parser) (fuel : nat) :
  (Z.to_nat Fat32.ClusterEndMarker <= fuel)%nat ->
  (forall cluster path st,
      Forall (fun x => 0 <= x) (Fat32.fatTable p) -> 0 <= cluster ->
      exists res, Fat32.scanDirectory p fuel cluster path st = Some res)
  /\ (0 <= Fat32.RootCluster (Fat32.bootSector p) ->
      exists res, Fat32.ScanDeletedFiles p fuel = Some res).
Proof.
  intros Hf. split.
  - intros cluster path st Hfat Hc.
    apply scanDirectory_returns; [assumption|assumption|].
    pose proof (unvisited_bound st). lia.
  - intros Hroot. unfold Fat32.ScanDeletedFiles.
    destruct (Fat32.loadFAT p) as [p'|e] eqn:El; [|eexists; reflexivity].
    destruct (loadFAT_nonneg p p' El) as [Hfat Hbs].
    destruct (scanDirectory_returns p' Hfat fuel
                (Fat32.RootCluster (Fat32.bootSector p')) []
                {| Fat32.files := []; Fat32.visited := [] |})
      as [[[st [e|]]|] E].
    + rewrite Hbs. exact Hroot.
    + pose proof (unvisited_bound
                    {| Fat32.files := []; Fat32.visited := [] |}). lia.
    + rewrite E. eexists; reflexivity.
    + rewrite E. eexists; reflexivity.
    + rewrite E. eexists; reflexivity.
Qed.

Lemma fat32_scan_terminates_witness :
  exists res,
    Fat32.ScanDeletedFiles tiny_parser (Z.to_nat Fat32.ClusterEndMarker)
    = Some res.
Proof.
  apply (fat32_scan_terminates tiny_parser (Z.to_nat Fat32.ClusterEndMarker)).
  - apply Nat.le_refl.
  - discriminate.
Defined.

(* ------------------------------------------------------------------ *)
(** ** The carver: every hit is a header on the device *)

Section ScanSound.

Variables (im : Disk.image) (sigs : list Carver.FileSignature).
Hypothesis Hsize : Disk.f_size im + 1024 * 1024 < 2 ^ 63.

Let c := Carver.SetSignatures (Carver.NewCarver (Disk.Open im)) sigs.

(** What holds of a hit: its signature is one of those in use, the
    header of the signature stands at its offset, and its size is the
    limit of the signature. *)
Let sound (h : Carver.CarvedFile) : Prop :=
  In (Carver.Signature h) sigs
  /\ occurs im (Carver.Signature h) (Carver.Offset h)
  /\ Carver.Size h = Carver.MaxSize (Carver.Signature h).

Lemma buffer_hits_sound (o n : Z) (rest : list byte) :
  0 <= o -> o + n <= Disk.f_size im ->
  Forall sound
    (Carver.buffer_hits sigs
       (Disk.bytes_at (Disk.f_byte im) o (Z.to_nat n) ++ rest) n o).
Proof.
  intros Ho Hn. apply Forall_forall. intros h Hh.
  unfold Carver.buffer_hits in Hh.
  apply in_flat_map in Hh. destruct Hh as (i & Hi & Hh).
  apply in_flat_map in Hh. destruct Hh as (s & Hs & Hh).
  apply in_zseq in Hi.
  destruct (sig_hit_in im Hsize o n i rest s h Ho ltac:(lia) Hn Hh)
    as [Hocc ->].
  repeat split; try assumption; apply Hocc.
Qed.

Lemma scan_loop_sound (b : Z) :
  forall (fuel : nat) (buf : list byte) (o : Z)
         (files : list Carver.CarvedFile)
         (res : list Carver.CarvedFile + Disk.error),
    0 < len buf <= 1024 * 1024 -> 0 <= o ->
    Forall sound files ->
    Carver.scan_loop c (Carver.scan_overlap b) fuel buf o files = Some res ->
    exists hits, res = inl hits /\ Forall sound hits.
Proof.
  induction fuel as [|fuel IH]; intros buf o files res Hbuf Ho Hfiles H;
    [discriminate H|].
  cbn [Carver.scan_loop] in H.
  change (Disk.Size (Carver.reader c)) with (Disk.f_size im) in H.
  change (Disk.ReadAt (Carver.reader c)) with (Disk.file_ReadAt im) in H.
  change (Carver.signatures c) with sigs in H.
  destruct (Z.ltb_spec o (Disk.f_size im));
    [|injection H as <-; eauto].
  destruct (file_ReadAt_at im (len buf) o) as (err & E & Herr); [lia|lia|].
  rewrite E in H.
  set (n := Z.min (len buf) (Disk.f_size im - o)) in *.
  assert (Hn : 1 <= n <= len buf) by (subst n; lia).
  assert (Hdata : len (Disk.bytes_at (Disk.f_byte im) o (Z.to_nat n)) = n)
    by (unfold len; rewrite bytes_at_length; lia).
  rewrite Hdata in H.
  destruct (Z.eqb_spec n 0); [lia|].
  pose proof (scan_advance_bounds n b ltac:(lia)) as Hadv.
  rewrite wrap64s_small in H by lia.
  assert (Hnext :
    exists hits, res = inl hits /\ Forall sound hits).
  { assert (H' :
      Carver.scan_loop c (Carver.scan_overlap b) fuel
        (Disk.fill buf (Disk.bytes_at (Disk.f_byte im) o (Z.to_nat n)))
        (o + Carver.scan_advance n (Carver.scan_overlap b))
        (files ++ Carver.buffer_hits sigs
                    (Disk.fill buf
                       (Disk.bytes_at (Disk.f_byte im) o (Z.to_nat n)))
                    n o) = Some res)
      by (destruct err as [[|]|]; [exact H|congruence|exact H]).
    apply IH in H'; [exact H'| |lia|].
    - rewrite fill_length; lia.
    - apply Forall_app. split; [exact Hfiles|].
      unfold Disk.fill. apply buffer_hits_sound; subst n; lia. }
  exact Hnext.
Qed.

End ScanSound.

(** The scan of an image file never fails, and every hit it returns is a
    real one: its signature is among those in use, the bytes of the
    device at its offset are the header of that signature, with the whole
    header inside the device, and its size is the signature's limit. *)
Theorem carver_scan_sound (im : Disk.image)
        (sigs : list Carver.FileSignature) (fuel : nat)
        (res : list Carver.CarvedFile + Disk.error) :
  Disk.f_size im + 1024 * 1024 < 2 ^ 63 ->
  Carver.Scan (Carver.SetSignatures (Carver.NewCarver (Disk.Open im)) sigs)
              fuel = Some res ->
  exists hits,
    res = inl hits
    /\ Forall (fun h =>
                 In (Carver.Signature h) sigs
                 /\ occurs im (Carver.Signature h) (Carver.Offset h)
                 /\ Carver.Size h = Carver.MaxSize (Carver.Signature h))
              hits.
Proof.
  intros Hsize H. unfold Carver.Scan in H.
  pose proof (scan_bufSize_bounds (Disk.Open im) sigs) as HB.
  apply (scan_loop_sound im sigs Hsize) in H; [exact H| |lia|constructor].
  rewrite zeros_length; lia.
Qed.

Lemma carver_scan_sound_witness :
  exists hits,
    @inl _ Disk.error [mk_hit sig_jpeg 1500; mk_hit sig_jpeg 1500] = inl hits
    /\ Forall (fun h =>
                 In (Carver.Signature h) Carver.Signatures
                 /\ occurs (jpeg_at 2048 1500) (Carver.Signature h)
                           (Carver.Offset h)
                 /\ Carver.Size h = Carver.MaxSize (Carver.Signature h))
              hits.
Proof.
  apply (carver_scan_sound (jpeg_at 2048 1500) Carver.Signatures 3).
  - vm_compute. reflexivity.
  - vm_compute. reflexivity.
Defined.

(* ------------------------------------------------------------------ *)
(** ** The carver: the content of an extracted file *)

Section RecoverContent.

Variable im : Disk.image.
Let f := Disk.f_byte im.
Let size := Disk.f_size im.

(** What is left of the device from [offset], at most [budget] bytes. *)
Let avail (budget offset : Z) : Z := Z.min budget (Z.max 0 (size - offset)).

(** Without a footer the loop copies the device until the budget or the
    device is used up. *)
Lemma recover_loop_no_footer (maxSize : Z) :
  forall (fuel : nat) (buf : list byte) (written offset : Z)
         (out : list byte),
    len buf = 64 * 1024 ->
    0 <= written <= maxSize -> 0 <= offset ->
    offset + (maxSize - written) < 2 ^ 63 ->
    (Z.to_nat (maxSize - written) < fuel)%nat ->
    Carver.recover_loop (Disk.Open im) [] maxSize fuel buf written offset out
    = Some (out ++ Disk.bytes_at f offset
                     (Z.to_nat (avail (maxSize - written) offset))).
Proof.
  induction fuel as [|fuel IH]; intros buf written offset out Hbuf Hw Ho
    Hwrap Hf; [lia|].
  cbn [Carver.recover_loop]. unfold avail.
  destruct (Z.ltb_spec written maxSize) as [Hlt|Hge].
  2:{ replace (Z.to_nat _) with 0%nat by lia. cbn. now rewrite app_nil_r. }
  cbn [Disk.ReadAt Disk.Open]. rewrite Hbuf.
  set (toRead := Z.min (64 * 1024) (maxSize - written)).
  destruct (Z.lt_ge_cases offset size) as [Hin|Hout].
  - destruct (file_ReadAt_at im toRead offset) as (err & E & Herr);
      [subst toRead; lia|fold size; lia|].
    rewrite E. fold f size.
    set (n := Z.min toRead (size - offset)).
    assert (Hn : 1 <= n <= toRead) by (subst n toRead; lia).
    assert (Hdata : len (Disk.bytes_at f offset (Z.to_nat n)) = n)
      by (unfold len; rewrite bytes_at_length; lia).
    rewrite Hdata.
    destruct (Z.eqb_spec n 0); [lia|].
    change (0 <? len (@nil byte)) with false. cbn [Z.leb Z.compare].
    rewrite wrap64s_small by (subst toRead; lia).
    assert (Hslice :
      slice (Disk.fill buf (Disk.bytes_at f offset (Z.to_nat n))) 0 n
      = Disk.bytes_at f offset (Z.to_nat n)).
    { unfold Disk.fill. rewrite slice_bytes_at by lia.
      now rewrite Z.add_0_r, Z.sub_0_r. }
    rewrite Hslice.
    assert (Hrec :
      Carver.recover_loop (Disk.Open im) [] maxSize fuel
        (Disk.fill buf (Disk.bytes_at f offset (Z.to_nat n)))
        (written + n) (offset + n)
        (out ++ Disk.bytes_at f offset (Z.to_nat n))
      = Some (out ++ Disk.bytes_at f offset
                       (Z.to_nat (Z.min (maxSize - written)
                                        (Z.max 0 (size - offset)))))).
    { rewrite IH; try (subst toRead; lia).
      - unfold avail. rewrite <- app_assoc. do 2 f_equal.
        replace (offset + n) with (offset + Z.of_nat (Z.to_nat n)) by lia.
        rewrite <- bytes_at_app. f_equal. subst n toRead. lia.
      - rewrite fill_length; [exact Hbuf|]. subst toRead. lia. }
    destruct err as [[|]|]; [exact Hrec|congruence|exact Hrec].
  - unfold Disk.file_ReadAt. fold size.
    destruct (Z.ltb_spec offset 0); [lia|].
    destruct (Z.leb_spec toRead 0); [subst toRead; lia|].
    destruct (Z.leb_spec size offset); [|lia].
    cbn. replace (Z.to_nat _) with 0%nat by lia. cbn. now rewrite app_nil_r.
Qed.

End RecoverContent.

(** For a signature without footer the extracted file is the content of
    the device from the offset of the hit: [MaxSize] bytes of it (10 MiB
    for a [MaxSize] of 0), or what is left of the device when that is
    less. *)
Theorem carver_recover_no_footer (im : Disk.image) (file : Carver.CarvedFile)
        (fuel : nat) :
  let maxSize := Carver.recover_maxSize file in
  Carver.Footer (Carver.Signature file) = [] ->
  0 <= Carver.MaxSize (Carver.Signature file) ->
  0 <= Carver.Offset file ->
  Carver.Offset file + maxSize < 2 ^ 63 ->
  (Z.to_nat maxSize < fuel)%nat ->
  Carver.RecoverFile (Carver.NewCarver (Disk.Open im)) file fuel
  = Some (Disk.bytes_at (Disk.f_byte im) (Carver.Offset file)
            (Z.to_nat (Z.min maxSize
                             (Z.max 0 (Disk.f_size im - Carver.Offset file))))).
Proof.
  intros maxSize Hfoot Hmax Ho Hwrap Hf.
  unfold Carver.RecoverFile. rewrite Hfoot.
  cbn [Carver.reader Carver.NewCarver]. fold maxSize.
  assert (Hm : 0 <= maxSize).
  { subst maxSize. unfold Carver.recover_maxSize.
    destruct (Carver.MaxSize (Carver.Signature file) =? 0); lia. }
  rewrite (recover_loop_no_footer im maxSize); rewrite ?Z.sub_0_r;
    try lia; [reflexivity|].
  apply zeros_length. lia.
Qed.

(** A hit of a signature without footer and with a limit of 300 bytes,
    200 bytes before the end of a device of 4096 bytes. *)
Definition sig_plain : Carver.FileSignature :=
  Carver.sig "BMP" ".bmp" [0x42; 0x4D] [] 300.

Lemma carver_recover_no_footer_witness :
  Carver.RecoverFile (Carver.NewCarver (Disk.Open (jpeg_at 4096 0)))
    (mk_hit sig_plain 3896) 301
  = Some (Disk.bytes_at (Disk.f_byte (jpeg_at 4096 0)) 3896 200).
Proof.
  apply (carver_recover_no_footer (jpeg_at 4096 0) (mk_hit sig_plain 3896)
                                  301).
  - reflexivity.
  - vm_compute. discriminate.
  - vm_compute. discriminate.
  - vm_compute. reflexivity.
  - vm_compute. lia.
Defined.

Lemma has_prefix_firstn (s sep : list byte) :
  has_prefix s sep = true <-> firstn (length sep) s = sep.
Proof.
  revert s. induction sep as [|y sep IH]; intros s;
    [destruct s; split; reflexivity|].
  destruct s as [|x s]; cbn [has_prefix length firstn];
    [split; discriminate|].
  rewrite andb_true_iff, IH. split.
  - intros [Hx ->]. apply Byte.byte_dec_bl in Hx. now subst.
  - intros H. injection H as -> H. split; [|exact H].
    now apply Byte.byte_dec_lb.
Qed.

(** [bytes.Index] finds the first place where [sep] stands. *)
Lemma bytes_Index_from_first (sep : list byte) :
  forall (s : list byte) (pos idx : Z),
    bytes_Index_from s sep pos = idx -> 0 <= pos -> 0 <= idx ->
    pos <= idx
    /\ has_prefix (skipn (Z.to_nat (idx - pos)) s) sep = true
    /\ (forall j, pos <= j < idx ->
                  has_prefix (skipn (Z.to_nat (j - pos)) s) sep = false).
Proof.
  induction s as [|x s IH]; intros pos idx H Hpos Hidx.
  - unfold bytes_Index_from in H.
    destruct (has_prefix [] sep) eqn:E; [|lia]. subst idx.
    rewrite Z.sub_diag. repeat split; [lia|exact E|lia].
  - change (bytes_Index_from (x :: s) sep pos)
      with (if has_prefix (x :: s) sep then pos
            else bytes_Index_from s sep (pos + 1)) in H.
    destruct (has_prefix (x :: s) sep) eqn:E.
    + subst idx. rewrite Z.sub_diag. repeat split; [lia|exact E|lia].
    + destruct (IH (pos + 1) idx H ltac:(lia) Hidx) as (Hle & Hat & Hbefore).
      split; [lia|]. split.
      * replace (Z.to_nat (idx - pos)) with (S (Z.to_nat (idx - (pos + 1))))
          by lia. exact Hat.
      * intros j Hj. destruct (Z.eq_dec j pos) as [->|Hne].
        -- now rewrite Z.sub_diag.
        -- replace (Z.to_nat (j - pos)) with (S (Z.to_nat (j - (pos + 1))))
             by lia.
           apply Hbefore. lia.
Qed.

Lemma bytes_Index_from_found (sep : list byte) :
  forall (s : list byte) (pos : Z) (j : nat),
    has_prefix (skipn j s) sep = true ->
    pos <= bytes_Index_from s sep pos.
Proof.
  induction s as [|x s IH]; intros pos j H.
  - rewrite skipn_nil in H. unfold bytes_Index_from. rewrite H. lia.
  - change (bytes_Index_from (x :: s) sep pos)
      with (if has_prefix (x :: s) sep then pos
            else bytes_Index_from s sep (pos + 1)).
    destruct (has_prefix (x :: s) sep) eqn:E; [lia|].
    destruct j as [|j]; [cbn [skipn] in H; congruence|].
    cbn [skipn] in H. specialize (IH (pos + 1) j H). lia.
Qed.

Lemma skipn_bytes_at (f : Z -> byte) (off : Z) (n j : nat) :
  skipn j (Disk.bytes_at f off n) = Disk.bytes_at f (off + Z.of_nat j) (n - j).
Proof.
  unfold Disk.bytes_at. now rewrite skipn_map, skipn_zseq.
Qed.

Lemma firstn_bytes_at (f : Z -> byte) (off : Z) (n m : nat) :
  (m <= n)%nat -> firstn m (Disk.bytes_at f off n) = Disk.bytes_at f off m.
Proof.
  intros H. unfold Disk.bytes_at. now rewrite firstn_map, firstn_zseq.
Qed.

(** Where a separator stands in bytes read from the device. *)
Lemma has_prefix_bytes_at (f : Z -> byte) (off : Z) (n j : nat)
      (sep : list byte) :
  (j + length sep <= n)%nat ->
  has_prefix (skipn j (Disk.bytes_at f off n)) sep = true
  <-> Disk.bytes_at f (off + Z.of_nat j) (length sep) = sep.
Proof.
  intros H. rewrite has_prefix_firstn, skipn_bytes_at, firstn_bytes_at by lia.
  reflexivity.
Qed.

(** When the footer of the signature stands in the first chunk read at
    the hit (64 KiB, or less when the limit or the device is smaller), the
    extracted file is the content of the device from the offset of the hit
    up to the end of the first footer: it ends with the footer, and the
    footer stands nowhere before. *)
Theorem carver_recover_footer (im : Disk.image) (file : Carver.CarvedFile)
        (fuel : nat) (j : Z) :
  let footer := Carver.Footer (Carver.Signature file) in
  let off := Carver.Offset file in
  let f := Disk.f_byte im in
  let n := Z.min (Z.min (64 * 1024) (Carver.recover_maxSize file))
                 (Disk.f_size im - off) in
  footer <> [] ->
  0 <= off < Disk.f_size im ->
  0 <= j -> j + len footer <= n ->
  Disk.bytes_at f (off + j) (length footer) = footer ->
  (0 < fuel)%nat ->
  exists idx,
    0 <= idx <= j
    /\ Carver.RecoverFile (Carver.NewCarver (Disk.Open im)) file fuel
       = Some (Disk.bytes_at f off (Z.to_nat (idx + len footer)))
    /\ Disk.bytes_at f (off + idx) (length footer) = footer
    /\ (forall i, 0 <= i < idx ->
                  Disk.bytes_at f (off + i) (length footer) <> footer).
Proof.
  intros footer off f n Hne Hoff Hj Hjn Hat Hfuel.
  assert (Hlf : 0 < len footer).
  { unfold len. destruct footer; [contradiction|]. cbn [length]. lia. }
  set (data := Disk.bytes_at f off (Z.to_nat n)).
  assert (Hfound : has_prefix (skipn (Z.to_nat j) data) footer = true).
  { apply has_prefix_bytes_at; [unfold len in *; lia|].
    rewrite Z2Nat.id by lia. exact Hat. }
  pose proof (bytes_Index_from_found footer data 0 (Z.to_nat j) Hfound)
    as Hidx0.
  fold (bytes_Index data footer) in Hidx0.
  set (idx := bytes_Index data footer) in *.
  destruct (bytes_Index_from_first footer data 0 idx eq_refl
              (Z.le_refl 0) Hidx0) as (_ & Hhere & Hbefore).
  rewrite Z.sub_0_r in Hhere.
  assert (Hle : idx <= j).
  { destruct (Z.le_gt_cases idx j) as [H|H]; [exact H|].
    specialize (Hbefore j ltac:(lia)). rewrite Z.sub_0_r in Hbefore.
    congruence. }
  exists idx. split; [lia|]. split; [|split].
  - destruct fuel as [|fuel]; [lia|].
    unfold Carver.RecoverFile. cbn [Carver.recover_loop].
    cbn [Carver.reader Carver.NewCarver Disk.ReadAt Disk.Open].
    fold footer off.
    destruct (Z.ltb_spec 0 (Carver.recover_maxSize file)); [|lia].
    rewrite zeros_length, Z.sub_0_r by lia.
    destruct (file_ReadAt_at im
                (Z.min (64 * 1024) (Carver.recover_maxSize file)) off)
      as (err & E & Herr); [lia|exact Hoff|].
    rewrite E. fold f n data.
    assert (Hdata : len data = n)
      by (unfold len, data; rewrite bytes_at_length; lia).
    rewrite Hdata.
    destruct (Z.eqb_spec n 0); [lia|].
    destruct (Z.ltb_spec 0 (len footer)); [|lia].
    assert (Hslice : forall m, 0 <= m <= n ->
              slice (Disk.fill (Disk.zeros (64 * 1024)) data) 0 m
              = Disk.bytes_at f off (Z.to_nat m)).
    { intros m Hm. unfold Disk.fill, data.
      rewrite slice_bytes_at by lia. now rewrite Z.add_0_r, Z.sub_0_r. }
    rewrite (Hslice n) by lia. fold data idx.
    destruct (Z.leb_spec 0 idx); [|lia].
    rewrite Hslice by lia.
    destruct err as [[|]|]; [reflexivity|congruence|reflexivity].
  - apply has_prefix_bytes_at in Hhere; [|unfold len in *; lia].
    rewrite Z2Nat.id in Hhere by lia. exact Hhere.
  - intros i Hi E. specialize (Hbefore i ltac:(lia)).
    rewrite Z.sub_0_r in Hbefore.
    assert (Ht : has_prefix (skipn (Z.to_nat i) data) footer = true).
    { apply has_prefix_bytes_at; [unfold len in *; lia|].
      rewrite Z2Nat.id by lia. exact E. }
    congruence.
Qed.

(** A device of 4096 bytes with the JPEG header at 0 and the two footer
    bytes at 700 and 900. *)
Definition jpeg_file : Disk.image :=
  {| Disk.f_size := 4096;
     Disk.f_byte := fun i =>
       if (i =? 0) || (i =? 2) || (i =? 700) || (i =? 900) then z2b 0xFF
       else if i =? 1 then z2b 0xD8
       else if (i =? 701) || (i =? 901) then z2b 0xD9
       else z2b 0x11 |}.

Lemma carver_recover_footer_witness :
  exists idx,
    0 <= idx <= 900
    /\ Carver.RecoverFile (Carver.NewCarver (Disk.Open jpeg_file))
         (mk_hit sig_jpeg 0) 1
       = Some (Disk.bytes_at (Disk.f_byte jpeg_file) 0 (Z.to_nat (idx + 2)))
    /\ Disk.bytes_at (Disk.f_byte jpeg_file) (0 + idx) 2
       = map z2b [0xFF; 0xD9]
    /\ (forall i, 0 <= i < idx ->
                  Disk.bytes_at (Disk.f_byte jpeg_file) (0 + i) 2
                  <> map z2b [0xFF; 0xD9]).
Proof.
  apply (carver_recover_footer jpeg_file (mk_hit sig_jpeg 0) 1 900).
  - discriminate.
  - vm_compute. split; [discriminate|reflexivity].
  - discriminate.
  - vm_compute. discriminate.
  - vm_compute. reflexivity.
  - lia.
Defined.

(* ------------------------------------------------------------------ *)
(** ** NTFS: the size of an extracted file *)

Lemma ntfs_min_le (a b : Z) : Ntfs.min a b <= a /\ Ntfs.min a b <= b.
Proof. unfold Ntfs.min. destruct (Z.ltb_spec a b); lia. Qed.

Section NtfsBound.

Variables (p : Ntfs.Parser) (size : Z).
Hypothesis Hsize : 0 <= size < 2 ^ 64.

(** The bytes written so far are counted right and stay within the
    declared size. *)
Let inv (out : list byte) (written : Z) : Prop :=
  len out <= written <= size.

Lemma write_step (out buf : list byte) (written : Z) :
  inv out written ->
  let toWrite := Ntfs.min (len buf) (wrapu64 (size - written)) in
  inv (out ++ slice buf 0 toWrite) (wrapu64 (written + toWrite)).
Proof.
  intros Hinv toWrite. unfold inv in *. destruct Hinv as [Hl Hw].
  pose proof (len_nonneg out). pose proof (len_nonneg buf).
  assert (E : wrapu64 (size - written) = size - written)
    by (unfold wrapu64; apply Z.mod_small; lia).
  pose proof (ntfs_min_le (len buf) (wrapu64 (size - written))) as [H1 H2].
  fold toWrite in H1, H2. rewrite E in H2.
  assert (HtW : 0 <= toWrite).
  { subst toWrite. unfold Ntfs.min. rewrite E.
    destruct (len buf <? size - written); lia. }
  unfold wrapu64. rewrite Z.mod_small by lia.
  rewrite len_app. pose proof (slice_length_le buf 0 toWrite). lia.
Qed.

Lemma read_run_bound :
  forall (todo : nat) (offset c written : Z) (out : list byte),
    inv out written ->
    match Ntfs.read_run p size offset todo c written out with
    | (out', written', _) => inv out' written'
    end.
Proof.
  induction todo as [|todo IH]; intros offset c written out Hinv;
    cbn [Ntfs.read_run]; [exact Hinv|].
  destruct (written <? size); [|exact Hinv].
  destruct (Disk.ReadAt _ _ _) as [data [[|]|]]; try exact Hinv.
  apply IH. now apply write_step.
Qed.

Lemma recover_runs_bound :
  forall (runs : list Ntfs.DataRun) (written : Z) (out content : list byte)
         (err : option Disk.error),
    inv out written ->
    Ntfs.recover_runs p size runs written out
    = Done (Ntfs.Wrote content err) ->
    len content <= size.
Proof.
  induction runs as [|run rest IH]; intros written out content err Hinv H;
    cbn [Ntfs.recover_runs] in H.
  - injection H as <- _. unfold inv in Hinv. lia.
  - destruct (Ntfs.Offset run =? 0).
    + destruct (2 ^ 63 <=? _); [discriminate H|].
      eapply IH; [|exact H]. now apply write_step.
    + pose proof (read_run_bound (Z.to_nat (Ntfs.Length run))
                    (wrap64s (Ntfs.Offset run * Ntfs.clusterSize p)) 0
                    written out Hinv) as Hr.
      destruct (Ntfs.read_run _ _ _ _ _ _ _) as [[out' written'] [e|]].
      * injection H as <- _. unfold inv in Hr. lia.
      * eapply IH; eassumption.
Qed.

End NtfsBound.

(** Whatever the runs, the clusters and the reader, the NTFS extraction
    never writes more than the declared size of the file. *)
Theorem ntfs_recover_bounded (p : Ntfs.Parser) (file : Ntfs.RecoveredFile)
        (content : list byte) (err : option Disk.error) :
  0 <= Ntfs.Size file < 2 ^ 64 ->
  Ntfs.RecoverFile p file = Done (Ntfs.Wrote content err) ->
  len content <= Ntfs.Size file.
Proof.
  intros Hsize H. unfold Ntfs.RecoverFile in H.
  destruct (Ntfs.IsDirectory file); [discriminate H|].
  eapply (recover_runs_bound p (Ntfs.Size file) Hsize); [|exact H].
  cbn. change (len (@nil byte)) with 0. lia.
Qed.

(** The file of the sparse example with a declared size of 5000 bytes:
    the runs hold 16384 bytes. *)
Definition short_file : Ntfs.RecoveredFile :=
  {| Ntfs.Name := []; Ntfs.Path := []; Ntfs.MFTIndex := 30;
     Ntfs.ParentRef := 5; Ntfs.Size := 5000;
     Ntfs.IsDirectory := false; Ntfs.IsDeleted := true;
     Ntfs.DataRuns := sparse_runs |}.

Lemma ntfs_recover_bounded_witness :
  len (cluster_of 100 ++ firstn 904 (cluster_of 100)) <= 5000.
Proof.
  apply (ntfs_recover_bounded numbered_parser short_file
           (cluster_of 100 ++ firstn 904 (cluster_of 100)) None).
  - vm_compute. split; [discriminate|reflexivity].
  - vm_compute. reflexivity.
Defined.

(* ------------------------------------------------------------------ *)
(** ** NTFS: names in UTF-16 *)

Lemma map_zseq_shift {A} (g : Z -> A) (a : Z) (n : nat) :
  map g (zseq (a + 1) n) = map (fun i => g (i + 1)) (zseq a n).
Proof.
  unfold zseq. rewrite !map_map. apply map_ext. intros k. f_equal. lia.
Qed.

(** Reading the code units back from their bytes. *)
Lemma le16_enc_units :
  forall (us : list Z) (pre post : list byte),
    Forall (fun u => 0 <= u < 65536) us ->
    map (fun i => le16 (pre ++ enc_units us ++ post) (len pre + i * 2))
        (zseq 0 (length us))
    = us.
Proof.
  induction us as [|u us IH]; intros pre post Hus; [reflexivity|].
  inversion Hus as [|? ? Hu Hus']; subst.
  cbn [length]. rewrite zseq_S. cbn [map enc_units flat_map]. f_equal.
  - rewrite Z.add_0_r, <- app_assoc. now apply le16_enc_unit.
  - rewrite map_zseq_shift.
    specialize (IH (pre ++ enc_unit u) post Hus').
    etransitivity; [|exact IH]. apply map_ext. intros i.
    rewrite len_app. change (len (enc_unit u)) with 2.
    rewrite <- !app_assoc. f_equal. lia.
Qed.

Lemma decodeUTF16_enc_units (us : list Z) (tail : list byte) :
  Forall (fun u => 0 <= u < 65536) us ->
  (length tail <= 1)%nat ->
  Ntfs.decodeUTF16 (enc_units us ++ tail) = string_of_utf16 us.
Proof.
  intros Hus Htail. unfold Ntfs.decodeUTF16.
  assert (Hlen : len (enc_units us) = 2 * len us)
    by (unfold len; rewrite enc_units_length; lia).
  pose proof (len_nonneg us) as Hn.
  assert (Hdec : forall b, b = enc_units us ->
            string_of_utf16
              (map (fun i => le16 b (i * 2))
                   (zseq 0 (Z.to_nat (Z.quot (len b) 2))))
            = string_of_utf16 us).
  { intros b ->. rewrite Hlen.
    replace (Z.quot (2 * len us) 2) with (len us)
      by (rewrite Z.mul_comm, Z.quot_mul; lia).
    unfold len at 1. rewrite Nat2Z.id. f_equal.
    pose proof (le16_enc_units us [] [] Hus) as E.
    cbn [app] in E. rewrite app_nil_r in E. exact E. }
  destruct tail as [|x [|y tail]]; [| |cbn [length] in Htail; lia].
  - rewrite app_nil_r, Hlen.
    replace (Z.rem (2 * len us) 2) with 0
      by (rewrite Z.mul_comm, Z.rem_mul; lia).
    cbn [Z.eqb negb]. now apply Hdec.
  - rewrite len_app, len_cons, Hlen. change (len (@nil byte)) with 0.
    replace (Z.rem (2 * len us + (1 + 0)) 2) with 1.
    + cbn [Z.eqb negb]. apply Hdec.
      rewrite slice_app_l by lia.
      replace (2 * len us + (1 + 0) - 1) with (len (enc_units us)) by lia.
      apply slice_all.
    + rewrite Z.rem_mod_nonneg by lia.
      apply Z.mod_unique with (q := len us); lia.
Qed.

(** [decodeUTF16] gives back a name from its UTF-16LE bytes, and drops
    an odd byte at the end. *)
Theorem ntfs_decodeUTF16_roundtrip (us : list Z) (tail : list byte) :
  Forall (fun u => 0 <= u < 65536) us ->
  (length tail <= 1)%nat ->
  Ntfs.decodeUTF16 (enc_units us ++ tail) = string_of_utf16 us.
Proof.
  intros Hus Htail. now apply decodeUTF16_enc_units.
Qed.

Lemma ntfs_decodeUTF16_roundtrip_witness :
  Ntfs.decodeUTF16 (enc_units long_name ++ [z2b 0x41])
  = string_of_utf16 long_name.
Proof.
  apply (ntfs_decodeUTF16_roundtrip long_name [z2b 0x41]).
  - repeat constructor; vm_compute; congruence.
  - simpl. lia.
Defined.

Lemma at_skipn (l : list byte) (n : nat) (j : Z) :
  0 <= j -> at_ (skipn n l) j = at_ l (Z.of_nat n + j).
Proof.
  intros Hj. unfold at_. rewrite nth_skipn. f_equal. lia.
Qed.

Lemma slice_skipn {A} (l : list A) (n : nat) (i j : Z) :
  0 <= i -> slice (skipn n l) i j = slice l (Z.of_nat n + i) (Z.of_nat n + j).
Proof.
  intros Hi. unfold slice. rewrite skipn_skipn. do 2 f_equal; lia.
Qed.

(** The length guard of [parseFileNameAttr] adds [66 + nameLen*2] in
    uint8.  Up to a name length of 94 the sum does not wrap around: the
    function then returns without a panic for every attribute that lies
    inside its record, and a name it sets is decoded from bytes of the
    attribute. *)
Theorem ntfs_file_name_attr_safe (backing : list byte) (alen : Z)
        (file : Ntfs.RecoveredFile) :
  let valueOffset := le16 backing 20 in
  let nameLen := b2z (at_ backing (valueOffset + 64)) in
  alen <= len backing ->
  nameLen <= 94 ->
  exists file',
    Ntfs.parseFileNameAttr backing alen file = Done file'
    /\ (file' = file
        \/ (valueOffset + 66 + nameLen * 2 <= alen
            /\ Ntfs.Name file'
               = Ntfs.decodeUTF16
                   (slice backing (valueOffset + 66)
                          (valueOffset + 66 + nameLen * 2)))).
Proof.
  intros valueOffset nameLen Halen Hname.
  unfold Ntfs.parseFileNameAttr. fold valueOffset.
  pose proof (le16_nonneg backing 20) as Hvo. fold valueOffset in Hvo.
  destruct (alen <? 24 + 66); [eauto|].
  destruct (Z.gtb_spec (valueOffset + 66) alen); [eauto|].
  rewrite !at_skipn by lia. rewrite Z2Nat.id by lia. fold nameLen.
  pose proof (b2z_nonneg (at_ backing (valueOffset + 64))) as Hn0.
  fold nameLen in Hn0.
  destruct (_ && _); [eauto|].
  rewrite (Z.mod_small (66 + nameLen * 2)) by lia.
  destruct (Z.gtb_spec (66 + nameLen * 2) (alen - valueOffset)); [eauto|].
  assert (Hcap : len (skipn (Z.to_nat valueOffset) backing)
                 = len backing - valueOffset)
    by (unfold len; rewrite length_skipn; unfold len in Halen; lia).
  rewrite Hcap.
  destruct (Z.gtb_spec (66 + nameLen * 2) (len backing - valueOffset));
    [lia|].
  eexists. split; [reflexivity|]. right. split; [lia|].
  cbn [Ntfs.Name]. rewrite slice_skipn by lia. rewrite Z2Nat.id by lia.
  do 2 f_equal. lia.
Qed.

(** A resident $FILE_NAME attribute: a header of 24 bytes with the
    attribute length at 4 and the value offset 24 at 20, then the value:
    the parent reference [ref8], 56 bytes of times, sizes and flags, the
    name length, the name type [ty] and the name in UTF-16LE. *)
Definition file_name_attr (ref8 : list byte) (ty : Z) (us : list Z)
  : list byte :=
  let total := 24 + 66 + 2 * len us in
  map z2b [0x30; 0; 0; 0; total; total / 256; 0; 0] ++ repeat Byte.x00 12
  ++ map z2b [24; 0; 0; 0]
  ++ ref8 ++ repeat Byte.x00 56 ++ [z2b (len us); z2b ty] ++ enc_units us.

Lemma ntfs_file_name_attr_safe_witness :
  exists file',
    Ntfs.parseFileNameAttr (file_name_attr (repeat (z2b 5) 8) 1 long_name)
      118 (Ntfs.empty_file true false) = Done file'
    /\ (file' = Ntfs.empty_file true false
        \/ (24 + 66 + 14 * 2 <= 118
            /\ Ntfs.Name file'
               = Ntfs.decodeUTF16
                   (slice (file_name_attr (repeat (z2b 5) 8) 1 long_name)
                          (24 + 66) (24 + 66 + 14 * 2)))).
Proof.
  apply (ntfs_file_name_attr_safe
           (file_name_attr (repeat (z2b 5) 8) 1 long_name) 118
           (Ntfs.empty_file true false)).
  - vm_compute. discriminate.
  - vm_compute. discriminate.
Defined.

Lemma le32_value (b : list byte) (off : Z) :
  le32 b off
  = b2z (at_ b off) + 2 ^ 8 * b2z (at_ b (off + 1))
    + 2 ^ 16 * b2z (at_ b (off + 2)) + 2 ^ 24 * b2z (at_ b (off + 3)).
Proof.
  unfold le32.
  pose proof (b2z_range (at_ b off)).
  pose proof (b2z_range (at_ b (off + 1))).
  pose proof (b2z_range (at_ b (off + 2))).
  pose proof (b2z_range (at_ b (off + 3))).
  rewrite (lor_shiftl_add _ _ 8) by lia.
  rewrite (lor_shiftl_add _ _ 16) by lia.
  rewrite (lor_shiftl_add _ _ 24) by lia. lia.
Qed.

Lemma le64_value (b : list byte) (off : Z) :
  le64 b off = le32 b off + 2 ^ 32 * le32 b (off + 4).
Proof.
  unfold le64. rewrite lor_shiftl_add; [lia|lia|].
  rewrite le32_value.
  pose proof (b2z_range (at_ b off)).
  pose proof (b2z_range (at_ b (off + 1))).
  pose proof (b2z_range (at_ b (off + 2))).
  pose proof (b2z_range (at_ b (off + 3))). lia.
Qed.

(** Eight bytes read as a little-endian 64-bit number. *)
Lemma le64_le_unsigned (bs rest : list byte) :
  length bs = 8%nat -> le64 (bs ++ rest) 0 = le_unsigned bs.
Proof.
  intros H.
  do 8 (destruct bs as [|? bs]; [discriminate H|]).
  destruct bs; [|discriminate H].
  rewrite le64_value, !le32_value. cbn [app le_unsigned].
  unfold at_. simpl (nth _ _ _).
  change (2 ^ 8) with 256. change (2 ^ 16) with 65536.
  change (2 ^ 24) with 16777216. change (2 ^ 32) with 4294967296. lia.
Qed.

Section FileNameAttr.

Variables (ref8 post : list byte) (ty : Z) (us : list Z).
Variable file : Ntfs.RecoveredFile.

Hypothesis Href : length ref8 = 8%nat.
Hypothesis Hty : 0 <= ty < 256.
Hypothesis Hus : Forall (fun u => 0 <= u < 65536) us.
Hypothesis Hlen : len us <= 255.

Let attr := file_name_attr ref8 ty us.
Let value := ref8 ++ repeat Byte.x00 56 ++ [z2b (len us); z2b ty]
             ++ enc_units us.

Lemma file_name_attr_split :
  attr ++ post
  = (map z2b [0x30; 0; 0; 0; 24 + 66 + 2 * len us;
              (24 + 66 + 2 * len us) / 256; 0; 0]
     ++ repeat Byte.x00 12 ++ map z2b [24; 0; 0; 0])
    ++ value ++ post.
Proof.
  unfold attr, file_name_attr, value. now rewrite <- !app_assoc.
Qed.

Lemma file_name_attr_len : len attr = 24 + 66 + 2 * len us.
Proof.
  unfold attr, file_name_attr, len.
  rewrite !length_app, !length_map, !repeat_length, Href, enc_units_length.
  cbn [length]. lia.
Qed.

Lemma file_name_value_skip :
  skipn 24 (attr ++ post) = value ++ post.
Proof. rewrite file_name_attr_split. reflexivity. Qed.

End FileNameAttr.

Lemma slice_middle {A} (pre l post : list A) :
  slice (pre ++ l ++ post) (len pre) (len pre + len l) = l.
Proof.
  unfold slice, len. rewrite Nat2Z.id.
  replace (Z.to_nat (Z.of_nat (length pre) + Z.of_nat (length l)
                     - Z.of_nat (length pre)))
    with (length l) by lia.
  rewrite skipn_app, skipn_all, Nat.sub_diag. cbn [skipn app].
  rewrite firstn_app, firstn_all, Nat.sub_diag. cbn [firstn].
  apply app_nil_r.
Qed.

(** A well-formed $FILE_NAME attribute gives its name and the low 48
    bits of its parent reference to the file, whatever follows the
    attribute in the record; a DOS name (type 2) does so only when the
    file has no name yet. *)
Theorem ntfs_file_name_attr_roundtrip (ref8 post : list byte) (ty : Z)
        (us : list Z) (file : Ntfs.RecoveredFile) :
  length ref8 = 8%nat ->
  0 <= ty < 256 ->
  Forall (fun u => 0 <= u < 65536) us ->
  len us <= 255 ->
  ty <> 2 \/ Ntfs.Name file = [] ->
  Ntfs.parseFileNameAttr (file_name_attr ref8 ty us ++ post)
                         (len (file_name_attr ref8 ty us)) file
  = Done {| Ntfs.Name := string_of_utf16 us;
            Ntfs.Path := Ntfs.Path file;
            Ntfs.MFTIndex := Ntfs.MFTIndex file;
            Ntfs.ParentRef := le_unsigned ref8 mod 2 ^ 48;
            Ntfs.Size := Ntfs.Size file;
            Ntfs.IsDirectory := Ntfs.IsDirectory file;
            Ntfs.IsDeleted := Ntfs.IsDeleted file;
            Ntfs.DataRuns := Ntfs.DataRuns file |}.
Proof.
  intros Href Hty Hus Hlen Hname.
  pose proof (len_nonneg us) as Hn. pose proof (len_nonneg post) as Hp.
  unfold Ntfs.parseFileNameAttr.
  rewrite (file_name_attr_len ref8 ty us Href).
  destruct (Z.ltb_spec (24 + 66 + 2 * len us) (24 + 66)); [lia|].
  assert (Hvo : le16 (file_name_attr ref8 ty us ++ post) 20 = 24).
  { rewrite file_name_attr_split. unfold le16, at_.
    simpl (nth _ _ _). reflexivity. }
  rewrite Hvo.
  destruct (Z.gtb_spec (24 + 66) (24 + 66 + 2 * len us)); [lia|].
  change (Z.to_nat 24) with 24%nat. rewrite file_name_value_skip.
  set (fnAttr := ref8 ++ repeat Byte.x00 56 ++ [z2b (len us); z2b ty]
                 ++ enc_units us).
  assert (Hsplit : fnAttr ++ post
                   = (ref8 ++ repeat Byte.x00 56)
                     ++ [z2b (len us); z2b ty] ++ enc_units us ++ post)
    by (unfold fnAttr; now rewrite <- !app_assoc).
  assert (Hpre : len (ref8 ++ repeat Byte.x00 56) = 64)
    by (unfold len; now rewrite length_app, Href, repeat_length).
  assert (Hnl : b2z (at_ (fnAttr ++ post) 64) = len us).
  { rewrite Hsplit. replace 64 with (len (ref8 ++ repeat Byte.x00 56) + 0)
      by lia.
    rewrite at_app_r by lia. apply b2z_z2b. lia. }
  assert (Hnt : b2z (at_ (fnAttr ++ post) 65) = ty).
  { rewrite Hsplit. replace 65 with (len (ref8 ++ repeat Byte.x00 56) + 1)
      by lia.
    rewrite at_app_r by lia. now apply b2z_z2b. }
  rewrite Hnl, Hnt.
  assert (Hchk : (ty =? 2) && negb (len (Ntfs.Name file) =? 0) = false).
  { destruct Hname as [Hx|Hx].
    - now destruct (Z.eqb_spec ty 2).
    - rewrite Hx. apply andb_false_r. }
  rewrite Hchk.
  pose proof (Z.mod_le (66 + len us * 2) 256 ltac:(lia) ltac:(lia)) as Hmod.
  destruct (Z.gtb_spec ((66 + len us * 2) mod 256)
                       (24 + 66 + 2 * len us - 24)); [lia|].
  assert (Hfn : len (fnAttr ++ post) = 66 + 2 * len us + len post).
  { unfold fnAttr, len.
    rewrite !length_app, Href, repeat_length, enc_units_length.
    cbn [length]. lia. }
  rewrite Hfn.
  destruct (Z.gtb_spec (66 + len us * 2) (66 + 2 * len us + len post));
    [lia|].
  assert (Hname' : slice (fnAttr ++ post) 66 (66 + len us * 2)
                   = enc_units us).
  { unfold fnAttr.
    replace (((ref8 ++ repeat Byte.x00 56 ++ [z2b (len us); z2b ty]
               ++ enc_units us) ++ post))
      with ((ref8 ++ repeat Byte.x00 56 ++ [z2b (len us); z2b ty])
            ++ enc_units us ++ post)
      by now rewrite <- !app_assoc.
    assert (E66 : len (ref8 ++ repeat Byte.x00 56 ++ [z2b (len us); z2b ty])
                  = 66)
      by (unfold len; now rewrite !length_app, Href, repeat_length).
    rewrite <- E66 at 1 2.
    replace (len us * 2) with (len (enc_units us))
      by (unfold len; rewrite enc_units_length; lia).
    apply slice_middle. }
  rewrite Hname'.
  rewrite <- (app_nil_r (enc_units us)) at 1.
  rewrite decodeUTF16_enc_units by (assumption || cbn [length]; lia).
  unfold fnAttr. rewrite <- app_assoc.
  rewrite le64_le_unsigned by assumption.
  change 281474976710655 with (Z.ones 48).
  rewrite Z.land_ones by lia. reflexivity.
Qed.

Lemma ntfs_file_name_attr_roundtrip_witness :
  Ntfs.parseFileNameAttr
    (file_name_attr (map z2b [5; 0; 0; 0; 0; 0; 7; 0]) 1 long_name
     ++ [z2b 0xFF])
    (len (file_name_attr (map z2b [5; 0; 0; 0; 0; 0; 7; 0]) 1 long_name))
    (Ntfs.empty_file true false)
  = Done {| Ntfs.Name := string_of_utf16 long_name;
            Ntfs.Path := [];
            Ntfs.MFTIndex := 0;
            Ntfs.ParentRef := 5;
            Ntfs.Size := 0;
            Ntfs.IsDirectory := false;
            Ntfs.IsDeleted := true;
            Ntfs.DataRuns := [] |}.
Proof.
  apply (ntfs_file_name_attr_roundtrip
           (map z2b [5; 0; 0; 0; 0; 0; 7; 0]) [z2b 0xFF] 1 long_name
           (Ntfs.empty_file true false)).
  - reflexivity.
  - lia.
  - repeat constructor; vm_compute; congruence.
  - vm_compute. discriminate.
  - left. discriminate.
Defined.

(* ------------------------------------------------------------------ *)
(** ** internal/disk: sectors and file-system detection *)

Module DiskReader.
Import Disk.

Definition SectorSize : Z := 512.

(** [ReadSector]: the offset is computed in int64; any error of the read,
    [io.EOF] included, gives no bytes. *)
Definition ReadSector (r : Reader) (sector : Z) : list byte + error :=
  let (data, err) := ReadAt r SectorSize (wrap64s (sector * SectorSize)) in
  match err with
  | Some e => inr e
  | None => inl (fill (zeros SectorSize) data)
  end.

(** [ReadSectors]: [count*r.sectorSize] is computed in int, and [make]
    panics on a negative length. *)
Definition ReadSectors (r : Reader) (startSector count : Z)
  : outcome (list byte + error) :=
  let n := wrap64s (count * SectorSize) in
  if n <? 0 then Panic
  else
    let (data, err) := ReadAt r n (wrap64s (startSector * SectorSize)) in
    match err with
    | Some e => Done (inr e)
    | None => Done (inl (fill (zeros n) data))
    end.

(** [ReadCluster]. *)
Definition ReadCluster (r : Reader) (clusterStart clusterSize : Z)
  : outcome (list byte + error) :=
  if clusterSize <? 0 then Panic
  else
    let (data, err) := ReadAt r clusterSize clusterStart in
    match err with
    | Some e => Done (inr e)
    | None => Done (inl (fill (zeros clusterSize) data))
    end.

(** The errors of [DetectFilesystem]: the error of the read, or
    [unknown filesystem]. *)
Inductive detect_error := ReadError (cause : error) | UnknownFilesystem.

Definition ascii_bytes (s : string) : list byte := list_byte_of_string s.

(** [DetectFilesystem]. *)
Definition DetectFilesystem (r : Reader) : string + detect_error :=
  let (data, err) := ReadAt r 4096 0 in
  match err with
  | Some e => inr (ReadError e)
  | None =>
    let buf := fill (zeros 4096) data in
    if bytes_equal (slice buf 3 7) (ascii_bytes "NTFS") then inl "ntfs"%string
    else if bytes_equal (slice buf 82 87) (ascii_bytes "FAT32")
    then inl "fat32"%string
    else if bytes_equal (slice buf 54 59) (ascii_bytes "FAT32")
    then inl "fat32"%string
    else if bytes_equal (slice buf 54 58) (ascii_bytes "FAT1")
    then inl "fat16"%string
    else inr UnknownFilesystem
  end.

End DiskReader.

Lemma slice_bytes_at_inner (f : Z -> byte) (off : Z) (n : nat) (i j : Z) :
  0 <= i <= j -> j <= Z.of_nat n ->
  slice (Disk.bytes_at f off n) i j
  = Disk.bytes_at f (off + i) (Z.to_nat (j - i)).
Proof.
  intros Hi Hj. rewrite <- (app_nil_r (Disk.bytes_at f off n)).
  now apply slice_bytes_at.
Qed.

(** An image shorter than 4096 bytes is never recognised: the read of
    the first 4096 bytes ends early, and [DetectFilesystem] returns the
    [io.EOF] of that read whatever the boot sector holds.  From 4096 bytes
    on the read succeeds, and the answer is [ntfs] exactly when the bytes
    3 to 6 spell NTFS: that test comes first. *)
Theorem disk_detect_short_image (im : Disk.image) :
  (Disk.f_size im < 4096 ->
   DiskReader.DetectFilesystem (Disk.Open im)
   = inr (DiskReader.ReadError Disk.EOF))
  /\ (4096 <= Disk.f_size im ->
      (DiskReader.DetectFilesystem (Disk.Open im) = inl "ntfs"%string
       <-> Disk.bytes_at (Disk.f_byte im) 3 4
           = DiskReader.ascii_bytes "NTFS")).
Proof.
  unfold DiskReader.DetectFilesystem. cbn [Disk.ReadAt Disk.Open]. split.
  - intros Hs. unfold Disk.file_ReadAt.
    change (0 <? 0) with false. change (4096 <=? 0) with false. cbv iota.
    destruct (Z.leb_spec (Disk.f_size im) 0); [reflexivity|].
    rewrite Z.sub_0_r.
    destruct (Z.ltb_spec (Disk.f_size im) 4096); [reflexivity|lia].
  - intros Hs. rewrite file_ReadAt_inside by lia.
    rewrite fill_whole
      by (unfold Disk.zeros; now rewrite repeat_length, bytes_at_length).
    rewrite !slice_bytes_at_inner by lia.
    change (Z.to_nat (7 - 3)) with 4%nat. rewrite Z.add_0_l.
    destruct (bytes_equal (Disk.bytes_at (Disk.f_byte im) 3 4)
                          (DiskReader.ascii_bytes "NTFS")) eqn:E.
    + apply bytes_equal_eq in E. split; [intros _; exact E|reflexivity].
    + assert (Hne : Disk.bytes_at (Disk.f_byte im) 3 4
                    <> DiskReader.ascii_bytes "NTFS").
      { intros H. apply bytes_equal_eq in H. congruence. }
      split; [|contradiction].
      intros H. exfalso.
      repeat match type of H with
             | (if ?b then _ else _) = _ => destruct b
             end; discriminate H.
Qed.

Lemma disk_detect_short_image_witness :
  DiskReader.DetectFilesystem (Disk.Open tiny_volume)
  = inr (DiskReader.ReadError Disk.EOF).
Proof.
  apply (disk_detect_short_image tiny_volume).
  vm_compute. reflexivity.
Defined.

(** Reading [count] sectors at once gives the sectors that [ReadSector]
    gives one by one, joined, when they all lie inside the image; a
    sector that the end of the image cuts is not returned at all. *)
Theorem disk_read_sectors (im : Disk.image) (start : Z) (count : nat) :
  0 <= start ->
  (0 < count)%nat ->
  (start + Z.of_nat count) * 512 <= Disk.f_size im ->
  Disk.f_size im < 2 ^ 62 ->
  DiskReader.ReadSectors (Disk.Open im) start (Z.of_nat count)
  = Done (inl (concat (map (fun s => Disk.bytes_at (Disk.f_byte im)
                                                   (s * 512) 512)
                           (zseq start count))))
  /\ (forall s, In s (zseq start count) ->
                DiskReader.ReadSector (Disk.Open im) s
                = inl (Disk.bytes_at (Disk.f_byte im) (s * 512) 512))
  /\ (forall s, 0 <= s -> s * 512 < Disk.f_size im < s * 512 + 512 ->
                DiskReader.ReadSector (Disk.Open im) s = inr Disk.EOF).
Proof.
  intros Hs Hc Hin Hbig.
  assert (Hcat : forall (n : nat) (a : Z),
            concat (map (fun s => Disk.bytes_at (Disk.f_byte im)
                                                (s * 512) 512)
                        (zseq a n))
            = Disk.bytes_at (Disk.f_byte im) (a * 512) (n * 512)).
  { induction n as [|n IH]; intros a; [reflexivity|].
    rewrite zseq_S. cbn [map concat]. rewrite IH.
    replace (S n * 512)%nat with (512 + n * 512)%nat by lia.
    rewrite bytes_at_app. do 2 f_equal. lia. }
  split; [|split].
  - unfold DiskReader.ReadSectors, DiskReader.SectorSize.
    rewrite !wrap64s_small by nia.
    destruct (Z.ltb_spec (Z.of_nat count * 512) 0); [lia|].
    cbn [Disk.ReadAt Disk.Open]. rewrite file_ReadAt_inside by nia.
    rewrite fill_whole
      by (unfold Disk.zeros; now rewrite repeat_length, bytes_at_length).
    rewrite Hcat. do 3 f_equal. lia.
  - intros s Hin'. apply in_zseq in Hin'.
    unfold DiskReader.ReadSector, DiskReader.SectorSize.
    rewrite wrap64s_small by nia.
    cbn [Disk.ReadAt Disk.Open]. rewrite file_ReadAt_inside by nia.
    rewrite fill_whole; [reflexivity|].
    unfold Disk.zeros. now rewrite repeat_length, bytes_at_length.
  - intros s Hs0 Hcut.
    unfold DiskReader.ReadSector, DiskReader.SectorSize.
    rewrite wrap64s_small by nia.
    cbn [Disk.ReadAt Disk.Open]. unfold Disk.file_ReadAt.
    destruct (Z.ltb_spec (s * 512) 0); [lia|].
    change (512 <=? 0) with false. cbv iota.
    destruct (Z.leb_spec (Disk.f_size im) (s * 512)); [lia|].
    destruct (Z.ltb_spec (Disk.f_size im - s * 512) 512); [reflexivity|lia].
Qed.

Lemma disk_read_sectors_witness :
  DiskReader.ReadSectors (Disk.Open tiny_volume) 1 2
  = Done (inl (concat (map (fun s => Disk.bytes_at (Disk.f_byte tiny_volume)
                                                   (s * 512) 512)
                           (zseq 1 2)))).
Proof.
  apply (disk_read_sectors tiny_volume 1 2).
  - lia.
  - lia.
  - vm_compute. discriminate.
  - vm_compute. reflexivity.
Defined.

(* ------------------------------------------------------------------ *)
(** ** internal/ntfs: the boot sector, MFT records and paths *)

Module Mft.
Import Disk.

Definition MFTRecordMagic : list byte := list_byte_of_string "FILE".

(** The errors of [readBootSector]. *)
Inductive boot_error :=
| FailedToReadBootSector (cause : error)
| NotNTFS.

(** A byte read as int8, and the wrap-around of int8 arithmetic. *)
Definition int8 (z : Z) : Z := (z + 128) mod 256 - 128.

(** [1 << k] in int, for a shift count [k] of type uint: 64 or more
    gives 0, 63 gives the least int. *)
Definition shl_one (k : Z) : Z :=
  if k <? 64 then wrap64s (Z.shiftl 1 k) else 0.

(** The record size [readBootSector] derives from the field
    [ClustersPerMFTRec]: [-x] is computed in int8 and converted to uint
    for the shift. *)
Definition record_size (clustersPerMFTRec clusterSize : Z) : Z :=
  if clustersPerMFTRec <? 0
  then shl_one (wrapu64 (int8 (- clustersPerMFTRec)))
  else clustersPerMFTRec * clusterSize.

(** [readBootSector] on a fresh parser. *)
Definition readBootSector (r : Reader) : Ntfs.Parser + boot_error :=
  let (data, err) := ReadAt r 512 0 in
  match err with
  | Some e => inr (FailedToReadBootSector e)
  | None =>
    let buf := fill (zeros 512) data in
    if negb (bytes_equal (slice buf 3 7) (list_byte_of_string "NTFS"))
    then inr NotNTFS
    else
      let bs := {| Ntfs.BytesPerSector := le16 buf 11;
                   Ntfs.SectorsPerCluster := b2z (at_ buf 13);
                   Ntfs.MFTCluster := le64 buf 48;
                   Ntfs.ClustersPerMFTRec := int8 (b2z (at_ buf 64)) |} in
      let clusterSize :=
          Ntfs.SectorsPerCluster bs * Ntfs.BytesPerSector bs in
      inl {| Ntfs.reader := r;
             Ntfs.bootSector := bs;
             Ntfs.mftStart :=
               wrap64s (wrap64s (Ntfs.MFTCluster bs) * clusterSize);
             Ntfs.clusterSize := clusterSize;
             Ntfs.mftRecSize :=
               record_size (Ntfs.ClustersPerMFTRec bs) clusterSize;
             Ntfs.mftRecords := [] |}
  end.

Definition NewParser (r : Reader) : Ntfs.Parser + boot_error :=
  readBootSector r.

(** [record[i] = v], for an index inside the record. *)
Definition upd (record : list byte) (i : Z) (v : byte) : list byte :=
  firstn (Z.to_nat i) record ++ v :: skipn (S (Z.to_nat i)) record.

(** The loop of [applyFixup] from [i] on, [todo] being
    [updateSeqSize - i].  The slice [signature] shares the bytes of the
    record, so its two bytes are read from the record as it stands; the
    offsets into the update sequence are computed in uint16. *)
Fixpoint fixup_loop (todo : nat) (i off : Z) (record : list byte)
  : outcome (list byte) :=
  match todo with
  | O => Done record
  | S todo' =>
    let pos := i * 512 - 2 in
    if pos >=? len record then Done record
    else if negb (Byte.eqb (at_ record pos) (at_ record off))
    then fixup_loop todo' (i + 1) off record
    else if pos + 1 >=? len record then Panic
    else if negb (Byte.eqb (at_ record (pos + 1)) (at_ record (off + 1)))
    then fixup_loop todo' (i + 1) off record
    else
      let fixupOffset := (off + (i * 2) mod 65536) mod 65536 in
      if fixupOffset >=? len record then Panic
      else
        let record := upd record pos (at_ record fixupOffset) in
        let next := (fixupOffset + 1) mod 65536 in
        if next >=? len record then Panic
        else
          let record := upd record (pos + 1) (at_ record next) in
          fixup_loop todo' (i + 1) off record
  end.

(** [applyFixup(record)]: the record after the fixups; the function
    returns no error. *)
Definition applyFixup (record : list byte) : outcome (list byte) :=
  if len record <? 8 then Panic
  else
    let updateSeqOff := le16 record 4 in
    let updateSeqSize := le16 record 6 in
    if updateSeqSize <? 2 then Done record
    else
      let high := (updateSeqOff + 2) mod 65536 in
      if (high <? updateSeqOff) || (high >? len record) then Panic
      else fixup_loop (Z.to_nat (updateSeqSize - 1)) 1 updateSeqOff record.

(** The errors of [readMFTRecord]. *)
Inductive record_error :=
| ReadFailed (cause : error)
| InvalidRecord.

(** [readMFTRecord(index)]. *)
Definition readMFTRecord (p : Ntfs.Parser) (index : Z)
  : outcome (list byte + record_error) :=
  let offset :=
      wrap64s (Ntfs.mftStart p
               + wrap64s (wrap64s index * Ntfs.mftRecSize p)) in
  if Ntfs.mftRecSize p <? 0 then Panic
  else
    let (data, err) := ReadAt (Ntfs.reader p) (Ntfs.mftRecSize p) offset in
    match err with
    | Some e => Done (inr (ReadFailed e))
    | None =>
      let buf := fill (zeros (Ntfs.mftRecSize p)) data in
      if len buf <? 4 then Panic
      else if negb (bytes_equal (slice buf 0 4) MFTRecordMagic)
      then Done (inr InvalidRecord)
      else match applyFixup buf with
           | Panic => Panic
           | Done record => Done (inl record)
           end
    end.

(** The map [mftRecords]: the entry stored last for a key comes first. *)
Fixpoint lookup (key : Z) (records : list (Z * Ntfs.RecoveredFile))
  : option Ntfs.RecoveredFile :=
  match records with
  | [] => None
  | (k, file) :: rest => if k =? key then Some file else lookup key rest
  end.

(** [fmt.Sprintf("file_%d", mftIndex)]. *)
Definition file_N (mftIndex : Z) : gostring :=
  list_byte_of_string
    ("file_" ++ DecimalString.NilZero.string_of_uint
                  (N.to_uint (Z.to_N mftIndex))).

(** The loop of [reconstructPath]. *)
Fixpoint path_loop (fuel : nat) (records : list (Z * Ntfs.RecoveredFile))
         (visited : list Z) (current : Z) (parts : list gostring)
  : option (list gostring) :=
  match fuel with
  | O => None
  | S fuel' =>
    if existsb (Z.eqb current) visited then Some parts
    else
      let visited := current :: visited in
      match lookup current records with
      | None => Some parts
      | Some file =>
        let parts :=
            if negb (bytes_equal (Ntfs.Name file) [])
               && negb (bytes_equal (Ntfs.Name file) (list_byte_of_string "."))
            then Ntfs.Name file :: parts else parts in
        if (Ntfs.ParentRef file =? 5) || (Ntfs.ParentRef file =? current)
        then Some parts
        else path_loop fuel' records visited (Ntfs.ParentRef file) parts
      end
  end.

(** [reconstructPath(mftIndex)]: the components [filepath.Join] puts
    together, or the single name returned when there is none. *)
Definition reconstructPath (fuel : nat)
           (records : list (Z * Ntfs.RecoveredFile)) (mftIndex : Z)
  : option (list gostring) :=
  match path_loop fuel records [] mftIndex [] with
  | None => None
  | Some [] =>
    match lookup mftIndex records with
    | Some file => Some [Ntfs.Name file]
    | None => Some [file_N mftIndex]
    end
  | Some parts => Some parts
  end.

(** The names [ScanDeletedFiles] passes over: the empty name, [.], [..]
    and the system files, whose names start with [$]. *)
Definition skip_name (name : gostring) : bool :=
  bytes_equal name [] || bytes_equal name (list_byte_of_string ".")
  || bytes_equal name (list_byte_of_string "..")
  || has_prefix name (list_byte_of_string "$").

Definition set_index (file : Ntfs.RecoveredFile) (i : Z)
  : Ntfs.RecoveredFile :=
  {| Ntfs.Name := Ntfs.Name file; Ntfs.Path := Ntfs.Path file;
     Ntfs.MFTIndex := i; Ntfs.ParentRef := Ntfs.ParentRef file;
     Ntfs.Size := Ntfs.Size file; Ntfs.IsDirectory := Ntfs.IsDirectory file;
     Ntfs.IsDeleted := Ntfs.IsDeleted file;
     Ntfs.DataRuns := Ntfs.DataRuns file |}.

Definition set_path (file : Ntfs.RecoveredFile) (path : list gostring)
  : Ntfs.RecoveredFile :=
  {| Ntfs.Name := Ntfs.Name file; Ntfs.Path := path;
     Ntfs.MFTIndex := Ntfs.MFTIndex file;
     Ntfs.ParentRef := Ntfs.ParentRef file;
     Ntfs.Size := Ntfs.Size file; Ntfs.IsDirectory := Ntfs.IsDirectory file;
     Ntfs.IsDeleted := Ntfs.IsDeleted file;
     Ntfs.DataRuns := Ntfs.DataRuns file |}.

(** What the first loop of [ScanDeletedFiles] builds: the map
    [p.mftRecords] and the slice [files]. *)
Record scan_state := {
  records : list (Z * Ntfs.RecoveredFile);
  found : list Ntfs.RecoveredFile
}.

(** The loop over the record numbers; a record that cannot be read or
    has no [FILE] magic is passed over.  The attribute parser gets more
    fuel than the record has bytes. *)
Fixpoint scan_records (p : Ntfs.Parser) (indices : list Z) (st : scan_state)
  : option (outcome scan_state) :=
  match indices with
  | [] => Some (Done st)
  | i :: rest =>
    match readMFTRecord p i with
    | Panic => Some Panic
    | Done (inr _) => scan_records p rest st
    | Done (inl record) =>
      match Ntfs.parseAttributes (S (length record)) record with
      | None => None
      | Some Panic => Some Panic
      | Some (Done file) =>
        if skip_name (Ntfs.Name file) then scan_records p rest st
        else
          let file := set_index file i in
          scan_records p rest
            {| records := (i, file) :: records st;
               found := if Ntfs.IsDeleted file then found st ++ [file]
                        else found st |}
      end
    end
  end.

(** The second loop: every file gets its path; the path loop gets more
    fuel than the map has entries. *)
Fixpoint with_paths (recs : list (Z * Ntfs.RecoveredFile))
         (files : list Ntfs.RecoveredFile)
  : option (list Ntfs.RecoveredFile) :=
  match files with
  | [] => Some []
  | file :: rest =>
    match reconstructPath (S (length recs)) recs (Ntfs.MFTIndex file),
          with_paths recs rest with
    | Some path, Some rest' => Some (set_path file path :: rest')
    | _, _ => None
    end
  end.

(** [ScanDeletedFiles(maxRecords)]; the error it returns is always nil. *)
Definition ScanDeletedFiles (p : Ntfs.Parser) (maxRecords : Z)
  : option (outcome (list Ntfs.RecoveredFile)) :=
  match scan_records p (zseq 0 (Z.to_nat maxRecords))
                     {| records := Ntfs.mftRecords p; found := [] |} with
  | None => None
  | Some Panic => Some Panic
  | Some (Done st) =>
    match with_paths (records st) (found st) with
    | None => None
    | Some files => Some (Done files)
    end
  end.

End Mft.

(* ------------------------------------------------------------------ *)
(** ** NTFS: the size of an MFT record *)

(** The record size as a function of the byte at offset 64: a count of
    clusters up to 127; from 0x81 on the negated byte is a power of two,
    which the 64-bit shift gives for exponents up to 62 only; for the
    exponent 63 the result is the least int, and for the bytes 0x80 to
    0xC0 it is 0. *)
Lemma record_size_byte (x : byte) (clusterSize : Z) :
  let b := b2z x in
  Mft.record_size (Mft.int8 b) clusterSize
  = if b <? 128 then b * clusterSize
    else if b <=? 192 then 0
    else if b =? 193 then - 2 ^ 63
    else 2 ^ (256 - b).
Proof.
  destruct x; vm_compute; reflexivity.
Qed.

(** [NewParser] takes the image for an NTFS volume exactly when the
    bytes 3 to 6 of the boot sector spell NTFS, and then derives the
    cluster size and the size of an MFT record from the fields of the
    boot sector as they stand. *)
Theorem ntfs_boot_record_size (im : Disk.image) :
  512 <= Disk.f_size im ->
  let f := Disk.f_byte im in
  let b := b2z (f 64) in
  let clusterSize :=
      b2z (f 13) * Z.lor (b2z (f 11)) (Z.shiftl (b2z (f 12)) 8) in
  (Disk.bytes_at f 3 4 <> list_byte_of_string "NTFS" ->
   Mft.NewParser (Disk.Open im) = inr Mft.NotNTFS)
  /\ (Disk.bytes_at f 3 4 = list_byte_of_string "NTFS" ->
      exists p,
        Mft.NewParser (Disk.Open im) = inl p
        /\ Ntfs.clusterSize p = clusterSize
        /\ Ntfs.mftRecSize p
           = if b <? 128 then b * clusterSize
             else if b <=? 192 then 0
             else if b =? 193 then - 2 ^ 63
             else 2 ^ (256 - b)).
Proof.
  intros Hs f b clusterSize.
  unfold Mft.NewParser, Mft.readBootSector. cbn [Disk.ReadAt Disk.Open].
  rewrite file_ReadAt_inside by lia.
  rewrite fill_whole
    by (unfold Disk.zeros; now rewrite repeat_length, bytes_at_length).
  rewrite slice_bytes_at_inner by lia.
  change (Z.to_nat (7 - 3)) with 4%nat. rewrite Z.add_0_l. fold f.
  split.
  - intros Hne.
    destruct (bytes_equal (Disk.bytes_at f 3 4) (list_byte_of_string "NTFS"))
             eqn:E; [|reflexivity].
    apply bytes_equal_eq in E. contradiction.
  - intros Heq. rewrite Heq.
    rewrite (proj2 (bytes_equal_eq _ _) eq_refl). cbn [negb].
    eexists. split; [reflexivity|].
    cbn [Ntfs.clusterSize Ntfs.mftRecSize Ntfs.ClustersPerMFTRec
         Ntfs.SectorsPerCluster Ntfs.BytesPerSector].
    unfold le16. rewrite !at_bytes_at by (simpl; lia). rewrite !Z.add_0_l.
    fold f. split; [reflexivity|].
    apply (record_size_byte (f 64)).
Qed.

(* ------------------------------------------------------------------ *)
(** ** NTFS: the update sequence of a record *)

Lemma upd_length (r : list byte) (i : Z) (v : byte) :
  0 <= i < len r -> len (Mft.upd r i v) = len r.
Proof.
  intros H. unfold Mft.upd, len in *.
  rewrite length_app, length_firstn. cbn [length]. rewrite length_skipn. lia.
Qed.

Lemma at_upd (r : list byte) (i j : Z) (v : byte) :
  0 <= i < len r -> 0 <= j ->
  at_ (Mft.upd r i v) j = if j =? i then v else at_ r j.
Proof.
  intros Hi Hj. unfold Mft.upd, at_, len in *.
  assert (Hf : length (firstn (Z.to_nat i) r) = Z.to_nat i)
    by (rewrite length_firstn; lia).
  destruct (Z.eqb_spec j i) as [->|Hne].
  - rewrite app_nth2 by lia. rewrite Hf, Nat.sub_diag. reflexivity.
  - destruct (Z.lt_ge_cases j i).
    + rewrite app_nth1 by lia. rewrite nth_firstn.
      destruct (Nat.ltb_spec (Z.to_nat j) (Z.to_nat i)); [reflexivity|lia].
    + rewrite app_nth2 by lia. rewrite Hf.
      replace (Z.to_nat j - Z.to_nat i)%nat
        with (S (Z.to_nat j - S (Z.to_nat i))) by lia.
      cbn [nth]. rewrite nth_skipn. f_equal. lia.
Qed.

(** The fixup loop changes nothing but the last two bytes of sectors. *)
Lemma fixup_loop_frame :
  forall (todo : nat) (i off : Z) (r r' : list byte),
    1 <= i ->
    Mft.fixup_loop todo i off r = Done r' ->
    len r' = len r
    /\ (forall j, 0 <= j -> j mod 512 < 510 -> at_ r' j = at_ r j).
Proof.
  induction todo as [|todo IH]; intros i off r r' Hi H;
    cbn [Mft.fixup_loop] in H.
  - injection H as <-. split; reflexivity.
  - destruct (Z.geb_spec (i * 512 - 2) (len r)) as [|Hpos];
      [injection H as <-; split; reflexivity|].
    destruct (negb (Byte.eqb (at_ r (i * 512 - 2)) (at_ r off)));
      [apply IH in H; [exact H|lia]|].
    destruct (Z.geb_spec (i * 512 - 2 + 1) (len r)) as [|Hpos1];
      [discriminate H|].
    destruct (negb (Byte.eqb (at_ r (i * 512 - 2 + 1)) (at_ r (off + 1))));
      [apply IH in H; [exact H|lia]|].
    destruct (_ >=? len r); [discriminate H|].
    rewrite upd_length in H by lia.
    destruct (_ >=? len r); [discriminate H|].
    apply IH in H; [|lia]. destruct H as [Hl Hat].
    rewrite !upd_length in Hl by (rewrite ?upd_length; lia).
    split; [exact Hl|]. intros j Hj Hmod.
    rewrite Hat by assumption.
    assert (Hm0 : (i * 512 - 2) mod 512 = 510)
      by (symmetry; apply Z.mod_unique with (q := i - 1); lia).
    assert (Hm1 : (i * 512 - 2 + 1) mod 512 = 511)
      by (symmetry; apply Z.mod_unique with (q := i - 1); lia).
    rewrite (at_upd _ (i * 512 - 2 + 1) j) by (rewrite ?upd_length; lia).
    destruct (Z.eqb_spec j (i * 512 - 2 + 1)); [subst j; lia|].
    rewrite (at_upd r (i * 512 - 2) j) by lia.
    destruct (Z.eqb_spec j (i * 512 - 2)); [subst j; lia|reflexivity].
Qed.

(** [applyFixup] keeps the length of the record and every byte that is
    not one of the last two bytes of a 512-byte sector: the header, the
    update sequence array and the attributes stay as read from disk,
    whatever the update sequence fields hold. *)
Theorem ntfs_fixup_frame (record record' : list byte) :
  Mft.applyFixup record = Done record' ->
  len record' = len record
  /\ (forall j, 0 <= j -> j mod 512 < 510 ->
                at_ record' j = at_ record j).
Proof.
  unfold Mft.applyFixup. intros H.
  destruct (len record <? 8); [discriminate H|].
  destruct (le16 record 6 <? 2); [injection H as <-; split; reflexivity|].
  destruct (_ || _); [discriminate H|].
  now apply fixup_loop_frame in H.
Qed.

Lemma byte_eqb_refl (x : byte) : Byte.eqb x x = true.
Proof. now apply Byte.byte_dec_lb. Qed.

Section Fixup.

(** A record of [k] sectors as it is read from disk: its update sequence
    array lies in the first sector, before the last two bytes, and the
    last two bytes of every sector hold the update sequence number. *)
Variables (r : list byte) (k : Z).
Let off := le16 r 4.

Hypothesis Hk : 1 <= k.
Hypothesis Hlen : len r = 512 * k.
Hypothesis Husz : le16 r 6 = k + 1.
Hypothesis Husa : off + 2 * (k + 1) <= 510.
Hypothesis Hends :
  forall i, 1 <= i <= k ->
            at_ r (512 * i - 2) = at_ r off
            /\ at_ r (512 * i - 1) = at_ r (off + 1).

(** The record after the sectors below [i] are done. *)
Let inv (i : Z) (ri : list byte) : Prop :=
  len ri = len r
  /\ (forall j, 0 <= j -> j mod 512 < 510 -> at_ ri j = at_ r j)
  /\ (forall m, i <= m <= k ->
                at_ ri (512 * m - 2) = at_ r (512 * m - 2)
                /\ at_ ri (512 * m - 1) = at_ r (512 * m - 1))
  /\ (forall m, 1 <= m < i ->
                at_ ri (512 * m - 2) = at_ r (off + 2 * m)
                /\ at_ ri (512 * m - 1) = at_ r (off + 2 * m + 1)).

Lemma fixup_loop_restores :
  forall (todo : nat) (i : Z) (ri : list byte),
    1 <= i -> i + Z.of_nat todo = k + 1 -> inv i ri ->
    exists r', Mft.fixup_loop todo i off ri = Done r' /\ inv (k + 1) r'.
Proof.
  pose proof (le16_nonneg r 4) as Hoff0. fold off in Hoff0.
  induction todo as [|todo IH]; intros i ri Hi Htodo Hinv.
  - exists ri. split; [reflexivity|]. now replace (k + 1) with i by lia.
  - destruct Hinv as (Hl & Hlow & Hrest & Hdone).
    cbn [Mft.fixup_loop]. rewrite Hl, Hlen.
    replace (i * 512 - 2) with (512 * i - 2) by lia.
    replace (512 * i - 2 + 1) with (512 * i - 1) by lia.
    destruct (Z.geb_spec (512 * i - 2) (512 * k)); [lia|].
    destruct (Z.geb_spec (512 * i - 1) (512 * k)); [lia|].
    destruct (Hrest i ltac:(lia)) as [E0 E1].
    destruct (Hends i ltac:(lia)) as [S0 S1].
    assert (Hsmall : forall j, 0 <= j < 510 -> at_ ri j = at_ r j).
    { intros j Hj. apply Hlow; [lia|]. rewrite Z.mod_small; lia. }
    rewrite E0, E1, S0, S1, !Hsmall by lia.
    rewrite !byte_eqb_refl. cbn [negb].
    rewrite (Z.mod_small (i * 2)) by lia.
    rewrite (Z.mod_small (off + i * 2)) by lia.
    rewrite (Z.mod_small (off + i * 2 + 1)) by lia.
    destruct (Z.geb_spec (off + i * 2) (512 * k)); [lia|].
    rewrite upd_length by lia. rewrite Hl, Hlen.
    destruct (Z.geb_spec (off + i * 2 + 1) (512 * k)); [lia|].
    rewrite (at_upd ri (512 * i - 2) (off + i * 2 + 1)) by lia.
    destruct (Z.eqb_spec (off + i * 2 + 1) (512 * i - 2)); [lia|].
    rewrite !Hsmall by lia.
    apply IH; [lia|lia|].
    assert (Hat : forall j, 0 <= j ->
              at_ (Mft.upd (Mft.upd ri (512 * i - 2) (at_ r (off + i * 2)))
                           (512 * i - 1) (at_ r (off + i * 2 + 1))) j
              = if j =? 512 * i - 1 then at_ r (off + i * 2 + 1)
                else if j =? 512 * i - 2 then at_ r (off + i * 2)
                else at_ ri j).
    { intros j Hj. rewrite at_upd by (rewrite ?upd_length; lia).
      destruct (j =? 512 * i - 1); [reflexivity|].
      now rewrite at_upd by lia. }
    unfold inv. split; [|split; [|split]].
    + rewrite !upd_length by (rewrite ?upd_length; lia). exact Hl.
    + intros j Hj Hmod. rewrite Hat by lia.
      destruct (Z.eqb_spec j (512 * i - 1)) as [->|].
      { replace ((512 * i - 1) mod 512) with 511 in Hmod
          by (apply Z.mod_unique with (q := i - 1); lia). lia. }
      destruct (Z.eqb_spec j (512 * i - 2)) as [->|]; [|now apply Hlow].
      replace ((512 * i - 2) mod 512) with 510 in Hmod
        by (apply Z.mod_unique with (q := i - 1); lia). lia.
    + intros m Hm. rewrite !Hat by lia.
      destruct (Z.eqb_spec (512 * m - 2) (512 * i - 1)); [lia|].
      destruct (Z.eqb_spec (512 * m - 2) (512 * i - 2)); [lia|].
      destruct (Z.eqb_spec (512 * m - 1) (512 * i - 1)); [lia|].
      destruct (Z.eqb_spec (512 * m - 1) (512 * i - 2)); [lia|].
      apply Hrest. lia.
    + intros m Hm. rewrite !Hat by lia.
      destruct (Z.eqb_spec (512 * m - 2) (512 * i - 1)); [lia|].
      destruct (Z.eqb_spec (512 * m - 1) (512 * i - 2)); [lia|].
      destruct (Z.eq_dec m i) as [->|Hne].
      * rewrite !Z.eqb_refl. split; f_equal; lia.
      * destruct (Z.eqb_spec (512 * m - 2) (512 * i - 2)); [lia|].
        destruct (Z.eqb_spec (512 * m - 1) (512 * i - 1)); [lia|].
        apply Hdone. lia.
Qed.

(** [applyFixup] on such a record puts the saved bytes back at the end
    of every sector. *)
Lemma applyFixup_restores :
  exists r',
    Mft.applyFixup r = Done r'
    /\ len r' = len r
    /\ (forall j, 0 <= j -> j mod 512 < 510 -> at_ r' j = at_ r j)
    /\ (forall m, 1 <= m <= k ->
                  at_ r' (512 * m - 2) = at_ r (off + 2 * m)
                  /\ at_ r' (512 * m - 1) = at_ r (off + 2 * m + 1)).
Proof.
  pose proof (le16_nonneg r 4) as Hoff0. fold off in Hoff0.
  unfold Mft.applyFixup. rewrite Hlen, Husz. fold off.
  destruct (Z.ltb_spec (512 * k) 8); [lia|].
  destruct (Z.ltb_spec (k + 1) 2); [lia|].
  rewrite (Z.mod_small (off + 2)) by lia.
  destruct (Z.ltb_spec (off + 2) off); [lia|].
  destruct (Z.gtb_spec (off + 2) (512 * k)); [lia|]. cbn [orb].
  destruct (fixup_loop_restores (Z.to_nat (k + 1 - 1)) 1 r) as (r' & E & Hinv);
    [lia|lia| |].
  - unfold inv. repeat split; try reflexivity; intros; lia.
  - exists r'. split; [exact E|].
    destruct Hinv as (Hl & Hlow & _ & Hdone).
    split; [now rewrite Hl|]. split; [exact Hlow|].
    intros m Hm. apply Hdone. lia.
Qed.

End Fixup.

(** What the file system writes for the record [r0]: the update
    sequence number [u0 u1] at the start of the update sequence array and
    at the end of every sector, and the two bytes it replaces there in
    the entry of the sector in the array. *)
Definition protect (u0 u1 : byte) (r0 : list byte) : list byte :=
  let off := le16 r0 4 in
  let usz := le16 r0 6 in
  Disk.bytes_at
    (fun j =>
       if j mod 512 =? 510 then u0
       else if j mod 512 =? 511 then u1
       else if j =? off then u0
       else if j =? off + 1 then u1
       else if (off + 2 <=? j) && (j <? off + 2 * usz)
            then at_ r0 (512 * ((j - off) / 2) - 2 + (j - off) mod 2)
            else at_ r0 j)
    0 (length r0).

(** Reading a record back: for a record of [k] sectors whose update
    sequence array lies behind the first 8 bytes and before the end of the
    first sector, [applyFixup] undoes [protect]: every byte outside the
    array is the byte of the record as it was before it was written. *)
Theorem ntfs_fixup_roundtrip (r0 : list byte) (k : Z) (u0 u1 : byte) :
  let off := le16 r0 4 in
  1 <= k ->
  len r0 = 512 * k ->
  le16 r0 6 = k + 1 ->
  8 <= off ->
  off + 2 * (k + 1) <= 510 ->
  exists r',
    Mft.applyFixup (protect u0 u1 r0) = Done r'
    /\ len r' = len r0
    /\ (forall j, 0 <= j < len r0 ->
                  ~ (off <= j < off + 2 * (k + 1)) ->
                  at_ r' j = at_ r0 j).
Proof.
  intros off Hk Hlen Husz Hoff Husa.
  set (r := protect u0 u1 r0).
  assert (Hrlen : len r = 512 * k)
    by (unfold r, protect, len; rewrite bytes_at_length; exact Hlen).
  assert (Hat : forall j, 0 <= j < 512 * k ->
            at_ r j
            = if j mod 512 =? 510 then u0
              else if j mod 512 =? 511 then u1
              else if j =? off then u0
              else if j =? off + 1 then u1
              else if (off + 2 <=? j) && (j <? off + 2 * (k + 1))
                   then at_ r0 (512 * ((j - off) / 2) - 2 + (j - off) mod 2)
                   else at_ r0 j).
  { intros j Hj. unfold r, protect.
    rewrite at_bytes_at by (unfold len in Hlen; lia).
    rewrite Z.add_0_l. fold off. now rewrite Husz. }
  assert (Hsame : forall j, 0 <= j < 8 -> at_ r j = at_ r0 j).
  { intros j Hj. rewrite Hat by lia. rewrite (Z.mod_small j) by lia.
    destruct (Z.eqb_spec j 510); [lia|].
    destruct (Z.eqb_spec j 511); [lia|].
    destruct (Z.eqb_spec j off); [lia|].
    destruct (Z.eqb_spec j (off + 1)); [lia|].
    destruct (Z.leb_spec (off + 2) j); [lia|reflexivity]. }
  assert (H4 : le16 r 4 = off)
    by (unfold off, le16; rewrite !Hsame by lia; reflexivity).
  assert (H6 : le16 r 6 = k + 1)
    by (rewrite <- Husz; unfold le16; rewrite !Hsame by lia; reflexivity).
  assert (Hend : forall m d, 1 <= m <= k -> 0 <= d <= 1 ->
            (512 * m - 2 + d) mod 512 = 510 + d).
  { intros m d Hm Hd. symmetry.
    apply Z.mod_unique with (q := m - 1); lia. }
  assert (Hu : at_ r off = u0 /\ at_ r (off + 1) = u1).
  { split; rewrite Hat by lia.
    - rewrite (Z.mod_small off) by lia.
      destruct (Z.eqb_spec off 510); [lia|].
      destruct (Z.eqb_spec off 511); [lia|]. now rewrite Z.eqb_refl.
    - rewrite (Z.mod_small (off + 1)) by lia.
      destruct (Z.eqb_spec (off + 1) 510); [lia|].
      destruct (Z.eqb_spec (off + 1) 511); [lia|].
      destruct (Z.eqb_spec (off + 1) off); [lia|]. now rewrite Z.eqb_refl. }
  destruct (applyFixup_restores r k Hk Hrlen H6) as (r' & E & Hl & Hlow & Hres).
  - rewrite H4. exact Husa.
  - intros i Hi. rewrite H4. destruct Hu as [-> ->].
    split; rewrite Hat by lia.
    + replace (512 * i - 2) with (512 * i - 2 + 0) by lia.
      rewrite Hend by lia. reflexivity.
    + replace (512 * i - 1) with (512 * i - 2 + 1) by lia.
      rewrite Hend by lia. reflexivity.
  - rewrite H4 in Hres.
    exists r'. split; [exact E|]. split; [lia|].
    intros j Hj Hout.
    assert (Hentry : forall m d, 1 <= m <= k -> 0 <= d <= 1 ->
              at_ r (off + 2 * m + d) = at_ r0 (512 * m - 2 + d)).
    { intros m d Hm Hd. rewrite Hat by lia.
      rewrite (Z.mod_small (off + 2 * m + d)) by lia.
      destruct (Z.eqb_spec (off + 2 * m + d) 510); [lia|].
      destruct (Z.eqb_spec (off + 2 * m + d) 511); [lia|].
      destruct (Z.eqb_spec (off + 2 * m + d) off); [lia|].
      destruct (Z.eqb_spec (off + 2 * m + d) (off + 1)); [lia|].
      destruct (Z.leb_spec (off + 2) (off + 2 * m + d)); [|lia].
      destruct (Z.ltb_spec (off + 2 * m + d) (off + 2 * (k + 1))); [|lia].
      cbn [andb]. f_equal.
      replace ((off + 2 * m + d - off) / 2) with m
        by (apply Z.div_unique with (r := d); lia).
      replace ((off + 2 * m + d - off) mod 2) with d
        by (apply Z.mod_unique with (q := m); lia).
      reflexivity. }
    pose proof (Z.div_mod j 512 ltac:(lia)) as Hdm.
    pose proof (Z.mod_pos_bound j 512 ltac:(lia)) as Hmb.
    destruct (Z.lt_ge_cases (j mod 512) 510) as [Hin|Hin].
    + rewrite Hlow by lia. rewrite Hat by lia.
      destruct (Z.eqb_spec (j mod 512) 510); [lia|].
      destruct (Z.eqb_spec (j mod 512) 511); [lia|].
      destruct (Z.eqb_spec j off); [lia|].
      destruct (Z.eqb_spec j (off + 1)); [lia|].
      destruct (Z.leb_spec (off + 2) j);
        destruct (Z.ltb_spec j (off + 2 * (k + 1))); try reflexivity; lia.
    + set (m := j / 512 + 1).
      assert (Hm : 1 <= m <= k).
      { subst m. pose proof (Z.div_pos j 512). 
        assert (j / 512 < k) by (apply Z.div_lt_upper_bound; lia). lia. }
      destruct (Hres m Hm) as [R0 R1].
      destruct (Z.eq_dec (j mod 512) 510) as [E510|N510].
      * replace j with (512 * m - 2) by (subst m; lia).
        rewrite R0.
        replace (off + 2 * m) with (off + 2 * m + 0) by lia.
        rewrite Hentry by lia. f_equal. lia.
      * replace j with (512 * m - 1) by (subst m; lia).
        rewrite R1. rewrite Hentry by lia. f_equal. lia.
Qed.

(* ------------------------------------------------------------------ *)
(** ** A small NTFS volume *)

(** The header of an MFT record of two sectors: the magic, the update
    sequence array of three entries at offset 48, the first attribute at
    offset 56 and the flags. *)
Definition mft_header (flags : Z) : list byte :=
  list_byte_of_string "FILE"
  ++ map z2b ([48; 0; 3; 0] ++ repeat 0 12 ++ [56; 0; flags; 0]
              ++ repeat 0 32).

(** A record of 1024 bytes with the attributes [attrs], as it is before
    it is written. *)
Definition mft_record (flags : Z) (attrs : list byte) : list byte :=
  padded 1024 (mft_header flags ++ attrs ++ map z2b [255; 255; 255; 255]).

Definition units_of (s : string) : list Z := map b2z (list_byte_of_string s).

(** Record 0: the deleted file of the sparse example, in the root
    directory; record 1: the directory [docs], in use; record 2: the
    deleted file [a.txt] in [docs]; record 3: a deleted system file. *)
Definition record0 : list byte :=
  mft_record 0 (file_name_attr (map z2b [5; 0; 0; 0; 0; 0; 5; 0]) 1 long_name
                ++ sparse_attr).

Definition record1 : list byte :=
  mft_record 3 (file_name_attr (map z2b [5; 0; 0; 0; 0; 0; 5; 0]) 1
                               (units_of "docs")).

Definition record2 : list byte :=
  mft_record 0 (file_name_attr (map z2b [1; 0; 0; 0; 0; 0; 1; 0]) 1
                               (units_of "a.txt")).

Definition record3 : list byte :=
  mft_record 0 (file_name_attr (map z2b [5; 0; 0; 0; 0; 0; 5; 0]) 1
                               (units_of "$Quota")).

(** The volume: the boot sector (512-byte sectors, one sector per
    cluster, the MFT at cluster 2, records of 2^10 bytes), an unused
    sector and the four records as written to disk. *)
Definition ntfs_volume : Disk.image :=
  image_of
    (padded 512 (map z2b ([0xEB; 0x52; 0x90; 0x4E; 0x54; 0x46; 0x53]
                          ++ repeat 0x20 4 ++ [0; 2; 1]
                          ++ repeat 0 34 ++ [2] ++ repeat 0 15 ++ [0xF6]))
     ++ padded 512 []
     ++ protect (z2b 7) (z2b 0) record0 ++ protect (z2b 7) (z2b 0) record1
     ++ protect (z2b 9) (z2b 0) record2 ++ protect (z2b 9) (z2b 0) record3).

Definition ntfs_parser : Ntfs.Parser :=
  {| Ntfs.reader := Disk.Open ntfs_volume;
     Ntfs.bootSector :=
       {| Ntfs.BytesPerSector := 512; Ntfs.SectorsPerCluster := 1;
          Ntfs.MFTCluster := 2; Ntfs.ClustersPerMFTRec := -10 |};
     Ntfs.mftStart := 1024; Ntfs.clusterSize := 512;
     Ntfs.mftRecSize := 1024; Ntfs.mftRecords := [] |}.

Lemma ntfs_parser_built :
  Mft.NewParser (Disk.Open ntfs_volume) = inl ntfs_parser.
Proof. reflexivity. Qed.

Lemma ntfs_boot_record_size_witness :
  exists p,
    Mft.NewParser (Disk.Open ntfs_volume) = inl p
    /\ Ntfs.clusterSize p = 512
    /\ Ntfs.mftRecSize p = 1024.
Proof.
  apply (ntfs_boot_record_size ntfs_volume).
  - vm_compute. discriminate.
  - vm_compute. reflexivity.
Defined.

(** Record 0 as [readMFTRecord] returns it. *)
Definition record0_read : list byte :=
  Eval vm_compute in
    match Mft.applyFixup (protect (z2b 7) (z2b 0) record0) with
    | Done r => r
    | Panic => []
    end.

Lemma ntfs_fixup_frame_witness :
  len record0_read = len (protect (z2b 7) (z2b 0) record0)
  /\ (forall j, 0 <= j -> j mod 512 < 510 ->
                at_ record0_read j = at_ (protect (z2b 7) (z2b 0) record0) j).
Proof.
  apply (ntfs_fixup_frame (protect (z2b 7) (z2b 0) record0) record0_read).
  vm_compute. reflexivity.
Defined.

Lemma ntfs_fixup_roundtrip_witness :
  exists r',
    Mft.applyFixup (protect (z2b 7) (z2b 0) record0) = Done r'
    /\ len r' = len record0
    /\ (forall j, 0 <= j < len record0 ->
                  ~ (48 <= j < 48 + 2 * (2 + 1)) ->
                  at_ r' j = at_ record0 j).
Proof.
  apply (ntfs_fixup_roundtrip record0 2 (z2b 7) (z2b 0)).
  - lia.
  - vm_compute. reflexivity.
  - vm_compute. reflexivity.
  - vm_compute. discriminate.
  - vm_compute. discriminate.
Defined.

(** ** The path of a record *)

Lemma lookup_In (recs : list (Z * Ntfs.RecoveredFile)) (k : Z)
      (file : Ntfs.RecoveredFile) :
  Mft.lookup k recs = Some file -> In k (map fst recs).
Proof.
  induction recs as [|[k' f'] recs IH]; simpl; [discriminate|].
  destruct (Z.eqb_spec k' k); [now left|]. intros H. right. now apply IH.
Qed.

Lemma existsb_eqb_In (x : Z) (l : list Z) :
  existsb (Z.eqb x) l = false -> ~ In x l.
Proof.
  intros H Hin.
  assert (E : existsb (Z.eqb x) l = true)
    by (apply existsb_exists; exists x; split; [exact Hin|apply Z.eqb_refl]).
  congruence.
Qed.

Section Path.

Variable recs : list (Z * Ntfs.RecoveredFile).

(** The loop of [reconstructPath] ends before the set [visited] can hold
    more record numbers than the map has keys; it only puts names in front
    of the parts it has. *)
Lemma path_loop_returns :
  forall fuel visited current parts,
    NoDup visited -> incl visited (map fst recs) ->
    (length recs < fuel + length visited)%nat ->
    exists pre,
      Mft.path_loop fuel recs visited current parts = Some (pre ++ parts)
      /\ (length pre + length visited <= length recs)%nat.
Proof.
  induction fuel as [|fuel IH]; intros visited current parts Hnd Hincl Hf.
  - pose proof (NoDup_incl_length Hnd Hincl) as Hl.
    rewrite length_map in Hl. lia.
  - pose proof (NoDup_incl_length Hnd Hincl) as Hl.
    rewrite length_map in Hl. simpl.
    destruct (existsb (Z.eqb current) visited) eqn:Ev;
      [exists []; split; [reflexivity|simpl; lia]|].
    apply existsb_eqb_In in Ev.
    destruct (Mft.lookup current recs) as [file|] eqn:El;
      [|exists []; split; [reflexivity|simpl; lia]].
    apply lookup_In in El.
    assert (Hnd' : NoDup (current :: visited)) by now constructor.
    assert (Hincl' : incl (current :: visited) (map fst recs))
      by (intros x [<-|Hx]; [exact El|now apply Hincl]).
    pose proof (NoDup_incl_length Hnd' Hincl') as Hl'.
    rewrite length_map in Hl'. simpl in Hl'.
    set (parts' := if _ && _ then _ else parts).
    assert (Hp : exists p0, parts' = p0 ++ parts /\ (length p0 <= 1)%nat).
    { subst parts'. destruct (_ && _);
        [exists [Ntfs.Name file]|exists []]; split; simpl; (reflexivity || lia). }
    destruct Hp as (p0 & -> & Hp0).
    destruct (_ || _).
    + exists p0. split; [reflexivity|]. lia.
    + destruct (IH (current :: visited) (Ntfs.ParentRef file) (p0 ++ parts)
                  Hnd' Hincl') as (pre & E & Hpre); [simpl; lia|].
      exists (pre ++ p0). rewrite <- app_assoc. split; [exact E|].
      rewrite length_app. simpl in Hpre. lia.
Qed.

End Path.



(** The result of [reconstructPath], for a loop with more fuel than the
    map has entries. *)
Lemma reconstructPath_returns (recs : list (Z * Ntfs.RecoveredFile))
        (mftIndex : Z) (fuel : nat) :
  (length recs < fuel)%nat ->
  exists path,
    Mft.reconstructPath fuel recs mftIndex = Some path
    /\ path <> []
    /\ (length path <= Nat.max 1 (length recs))%nat
    /\ (Mft.lookup mftIndex recs = None -> path = [Mft.file_N mftIndex])
    /\ (forall file,
           Mft.lookup mftIndex recs = Some file ->
           Ntfs.Name file <> [] ->
           Ntfs.Name file <> list_byte_of_string "." ->
           last path [] = Ntfs.Name file).
Proof.
  intros Hf. unfold Mft.reconstructPath.
  destruct fuel as [|fuel]; [lia|].
  pose proof (Nat.le_max_l 1 (length recs)) as Hm1.
  pose proof (Nat.le_max_r 1 (length recs)) as Hm2.
  set (m := Nat.max 1 (length recs)) in *. clearbody m. simpl.
  destruct (Mft.lookup mftIndex recs) as [file|] eqn:El.
  2:{ eexists. split; [reflexivity|].
      split; [discriminate|]. split; [cbn [length]; lia|].
      split; [reflexivity|discriminate]. }
  pose proof (lookup_In _ _ _ El) as Hin.
  assert (Hnd : NoDup [mftIndex]) by (constructor; [intros []|constructor]).
  assert (Hincl : incl [mftIndex] (map fst recs))
    by (intros x [<-|[]]; exact Hin).
  pose proof (NoDup_incl_length Hnd Hincl) as Hl.
  rewrite length_map in Hl. simpl in Hl.
  set (own := _ && _).
  assert (Hown : Ntfs.Name file <> [] ->
                 Ntfs.Name file <> list_byte_of_string "." -> own = true).
  { intros H1 H2. subst own.
    destruct (bytes_equal (Ntfs.Name file) []) eqn:E1;
      [now apply bytes_equal_eq in E1|].
    destruct (bytes_equal (Ntfs.Name file) (list_byte_of_string ".")) eqn:E2;
      [now apply bytes_equal_eq in E2|]. reflexivity. }
  set (parts := if own then _ else _).
  assert (Hres : exists pre,
             (if (Ntfs.ParentRef file =? 5) || (Ntfs.ParentRef file =? mftIndex)
              then Some parts
              else Mft.path_loop fuel recs [mftIndex] (Ntfs.ParentRef file)
                                 parts) = Some (pre ++ parts)
             /\ (length pre + 1 <= length recs)%nat).
  { destruct (_ || _); [exists []; split; [reflexivity|simpl; lia]|].
    apply path_loop_returns; [exact Hnd|exact Hincl|simpl; lia]. }
  destruct Hres as (pre & -> & Hpre).
  destruct own.
  - subst parts.
    exists (pre ++ [Ntfs.Name file]).
    split; [now destruct pre|].
    split; [now destruct pre|].
    split; [rewrite length_app; cbn [length]; lia|].
    split; [discriminate|].
    intros file' [= <-] _ _. apply last_last.
  - subst parts. rewrite app_nil_r.
    destruct pre as [|x pre].
    + exists [Ntfs.Name file].
      split; [reflexivity|]. split; [discriminate|].
      split; [cbn [length]; lia|]. split; [discriminate|].
      intros file' [= <-] _ _. reflexivity.
    + exists (x :: pre).
      split; [reflexivity|]. split; [discriminate|].
      split; [cbn [length] in *; lia|]. split; [discriminate|].
      intros file' [= <-] H1 H2. now specialize (Hown H1 H2).
Qed.



(** ** Scanning the MFT *)

Lemma parseAttributes_returns (record : list byte) :
  exists res, Ntfs.parseAttributes (S (length record)) record = Some res.
Proof.
  unfold Ntfs.parseAttributes.
  destruct (len record <? 24); [eexists; reflexivity|].
  pose proof (le16_nonneg record 20).
  apply attr_loop_returns; [assumption|]. unfold len. lia.
Qed.

Lemma scan_records_returns (p : Ntfs.Parser) :
  forall indices st, exists res, Mft.scan_records p indices st = Some res.
Proof.
  induction indices as [|i rest IH]; intros st; simpl; [eexists; reflexivity|].
  destruct (Mft.readMFTRecord p i) as [[record|e]|];
    [|apply IH|eexists; reflexivity].
  destruct (parseAttributes_returns record) as [[file|] ->];
    [|eexists; reflexivity].
  destruct (Mft.skip_name (Ntfs.Name file)); apply IH.
Qed.

(** What the second loop does to a file: the path is set, nothing else
    changes. *)
Definition pathed (recs : list (Z * Ntfs.RecoveredFile))
           (f f' : Ntfs.RecoveredFile) : Prop :=
  exists path,
    Mft.reconstructPath (S (length recs)) recs (Ntfs.MFTIndex f) = Some path
    /\ f' = Mft.set_path f path.

Lemma with_paths_returns (recs : list (Z * Ntfs.RecoveredFile)) :
  forall files,
  exists files',
    Mft.with_paths recs files = Some files'
    /\ Forall2 (pathed recs) files files'.
Proof.
  induction files as [|f files (files' & E & IH)]; simpl.
  - exists []. split; [reflexivity|constructor].
  - destruct (reconstructPath_returns recs (Ntfs.MFTIndex f) (S (length recs)))
      as (path & Ep & _); [lia|].
    rewrite Ep, E. eexists. split; [reflexivity|].
    constructor; [|exact IH]. now exists path.
Qed.

(** The scan runs out of no budget. *)
Lemma ScanDeletedFiles_returns (p : Ntfs.Parser) (maxRecords : Z) :
  exists res, Mft.ScanDeletedFiles p maxRecords = Some res.
Proof.
  unfold Mft.ScanDeletedFiles.
  destruct (scan_records_returns p (zseq 0 (Z.to_nat maxRecords))
              {| Mft.records := Ntfs.mftRecords p; Mft.found := [] |})
    as [[st|] ->]; [|eexists; reflexivity].
  destruct (with_paths_returns (Mft.records st) (Mft.found st))
    as (files & -> & _).
  eexists; reflexivity.
Qed.

(** [ScanDeletedFiles] returns, or panics, for every parser and every
    number of records: each record is parsed by loops that end, and so is
    each path. *)
Theorem ntfs_scan_returns (p : Ntfs.Parser) (maxRecords : Z) :
  exists res, Mft.ScanDeletedFiles p maxRecords = Some res.
Proof. apply ScanDeletedFiles_returns. Qed.

(** What the first loop keeps true of the files found so far, the
    records up to [hi] being read. *)
Definition kept (recs : list (Z * Ntfs.RecoveredFile)) (hi : Z)
           (f : Ntfs.RecoveredFile) : Prop :=
  Ntfs.IsDeleted f = true
  /\ Mft.skip_name (Ntfs.Name f) = false
  /\ 0 <= Ntfs.MFTIndex f < hi
  /\ Mft.lookup (Ntfs.MFTIndex f) recs = Some f.

Lemma sorted_snoc (l : list Z) (a : Z) :
  StronglySorted Z.lt l -> Forall (fun x => x < a) l ->
  StronglySorted Z.lt (l ++ [a]).
Proof.
  induction 1 as [|x l Hs IH Hx]; intros Ha; simpl.
  - constructor; constructor.
  - inversion Ha as [|? ? Hxa Hla]; subst.
    constructor; [now apply IH|].
    apply Forall_app. split; [exact Hx|]. now constructor.
Qed.

Lemma scan_records_kept (p : Ntfs.Parser) :
  forall n lo st st',
    0 <= lo ->
    Forall (kept (Mft.records st) lo) (Mft.found st) ->
    StronglySorted Z.lt (map Ntfs.MFTIndex (Mft.found st)) ->
    Mft.scan_records p (zseq lo n) st = Some (Done st') ->
    Forall (kept (Mft.records st') (lo + Z.of_nat n)) (Mft.found st')
    /\ StronglySorted Z.lt (map Ntfs.MFTIndex (Mft.found st')).
Proof.
  induction n as [|n IH]; intros lo st st' Hlo Hk Hs H.
  - simpl in H. injection H as <-. rewrite Z.add_0_r. now split.
  - rewrite zseq_S in H. simpl in H.
    replace (lo + Z.of_nat (S n)) with (lo + 1 + Z.of_nat n) by lia.
    assert (Hk1 : Forall (kept (Mft.records st) (lo + 1)) (Mft.found st)).
    { eapply Forall_impl; [|exact Hk].
      intros f (H1 & H2 & H3 & H4). repeat split; try assumption; lia. }
    destruct (Mft.readMFTRecord p lo) as [[record|e]|];
      [|now apply (IH (lo + 1) st); try lia|discriminate H].
    destruct (Ntfs.parseAttributes _ record) as [[file|]|];
      [|discriminate H|discriminate H].
    destruct (Mft.skip_name (Ntfs.Name file)) eqn:Esk;
      [now apply (IH (lo + 1) st); try lia|].
    apply (IH (lo + 1)) in H; [exact H|lia| |]; cbn [Mft.records Mft.found].
    + assert (Hold : Forall (kept ((lo, Mft.set_index file lo)
                                     :: Mft.records st) (lo + 1))
                            (Mft.found st)).
      { eapply Forall_impl; [|exact Hk].
        intros f (H1 & H2 & H3 & H4).
        repeat split; try assumption; try lia.
        simpl. destruct (Z.eqb_spec lo (Ntfs.MFTIndex f)); [lia|exact H4]. }
      destruct (Ntfs.IsDeleted file) eqn:Ed; [|exact Hold].
      apply Forall_app. split; [exact Hold|].
      constructor; [|constructor].
      repeat split; try assumption; simpl; try lia.
      now rewrite Z.eqb_refl.
    + destruct (Ntfs.IsDeleted file); [|exact Hs].
      rewrite map_app. apply sorted_snoc; [exact Hs|].
      apply Forall_map. eapply Forall_impl; [|exact Hk].
      intros f (_ & _ & H3 & _). simpl. lia.
Qed.

Lemma skip_name_false (name : gostring) :
  Mft.skip_name name = false ->
  name <> [] /\ name <> list_byte_of_string ".".
Proof.
  unfold Mft.skip_name. intros H.
  apply orb_false_elim in H. destruct H as [H _].
  apply orb_false_elim in H. destruct H as [H _].
  apply orb_false_elim in H. destruct H as [H1 H2].
  split; intros E; subst name.
  - now rewrite (proj2 (bytes_equal_eq _ _) eq_refl) in H1.
  - now rewrite (proj2 (bytes_equal_eq _ _) eq_refl) in H2.
Qed.

(** What holds of the files of a scan that returns. *)
Lemma ScanDeletedFiles_reports (p : Ntfs.Parser) (maxRecords : Z)
        (files : list Ntfs.RecoveredFile) :
  Mft.ScanDeletedFiles p maxRecords = Some (Done files) ->
  Forall (fun f => Ntfs.IsDeleted f = true
                   /\ Mft.skip_name (Ntfs.Name f) = false
                   /\ 0 <= Ntfs.MFTIndex f < maxRecords
                   /\ last (Ntfs.Path f) [] = Ntfs.Name f) files
  /\ StronglySorted Z.lt (map Ntfs.MFTIndex files).
Proof.
  unfold Mft.ScanDeletedFiles. intros H.
  destruct (Mft.scan_records p _ _) as [[st|]|] eqn:Es;
    [|discriminate H|discriminate H].
  apply scan_records_kept in Es;
    [|lia|constructor|constructor].
  destruct Es as [Hk Hs]. rewrite Z.add_0_l in Hk.
  destruct (with_paths_returns (Mft.records st) (Mft.found st))
    as (files' & E & Hp).
  rewrite E in H. injection H as <-. clear E.
  revert Hk Hs. induction Hp as [|f f' fs fs' (path & Ep & ->) Hp IH];
    intros Hk Hs; [split; constructor|].
  inversion Hk as [|? ? (H1 & H2 & H3 & H4) Hk']; subst.
  simpl in Hs. inversion Hs as [|? ? Hs' Hlt]; subst.
  destruct (IH Hk' Hs') as [IH1 IH2].
  assert (Emap : map Ntfs.MFTIndex fs' = map Ntfs.MFTIndex fs).
  { clear - Hp. induction Hp as [|g g' gs gs' (q & _ & ->) _ IHp];
      [reflexivity|]. simpl. now rewrite IHp. }
  split.
  - constructor; [|exact IH1]. cbn [Mft.set_path Ntfs.IsDeleted Ntfs.Name
                                  Ntfs.MFTIndex Ntfs.Path].
    repeat split; try assumption; try lia.
    destruct (reconstructPath_returns (Mft.records st) (Ntfs.MFTIndex f)
                (S (length (Mft.records st))))
      as (path' & Ep' & _ & _ & _ & Hlast); [lia|].
    rewrite Ep in Ep'. injection Ep' as <-.
    destruct (skip_name_false _ H2). now apply Hlast.
  - simpl. constructor; [exact IH2|]. now rewrite Emap.
Qed.




Lemma wrap64s_range (z : Z) : - 2 ^ 63 <= wrap64s z < 2 ^ 63.
Proof.
  unfold wrap64s.
  pose proof (Z.mod_pos_bound z (2 ^ 64) ltac:(lia)).
  destruct (Z.ltb_spec (z mod 2 ^ 64) (2 ^ 63)); lia.
Qed.

Lemma NewParser_fields (im : Disk.image) (p : Ntfs.Parser) :
  Mft.NewParser (Disk.Open im) = inl p ->
  Ntfs.reader p = Disk.Open im /\ - 2 ^ 63 <= Ntfs.mftStart p < 2 ^ 63.
Proof.
  unfold Mft.NewParser, Mft.readBootSector.
  destruct (Disk.ReadAt (Disk.Open im) 512 0) as [data [e|]];
    [discriminate|].
  destruct (negb _); [discriminate|].
  intros [= <-]. cbn [Ntfs.reader Ntfs.mftStart].
  split; [reflexivity|apply wrap64s_range].
Qed.

(** The small volume with byte 64 of the boot sector set to 0xC1, the
    int8 -63. *)
Definition shifted_volume : Disk.image :=
  {| Disk.f_size := Disk.f_size ntfs_volume;
     Disk.f_byte := fun j => if j =? 64 then z2b 0xC1
                             else Disk.f_byte ntfs_volume j |}.

Definition shifted_parser : Ntfs.Parser :=
  {| Ntfs.reader := Disk.Open shifted_volume;
     Ntfs.bootSector :=
       {| Ntfs.BytesPerSector := 512; Ntfs.SectorsPerCluster := 1;
          Ntfs.MFTCluster := 2; Ntfs.ClustersPerMFTRec := -63 |};
     Ntfs.mftStart := 1024; Ntfs.clusterSize := 512;
     Ntfs.mftRecSize := - 2 ^ 63; Ntfs.mftRecords := [] |}.

Lemma shifted_parser_built :
  Mft.NewParser (Disk.Open shifted_volume) = inl shifted_parser.
Proof. reflexivity. Qed.

(** A boot sector that [NewParser] accepts can make every scan panic: a
    negative record size makes [make] panic in [readMFTRecord], a record
    size of 0 makes the test of the magic slice an empty buffer. *)
Theorem ntfs_scan_record_size_panics (im : Disk.image) (p : Ntfs.Parser)
        (maxRecords : Z) :
  Mft.NewParser (Disk.Open im) = inl p ->
  Ntfs.mftRecSize p < 0 \/ (Ntfs.mftRecSize p = 0 /\ 0 <= Ntfs.mftStart p) ->
  0 < maxRecords ->
  Mft.ScanDeletedFiles p maxRecords = Some Panic.
Proof.
  intros Hp Hsz Hm. destruct (NewParser_fields _ _ Hp) as [Hr Hs].
  unfold Mft.ScanDeletedFiles.
  destruct (Z.to_nat maxRecords) as [|n] eqn:En; [lia|].
  rewrite zseq_S. cbn [Mft.scan_records].
  assert (E : Mft.readMFTRecord p 0 = Panic).
  { unfold Mft.readMFTRecord. destruct Hsz as [Hneg|[Hz Hst]].
    - destruct (Z.ltb_spec (Ntfs.mftRecSize p) 0); [reflexivity|lia].
    - rewrite Hz, Hr. change (wrap64s 0 * 0) with 0.
      change (wrap64s 0) with 0. rewrite Z.add_0_r.
      rewrite wrap64s_small by lia.
      cbn [Disk.ReadAt Disk.Open]. unfold Disk.file_ReadAt.
      destruct (Z.ltb_spec (Ntfs.mftStart p) 0); [lia|]. reflexivity. }
  rewrite E. reflexivity.
Qed.

Lemma ntfs_scan_record_size_panics_witness :
  Mft.ScanDeletedFiles shifted_parser 5 = Some Panic.
Proof.
  apply (ntfs_scan_record_size_panics shifted_volume shifted_parser 5).
  - reflexivity.
  - left. vm_compute. reflexivity.
  - lia.
Defined.

(** ** Short names *)

Definition space : byte := z2b 0x20.

(** The 11 bytes of a directory entry that hold the name [base] and the
    extension [ext], each padded with spaces. *)
Definition short_name_field (base ext : list byte) : list byte :=
  (base ++ repeat space (8 - length base))
    ++ (ext ++ repeat space (3 - length ext)).

Lemma trim_right_spaces_repeat (k : nat) :
  trim_right_spaces (repeat space k) = [].
Proof. induction k as [|k IH]; simpl; [reflexivity|now rewrite IH]. Qed.

Lemma trim_right_spaces_padded (s : list byte) (k : nat) :
  last s Byte.x00 <> space ->
  trim_right_spaces (s ++ repeat space k) = s.
Proof.
  induction s as [|c s IH]; intros Hl.
  - apply trim_right_spaces_repeat.
  - cbn [app trim_right_spaces]. destruct s as [|x s].
    + cbn [app]. rewrite trim_right_spaces_repeat.
      simpl in Hl. fold space.
      destruct (Byte.eqb c space) eqn:E; [|reflexivity].
      now apply Byte.byte_dec_bl in E.
    + rewrite IH by exact Hl. reflexivity.
Qed.

(** [parseShortName] gives back the name and the extension that were
    padded into the 11 bytes of the entry, with a dot between them when
    there is an extension; of a deleted entry the first byte of the name
    becomes a question mark. *)
Theorem fat32_short_name_roundtrip (base ext : list byte) (isDeleted : bool) :
  (length base <= 8)%nat -> (length ext <= 3)%nat ->
  last base Byte.x00 <> space -> last ext Byte.x00 <> space ->
  Fat32.parseShortName (short_name_field base ext) isDeleted
  = (if isDeleted
     then match base with
          | [] => []
          | _ :: rest => Fat32.question_mark :: rest
          end
     else base)
      ++ match ext with
         | [] => []
         | _ => Fat32.dot :: ext
         end.
Proof.
  intros Hb He Hlb Hle. unfold Fat32.parseShortName, short_name_field.
  set (b8 := base ++ repeat space (8 - length base)).
  set (e3 := ext ++ repeat space (3 - length ext)).
  assert (Lb : len b8 = 8)
    by (subst b8; unfold len; rewrite length_app, repeat_length; lia).
  assert (Le : len e3 = 3)
    by (subst e3; unfold len; rewrite length_app, repeat_length; lia).
  rewrite (slice_app_l b8 e3 0 8) by lia.
  replace (slice b8 0 8) with b8 by (rewrite <- Lb; now rewrite slice_all).
  replace (slice (b8 ++ e3) 8 11) with e3.
  2:{ pose proof (slice_middle b8 e3 []) as Hm.
      rewrite app_nil_r, Lb, Le in Hm. change (8 + 3) with 11 in Hm.
      now rewrite Hm. }
  subst b8 e3. rewrite !trim_right_spaces_padded by assumption.
  assert (Eb : (if isDeleted && (0 <? len base)
                then Fat32.question_mark :: skipn 1 base else base)
               = if isDeleted
                 then match base with
                      | [] => []
                      | _ :: rest => Fat32.question_mark :: rest
                      end
                 else base)
    by (destruct isDeleted, base; reflexivity).
  rewrite Eb. destruct ext as [|c ext]; [simpl; now rewrite app_nil_r|].
  unfold len. cbn [length]. 
  destruct (Z.eqb_spec (Z.of_nat (S (length ext))) 0); [lia|]. reflexivity.
Qed.

Lemma fat32_short_name_roundtrip_witness :
  Fat32.parseShortName
    (short_name_field (z2b 0xE5 :: list_byte_of_string "EST")
                      (list_byte_of_string "TXT")) true
  = list_byte_of_string "?EST.TXT".
Proof.
  apply (fat32_short_name_roundtrip (z2b 0xE5 :: list_byte_of_string "EST")
           (list_byte_of_string "TXT") true);
    solve [simpl; lia | vm_compute; discriminate].
Defined.

(* ------------------------------------------------------------------ *)
(** ** package device: the size of a device in words *)

Module Device.





End Device.




(* ------------------------------------------------------------------ *)
(** ** internal/ntfs: the whole recovery *)

Module NtfsRecover.
Import Disk.

(** The second loop of [Recover]: directories and files without runs are
    passed over, a file whose extraction fails is not counted. *)
Fixpoint recover_all (p : Ntfs.Parser) (files : list Ntfs.RecoveredFile)
         (recovered : Z) : outcome Z :=
  match files with
  | [] => Done recovered
  | f :: rest =>
    if Ntfs.IsDirectory f || (len (Ntfs.DataRuns f) =? 0)
    then recover_all p rest recovered
    else
      match Ntfs.RecoverFile p f with
      | Panic => Panic
      | Done (Ntfs.Wrote _ (Some _)) => recover_all p rest recovered
      | Done _ => recover_all p rest (recovered + 1)
      end
  end.

(** [Recover(reader, outputDir, scanOnly, carveMode)]: the count it
    returns, or the error of [NewParser].  The division that estimates the
    number of records is one of uint64. *)
Definition Recover (r : Reader) (scanOnly : bool)
  : option (outcome (Z + Mft.boot_error)) :=
  match Mft.NewParser r with
  | inr e => Some (Done (inr e))
  | inl p =>
    let divisor := wrapu64 (Ntfs.mftRecSize p) in
    if divisor =? 0 then Some Panic
    else
      let maxRecords := wrapu64 (Size r) / divisor in
      let maxRecords :=
          if maxRecords >? 10000000 then 10000000 else maxRecords in
      match Mft.ScanDeletedFiles p maxRecords with
      | None => None
      | Some Panic => Some Panic
      | Some (Done files) =>
        if scanOnly then Some (Done (inl (len files)))
        else match recover_all p files 0 with
             | Panic => Some Panic
             | Done n => Some (Done (inl n))
             end
      end
  end.

End NtfsRecover.

Lemma recover_all_count (p : Ntfs.Parser) :
  forall files recovered n,
    NtfsRecover.recover_all p files recovered = Done n ->
    recovered <= n <= recovered + len files.
Proof.
  induction files as [|f files IH]; intros recovered n H; simpl in H.
  - injection H as <-. change (len (@nil Ntfs.RecoveredFile)) with 0. lia.
  - rewrite len_cons.
    destruct (_ || _); [apply IH in H; lia|].
    destruct (Ntfs.RecoverFile p f) as [[|content [e|]]|];
      [apply IH in H; lia|apply IH in H; lia|apply IH in H; lia
       |discriminate H].
Qed.

(** A list of record numbers in increasing order, all from [lo] up to
    [hi], has no more than [hi - lo] members. *)
Lemma sorted_range_length :
  forall (l : list Z) (lo hi : Z),
    StronglySorted Z.lt l -> Forall (fun x => lo <= x < hi) l ->
    lo <= hi -> len l <= hi - lo.
Proof.
  induction l as [|x l IH]; intros lo hi Hs Hr Hle.
  - change (len (@nil Z)) with 0. lia.
  - inversion Hs as [|? ? Hs' Hx]; subst.
    inversion Hr as [|? ? Hx0 Hr']; subst.
    rewrite len_cons.
    assert (len l <= hi - (x + 1)); [|lia].
    apply IH; [exact Hs'| |lia].
    rewrite Forall_forall in *. intros y Hy.
    specialize (Hx y Hy). specialize (Hr' y Hy). lia.
Qed.

Lemma int8_range (z : Z) : - 128 <= Mft.int8 z <= 127.
Proof.
  unfold Mft.int8. pose proof (Z.mod_pos_bound (z + 128) 256 ltac:(lia)). lia.
Qed.

Lemma NewParser_record_size (im : Disk.image) (p : Ntfs.Parser) :
  Mft.NewParser (Disk.Open im) = inl p ->
  - 2 ^ 63 <= Ntfs.mftRecSize p < 2 ^ 63.
Proof.
  unfold Mft.NewParser, Mft.readBootSector.
  destruct (Disk.ReadAt (Disk.Open im) 512 0) as [data [e|]];
    [discriminate|].
  destruct (negb _); [discriminate|].
  intros [= <-]. cbn [Ntfs.mftRecSize Ntfs.ClustersPerMFTRec
                        Ntfs.SectorsPerCluster Ntfs.BytesPerSector].
  set (buf := Disk.fill _ _).
  unfold Mft.record_size.
  pose proof (int8_range (b2z (at_ buf 64))) as Hi.
  destruct (Z.ltb_spec (Mft.int8 (b2z (at_ buf 64))) 0).
  - unfold Mft.shl_one. destruct (_ <? 64); [apply wrap64s_range|lia].
  - pose proof (b2z_range (at_ buf 13)).
    pose proof (b2z_range (at_ buf 11)).
    pose proof (b2z_range (at_ buf (11 + 1))).
    unfold le16. rewrite lor_shiftl_add by lia.
    set (bps := b2z (at_ buf 11) + b2z (at_ buf (11 + 1)) * 2 ^ 8).
    assert (0 <= bps < 65536) by (subst bps; lia).
    assert (0 <= b2z (at_ buf 13) * bps <= 255 * 65536) by nia.
    nia.
Qed.

(** What the scan of a whole volume comes to.  A record size of 0 in
    the boot sector makes the estimate of the number of records divide by
    zero; a negative one is read as a uint64 above every file size, so
    that no record is scanned; with a positive one the number of files
    returned is bounded by the cap of ten million records and by the
    number of records that fit into the image. *)
Theorem ntfs_recover_count (im : Disk.image) (p : Ntfs.Parser)
        (scanOnly : bool) :
  Mft.NewParser (Disk.Open im) = inl p ->
  0 <= Disk.f_size im < 2 ^ 63 ->
  (exists res, NtfsRecover.Recover (Disk.Open im) scanOnly = Some res)
  /\ (Ntfs.mftRecSize p = 0 ->
      NtfsRecover.Recover (Disk.Open im) scanOnly = Some Panic)
  /\ (Ntfs.mftRecSize p < 0 ->
      NtfsRecover.Recover (Disk.Open im) scanOnly = Some (Done (inl 0)))
  /\ (0 < Ntfs.mftRecSize p ->
      forall n,
        NtfsRecover.Recover (Disk.Open im) scanOnly = Some (Done (inl n)) ->
        0 <= n <= 10000000 /\ n * Ntfs.mftRecSize p <= Disk.f_size im).
Proof.
  intros Hp Hsize. pose proof (NewParser_record_size im p Hp) as Hrec.
  unfold NtfsRecover.Recover. rewrite Hp. cbn [Disk.Size Disk.Open].
  unfold wrapu64. rewrite (Z.mod_small (Disk.f_size im)) by lia.
  set (m := if _ >? 10000000 then 10000000 else _).
  split; [|split; [|split]].
  - destruct (_ =? 0); [eexists; reflexivity|].
    destruct (ScanDeletedFiles_returns p m) as [[files|] ->];
      [|eexists; reflexivity].
    destruct scanOnly; [eexists; reflexivity|].
    destruct (NtfsRecover.recover_all p files 0); eexists; reflexivity.
  - intros ->. reflexivity.
  - intros Hneg. subst m.
    replace (Ntfs.mftRecSize p mod 2 ^ 64) with (Ntfs.mftRecSize p + 2 ^ 64)
      by (apply Z.mod_unique with (-1); lia).
    destruct (Z.eqb_spec (Ntfs.mftRecSize p + 2 ^ 64) 0); [lia|].
    rewrite Z.div_small by lia. cbn [Z.gtb Z.compare].
    change (Z.to_nat 0) with 0%nat. 
    destruct scanOnly; reflexivity.
  - intros Hpos n. subst m.
    rewrite (Z.mod_small (Ntfs.mftRecSize p)) by lia.
    destruct (Z.eqb_spec (Ntfs.mftRecSize p) 0); [lia|].
    set (m := if _ >? 10000000 then 10000000 else _).
    assert (Hm : 0 <= m <= 10000000
                 /\ m * Ntfs.mftRecSize p <= Disk.f_size im).
    { subst m.
      rewrite (Z.mul_comm _ (Ntfs.mftRecSize p)).
      pose proof (Z.div_pos (Disk.f_size im) (Ntfs.mftRecSize p)
                            ltac:(lia) ltac:(lia)).
      pose proof (Z.mul_div_le (Disk.f_size im) (Ntfs.mftRecSize p)
                               ltac:(lia)).
      destruct (Z.gtb_spec (Disk.f_size im / Ntfs.mftRecSize p) 10000000);
        nia. }
    destruct (Mft.ScanDeletedFiles p m) as [[files|]|] eqn:Es;
      [|discriminate|discriminate].
    apply ScanDeletedFiles_reports in Es. destruct Es as [Hf Hs].
    assert (Hlen : len files <= m).
    { rewrite <- (Z.sub_0_r m).
      unfold len. rewrite <- (length_map Ntfs.MFTIndex). 
      apply sorted_range_length; [exact Hs| |lia].
      apply Forall_map. eapply Forall_impl; [|exact Hf].
      intros f (_ & _ & H3 & _). exact H3. }
    pose proof (len_nonneg files).
    destruct scanOnly.
    + intros [= <-]. nia.
    + destruct (NtfsRecover.recover_all p files 0) as [k|] eqn:Er;
        [|discriminate].
      intros [= <-]. apply recover_all_count in Er. nia.
Qed.

Lemma ntfs_recover_count_witness :
  (exists res, NtfsRecover.Recover (Disk.Open ntfs_volume) true = Some res)
  /\ (Ntfs.mftRecSize ntfs_parser = 0 ->
      NtfsRecover.Recover (Disk.Open ntfs_volume) true = Some Panic)
  /\ (Ntfs.mftRecSize ntfs_parser < 0 ->
      NtfsRecover.Recover (Disk.Open ntfs_volume) true
      = Some (Done (inl 0)))
  /\ (0 < Ntfs.mftRecSize ntfs_parser ->
      forall n,
        NtfsRecover.Recover (Disk.Open ntfs_volume) true
        = Some (Done (inl n)) ->
        0 <= n <= 10000000
        /\ n * Ntfs.mftRecSize ntfs_parser <= Disk.f_size ntfs_volume).
Proof.
  apply (ntfs_recover_count ntfs_volume ntfs_parser true).
  - reflexivity.
  - vm_compute. split; [discriminate|reflexivity].
Defined.

(** ** Detection and the NTFS parser *)

(** On an image of 4096 bytes or more, [DetectFilesystem] answers [ntfs]
    exactly when the NTFS parser takes the image: the two read the same
    four bytes of the boot sector and look at nothing else. *)
Theorem disk_detect_ntfs_agrees (im : Disk.image) :
  4096 <= Disk.f_size im ->
  DiskReader.DetectFilesystem (Disk.Open im) = inl "ntfs"%string
  <-> exists p, Mft.NewParser (Disk.Open im) = inl p.
Proof.
  intros Hs.
  unfold DiskReader.DetectFilesystem, Mft.NewParser, Mft.readBootSector.
  cbn [Disk.ReadAt Disk.Open].
  rewrite !file_ReadAt_inside by lia.
  rewrite !fill_whole
    by (unfold Disk.zeros; now rewrite repeat_length, bytes_at_length).
  rewrite !slice_bytes_at_inner by lia.
  change (Z.to_nat (7 - 3)) with 4%nat. rewrite Z.add_0_l.
  unfold DiskReader.ascii_bytes.
  destruct (bytes_equal (Disk.bytes_at (Disk.f_byte im) 3 4)
                        (list_byte_of_string "NTFS")).
  - cbn [negb]. split; [intros _; eexists; reflexivity|reflexivity].
  - cbn [negb]. split.
    + intros H. exfalso.
      repeat (destruct (bytes_equal _ _); [discriminate H|]).
      discriminate H.
    + intros [p H]. discriminate H.
Qed.

Lemma disk_detect_ntfs_agrees_witness :
  DiskReader.DetectFilesystem (Disk.Open ntfs_volume) = inl "ntfs"%string
  <-> exists p, Mft.NewParser (Disk.Open ntfs_volume) = inl p.
Proof.
  apply (disk_detect_ntfs_agrees ntfs_volume). vm_compute. discriminate.
Defined.
